(** * Verilog core: symbol index, hybrid search and module graph

    A shallow embedding of three TypeScript classes of the repository,

    - [SymbolIndexer] (src/core/symbolIndexer.ts),
    - [SearchEngine]  (the class that ranks and sorts search results),
    - [GraphBuilder]  (module instantiation graph and signal flows),

    of the search handler and the file ranking of [HttpServer], and of the
    two cache classes [SimpleLRUCache] and [KVCache], followed by the
    properties that the design document states about them and by further
    properties that the code has.

    Conventions.  A JavaScript string is a sequence of code units; the model
    uses [string] for record fields and [list ascii] where the code indexes
    into a string, and covers 7-bit characters (the names produced by the
    extractor match [\w+]).  A JavaScript [Map] or [Set] iterates in
    insertion order, which several functions below observe, so both are
    modelled as ordered lists ([JsMap], [JsSet]).  Builtins of the platform
    (regular expressions, [path], [fs], [localeCompare], [Date.now]) are
    Section variables. *)

From Stdlib Require Import ZArith Ascii String DecimalString Sorted Permutation.
From stdpp Require Import base tactics option list strings.

Local Open Scope string_scope.
Local Open Scope list_scope.
Local Open Scope nat_scope.

(* ================================================================== *)
(** * Part I.  The embedding                                           *)
(* ================================================================== *)

(** ** Insertion-ordered maps and sets *)

Module JsSet.
(** [Set<string>]: members in insertion order, without repetition. *)
Abbreviation t := (list string) (only parsing).

Definition empty : t := [].
Definition has (x : string) (s : t) : bool := bool_decide (x ∈ s).
Definition add (x : string) (s : t) : t := if has x s then s else s ++ [x].
Definition delete (x : string) (s : t) : t := filter (λ y, y ≠ x) s.
Definition size (s : t) : nat := length s.
End JsSet.

Module JsMap.
(** [Map<string, V>]: entries in insertion order.  [set] on a key that is
    present replaces the value and keeps the entry's position. *)
Abbreviation t V := (list (string * V)) (only parsing).

Section Ops.
Context {V : Type}.

Definition empty : t V := [].

Fixpoint get (k : string) (m : t V) : option V :=
  match m with
  | [] => None
  | (k', v) :: m' => if decide (k' = k) then Some v else get k m'
  end.

Definition has (k : string) (m : t V) : bool :=
  match get k m with Some _ => true | None => false end.

Fixpoint set (k : string) (v : V) (m : t V) : t V :=
  match m with
  | [] => [(k, v)]
  | (k', v') :: m' =>
      if decide (k' = k) then (k, v) :: m' else (k', v') :: set k v m'
  end.

Definition delete (k : string) (m : t V) : t V :=
  filter (λ kv, kv.1 ≠ k) m.

Definition keys (m : t V) : list string := m.*1.
Definition values (m : t V) : list V := m.*2.
Definition size (m : t V) : nat := length m.
End Ops.
End JsMap.

(** ** Symbols (symbolIndexer.ts, [interface Symbol]) *)

Record Symbol := mkSymbol {
  sym_id : string;
  sym_repo : string;
  sym_path : string;
  sym_name : string;
  sym_kind : string;
  sym_startLine : nat;
  sym_endLine : nat;
  sym_nodeType : string;
  sym_hash : string;
}.

Global Instance Symbol_eq_dec : EqDecision Symbol.
Proof. solve_decision. Defined.

(** [s] with its [name] field replaced. *)
Definition symbol_named (name : string) (s : Symbol) : Symbol :=
  mkSymbol (sym_id s) (sym_repo s) (sym_path s) name (sym_kind s)
    (sym_startLine s) (sym_endLine s) (sym_nodeType s) (sym_hash s).

(** ** Strings as the search engine uses them *)

Module JsString.
Definition chars (s : string) : list ascii := list_ascii_of_string s.

(** [c.toLowerCase()] on one 7-bit character: the letters A to Z move to
    a to z.  A character above 127 is left as it is, which is not what
    JavaScript does with a letter outside ASCII; the statements about case
    below are made for 7-bit strings. *)
Definition lower_char (c : ascii) : ascii :=
  let n := nat_of_ascii c in
  if (65 <=? n)%nat && (n <=? 90)%nat then ascii_of_nat (n + 32) else c.

Definition toLowerCase (s : list ascii) : list ascii := lower_char <$> s.

(** [name.startsWith(q)] *)
Fixpoint startsWith (name q : list ascii) : bool :=
  match q, name with
  | [], _ => true
  | c :: q', d :: name' => bool_decide (c = d) && startsWith name' q'
  | _ :: _, [] => false
  end.

(** [name.includes(q)]: [q] starts at some position of [name]. *)
Fixpoint includes (name q : list ascii) : bool :=
  startsWith name q ||
  match name with
  | [] => false
  | _ :: name' => includes name' q
  end.

(** Decimal rendering of a number in a template string. *)
Definition of_nat (n : nat) : string := NilEmpty.string_of_uint (Nat.to_uint n).
Definition of_Z (z : Z) : string := NilEmpty.string_of_int (Z.to_int z).
End JsString.

(** ** SymbolIndexer (src/core/symbolIndexer.ts) *)

Module SymbolIndexer.
Import JsString.

(** The six regular expressions of [indexSingleFile], in source order, and
    the symbol kind attached to each. *)
Inductive Pattern := PModule | PFunction | PTask | PPort | PSignal | PInstance.

Definition patterns : list Pattern :=
  [PModule; PFunction; PTask; PPort; PSignal; PInstance].

Definition pattern_kind (p : Pattern) : string :=
  match p with
  | PModule => "module"
  | PFunction => "function"
  | PTask => "task"
  | PPort => "port"
  | PSignal => "signal"
  | PInstance => "instance"
  end.

(** The three private maps of the class. *)
Record State := mkState {
  symbols : JsMap.t Symbol;
  nameIndex : JsMap.t JsSet.t;
  pathIndex : JsMap.t JsSet.t;
}.

Definition empty : State := mkState JsMap.empty JsMap.empty JsMap.empty.

(** [x & x] and [x << 5] work on 32-bit two's complement integers. *)
Definition toInt32 (z : Z) : Z := ((z + 2 ^ 31) `mod` 2 ^ 32 - 2 ^ 31)%Z.

Definition computeHash (input : string) : string :=
  of_Z (foldl (λ hash c,
                 toInt32 (toInt32 (hash * 32) - hash + Z.of_nat (nat_of_ascii c))%Z)
              0%Z (chars input)).

(** [content.substring(0, index).split("\n").length - 1]: the number of
    line feeds before [index]. *)
Definition lineOf (content : string) (index : nat) : nat :=
  length (filter (λ c, c = "010"%char) (take index (chars content))).

(** [if (!index.has(key)) index.set(key, new Set()); index.get(key)!.add(id)] *)
Definition indexAdd (key id : string) (index : JsMap.t JsSet.t) : JsMap.t JsSet.t :=
  let index :=
    if JsMap.has key index then index else JsMap.set key JsSet.empty index in
  JsMap.set key (JsSet.add id (default JsSet.empty (JsMap.get key index))) index.

Definition addSymbol (symbol : Symbol) (st : State) : State :=
  mkState (JsMap.set (sym_id symbol) symbol (symbols st))
          (indexAdd (sym_name symbol) (sym_id symbol) (nameIndex st))
          (indexAdd (sym_path symbol) (sym_id symbol) (pathIndex st)).

(** [set.delete(id); if (set.size === 0) index.delete(key)] *)
Definition indexRemove (key id : string) (index : JsMap.t JsSet.t) : JsMap.t JsSet.t :=
  match JsMap.get key index with
  | Some set =>
      let set := JsSet.delete id set in
      if decide (JsSet.size set = 0) then JsMap.delete key index
      else JsMap.set key set index
  | None => index
  end.

Definition removeSymbol (symbolId : string) (st : State) : State :=
  match JsMap.get symbolId (symbols st) with
  | None => st
  | Some symbol =>
      mkState (JsMap.delete symbolId (symbols st))
              (indexRemove (sym_name symbol) symbolId (nameIndex st))
              (indexRemove (sym_path symbol) symbolId (pathIndex st))
  end.

Definition findByName (name : string) (st : State) : list Symbol :=
  omap (λ id, JsMap.get id (symbols st))
       (default JsSet.empty (JsMap.get name (nameIndex st))).

Definition listSymbols (st : State) : list Symbol := JsMap.values (symbols st).

Definition getSymbol (id : string) (st : State) : option Symbol :=
  JsMap.get id (symbols st).

Definition getSymbolCount (st : State) : nat := JsMap.size (symbols st).

Definition getSymbolsInFile (filePath : string) (st : State) : list Symbol :=
  omap (λ id, JsMap.get id (symbols st))
       (default JsSet.empty (JsMap.get filePath (pathIndex st))).

Definition getAllFiles (st : State) : list string := JsMap.keys (pathIndex st).

(** How a call that may throw ended; the state it leaves behind is kept in
    both cases. *)
Inductive Outcome := Returned | Threw.

Section Platform.
(** [path.resolve], [path.basename], [path.dirname]. *)
Variables resolve basename dirname : string → string.
(** [regexMatches p content]: for the pattern [p], the pairs
    [(match[1], match.index)] of the successive [regex.exec(content)] calls
    until [null]. *)
Variable regexMatches : Pattern → string → list (string * nat).
(** [fs.readFileSync(path, "utf8")]; [None] when it throws. *)
Variable readFileSync : string → option string.

Definition generateSymbolId (filePath name : string) (line : nat) : string :=
  basename filePath +:+ ":" +:+ name +:+ ":" +:+ of_nat line.

(** The record built in the body of the [while] loop of [indexSingleFile]. *)
Definition extractedSymbol (filePath content : string) (p : Pattern)
    (m : string * nat) : Symbol :=
  let name := m.1 in
  let lineNum := lineOf content m.2 in
  {| sym_id := generateSymbolId filePath name lineNum;
     sym_repo := dirname filePath;
     sym_path := resolve filePath;
     sym_name := name;
     sym_kind := pattern_kind p;
     sym_startLine := lineNum;
     sym_endLine := lineNum;
     sym_nodeType := pattern_kind p;
     sym_hash := computeHash (filePath +:+ ":" +:+ name +:+ ":" +:+ of_nat lineNum) |}.

(** The symbols of one file in the order in which [indexSingleFile] adds
    them: pattern by pattern, match by match. *)
Definition extraction (filePath content : string) : list Symbol :=
  p ← patterns; extractedSymbol filePath content p <$> regexMatches p content.

Definition indexSingleFile (filePath content : string) (st : State) : State :=
  foldl (λ st symbol, addSymbol symbol st) st (extraction filePath content).

(** [content || fs.readFileSync(filePath, "utf8")]: an absent or empty
    [content] is read from disk. *)
Definition fileContent (filePath : string) (content : option string) : option string :=
  match content with
  | Some c => if decide (c = "") then readFileSync filePath else Some c
  | None => readFileSync filePath
  end.

(** The symbols that one call of [updateFile filePath content] inserts. *)
Definition inserted (filePath : string) (content : option string) : list Symbol :=
  match fileContent filePath content with
  | Some c => extraction filePath c
  | None => []
  end.

(** The [for (const id of existingIds)] loop visits the ids that the set
    held on entry: [removeSymbol id] deletes nothing but [id] from any set. *)
Definition updateFile (filePath : string) (content : option string)
    (st : State) : State * Outcome :=
  let existingIds := default JsSet.empty (JsMap.get filePath (pathIndex st)) in
  let st := foldl (λ st id, removeSymbol id st) st existingIds in
  match fileContent filePath content with
  | Some c => (indexSingleFile filePath c st, Returned)
  | None => (st, Threw)
  end.

(** [fallbackIndexing] over the files found by [findVerilogFiles]; a file
    that cannot be read is skipped. *)
Definition fallbackIndexing (verilogFiles : list string) (st : State) : State :=
  foldl (λ st filePath,
           match readFileSync filePath with
           | Some content => indexSingleFile filePath content st
           | None => st
           end) st verilogFiles.
End Platform.
End SymbolIndexer.

(** ** GraphBuilder (module graph and signal flows) *)

Module GraphBuilder.

Record PortInfo := mkPort {
  port_name : string;
  port_direction : string;
  port_type : string;
}.

Record ModuleInfo := mkModule {
  mod_name : string;
  mod_filePath : string;
  mod_startLine : nat;
  mod_endLine : nat;
  mod_ports : list PortInfo;
}.

(** ["input" | "output" | "inout"] *)
Inductive Direction := Input | Output | Inout.

Record ConnectionInfo := mkConnection {
  portName : string;
  signalName : string;
  direction : Direction;
}.

Record InstanceInfo := mkInstance {
  inst_name : string;
  moduleType : string;
  connections : list ConnectionInfo;
  inst_file : string;
  inst_line : nat;
}.

Record ModuleNode := mkNode {
  node_id : string;
  node_name : string;
  node_file : string;
  node_ports : list PortInfo;
  node_parameters : JsMap.t string;
  node_instances : list InstanceInfo;
}.

(** [{ module: string; port: string }] *)
Record Endpoint := mkEndpoint {
  ep_module : string;
  ep_port : string;
}.

Record SignalFlow := mkFlow {
  flow_from : Endpoint;
  flow_to : Endpoint;
  flow_signal : string;
  flow_path : list string;
}.

Record ModuleGraph := mkGraph {
  nodes : JsMap.t ModuleNode;
  edges : JsMap.t JsSet.t;
  reverseEdges : JsMap.t JsSet.t;
  signalFlows : list SignalFlow;
}.

Global Instance Direction_eq_dec : EqDecision Direction.
Proof. solve_decision. Defined.
Global Instance Endpoint_eq_dec : EqDecision Endpoint.
Proof. solve_decision. Defined.
Global Instance SignalFlow_eq_dec : EqDecision SignalFlow.
Proof. solve_decision. Defined.

Definition emptyGraph : ModuleGraph :=
  mkGraph JsMap.empty JsMap.empty JsMap.empty [].

(** [modules.find((m) => m.filePath === file) || null] *)
Definition findModuleByFile (file : string) (modules : list ModuleInfo)
    : option ModuleInfo :=
  List.find (λ m, bool_decide (mod_filePath m = file)) modules.

(** [if (!map.has(k)) map.set(k, new Set()); map.get(k)!.add(x)] *)
Definition addTo (k x : string) (map : JsMap.t JsSet.t) : JsMap.t JsSet.t :=
  let map := if JsMap.has k map then map else JsMap.set k JsSet.empty map in
  JsMap.set k (JsSet.add x (default JsSet.empty (JsMap.get k map))) map.

Definition addEdge (from to : string) (g : ModuleGraph) : ModuleGraph :=
  mkGraph (nodes g)
          (addTo from to (edges g))
          (addTo to from (reverseEdges g))
          (signalFlows g).

Definition nodeOf (module : ModuleInfo) : ModuleNode :=
  {| node_id := mod_name module;
     node_name := mod_name module;
     node_file := mod_filePath module;
     node_ports := mod_ports module;
     node_parameters := JsMap.empty;
     node_instances := [] |}.

(** [node.instances.push(instance)] *)
Definition pushInstance (instance : InstanceInfo) (node : ModuleNode) : ModuleNode :=
  {| node_id := node_id node;
     node_name := node_name node;
     node_file := node_file node;
     node_ports := node_ports node;
     node_parameters := node_parameters node;
     node_instances := node_instances node ++ [instance] |}.

(** Body of the first loop of [buildGraph]. *)
Definition addNode (g : ModuleGraph) (module : ModuleInfo) : ModuleGraph :=
  mkGraph (JsMap.set (mod_name module) (nodeOf module) (nodes g))
          (edges g) (reverseEdges g) (signalFlows g).

(** Body of the second loop of [buildGraph]. *)
Definition addInstance (modules : list ModuleInfo) (g : ModuleGraph)
    (instance : InstanceInfo) : ModuleGraph :=
  match findModuleByFile (inst_file instance) modules with
  | Some parentModule =>
      let nodes :=
        match JsMap.get (mod_name parentModule) (nodes g) with
        | Some parentNode =>
            JsMap.set (mod_name parentModule) (pushInstance instance parentNode) (nodes g)
        | None => nodes g
        end in
      addEdge (mod_name parentModule) (moduleType instance)
        (mkGraph nodes (edges g) (reverseEdges g) (signalFlows g))
  | None => g
  end.

Definition traceSignalFlow (g : ModuleGraph) (parentModule : string)
    (instance : InstanceInfo) (connection : ConnectionInfo) : option SignalFlow :=
  match JsMap.get (moduleType instance) (nodes g) with
  | None => None
  | Some childModule =>
      match List.find (λ p, bool_decide (port_name p = portName connection))
                      (node_ports childModule) with
      | None => None
      | Some childPort =>
          Some
            {| flow_from :=
                 {| ep_module :=
                      if decide (direction connection = Input) then parentModule
                      else moduleType instance;
                    ep_port :=
                      if decide (direction connection = Input) then signalName connection
                      else portName connection |};
               flow_to :=
                 {| ep_module :=
                      if decide (direction connection = Input) then moduleType instance
                      else parentModule;
                    ep_port :=
                      if decide (direction connection = Input) then portName connection
                      else signalName connection |};
               flow_signal := signalName connection;
               flow_path := [parentModule; moduleType instance] |}
      end
  end.

(** The three nested loops of [buildSignalFlows], in iteration order. *)
Definition tracedFlows (g : ModuleGraph) : list SignalFlow :=
  entry ← nodes g;
  instance ← node_instances entry.2;
  connection ← connections instance;
  option_list (traceSignalFlow g entry.1 instance connection).

Definition buildSignalFlows (g : ModuleGraph) : ModuleGraph :=
  mkGraph (nodes g) (edges g) (reverseEdges g) (signalFlows g ++ tracedFlows g).

Definition buildGraph (modules : list ModuleInfo) (instances : list InstanceInfo)
    : ModuleGraph :=
  let g := foldl addNode emptyGraph modules in
  let g := foldl (addInstance modules) g instances in
  buildSignalFlows g.

(** [!set || set.size === 0] *)
Definition noneOrEmpty (set : option JsSet.t) : bool :=
  match set with
  | None => true
  | Some set => bool_decide (JsSet.size set = 0)
  end.

Definition getTopLevelModules (g : ModuleGraph) : list string :=
  filter (λ moduleName, noneOrEmpty (JsMap.get moduleName (reverseEdges g)) = true)
         (JsMap.keys (nodes g)).

Definition getLeafModules (g : ModuleGraph) : list string :=
  filter (λ moduleName, noneOrEmpty (JsMap.get moduleName (edges g)) = true)
         (JsMap.keys (nodes g)).

Record Impact := mkImpact {
  sources : list Endpoint;
  sinks : list Endpoint;
  affectedModules : list string;
}.

(** Body of the loop of [getSignalImpactAnalysis]; [affected] is the
    [Set] that [Array.from] lists at the end. *)
Definition impactStep (signalName : string) (acc : Impact) (flow : SignalFlow) : Impact :=
  if decide (flow_signal flow = signalName) then
    {| sources := sources acc ++ [flow_from flow];
       sinks := sinks acc ++ [flow_to flow];
       affectedModules :=
         JsSet.add (ep_module (flow_to flow))
           (JsSet.add (ep_module (flow_from flow)) (affectedModules acc)) |}
  else acc.

Definition getSignalImpactAnalysis (signalName : string) (g : ModuleGraph) : Impact :=
  foldl (impactStep signalName) (mkImpact [] [] JsSet.empty) (signalFlows g).

(** *** Depth-first walks

    The two recursive closures are modelled with a bound [fuel] on the
    depth of the recursion; [None] means that the bound was reached. *)

(** Variables captured or passed by [dfs] in [getCriticalPath]. *)
Record Walk := mkWalk {
  visited : JsSet.t;
  currentPath : list string;
  longestPath : list string;
}.

(** [if (currentPath.length > longestPath.length) longestPath = [...currentPath]] *)
Definition recordLeaf (w : Walk) : Walk :=
  if decide (length (longestPath w) < length (currentPath w))
  then mkWalk (visited w) (currentPath w) (currentPath w)
  else w.

Fixpoint criticalDfs (fuel : nat) (g : ModuleGraph) (module : string) (w : Walk)
    : option Walk :=
  match fuel with
  | 0 => None
  | S fuel =>
      if JsSet.has module (visited w) then Some w
      else
        let w := mkWalk (JsSet.add module (visited w))
                        (currentPath w ++ [module]) (longestPath w) in
        let children := JsMap.get module (edges g) in
        w ← (if noneOrEmpty children then Some (recordLeaf w)
             else foldl (λ acc child, w ← acc; criticalDfs fuel g child w)
                        (Some w) (default JsSet.empty children));
        Some (mkWalk (JsSet.delete module (visited w))
                     (removelast (currentPath w)) (longestPath w))
  end.

Definition getCriticalPath (fuel : nat) (g : ModuleGraph) : option (list string) :=
  longestPath <$>
    foldl (λ acc topModule,
             w ← acc;
             criticalDfs fuel g topModule (mkWalk (visited w) [] (longestPath w)))
          (Some (mkWalk JsSet.empty [] [])) (getTopLevelModules g).

(** [dfs] of [calculateHierarchyDepth]: the depth and the visited set. *)
Fixpoint depthDfs (fuel : nat) (g : ModuleGraph) (module : string)
    (visited : JsSet.t) : option (nat * JsSet.t) :=
  match fuel with
  | 0 => None
  | S fuel =>
      if JsSet.has module visited then Some (0, visited)
      else
        let visited := JsSet.add module visited in
        let children := JsMap.get module (edges g) in
        if noneOrEmpty children then Some (1, visited)
        else
          r ← foldl (λ acc child,
                       r ← acc;
                       d ← depthDfs fuel g child r.2;
                       Some (Nat.max r.1 d.1, d.2))
                    (Some (0, visited)) (default JsSet.empty children);
          Some (r.1 + 1, r.2)
  end.

Definition calculateHierarchyDepth (fuel : nat) (g : ModuleGraph)
    (moduleName : string) : option nat :=
  fst <$> depthDfs fuel g moduleName JsSet.empty.

Record Complexity := mkComplexity {
  instanceCount : nat;
  portCount : nat;
  connectionCount : nat;
  hierarchyDepth : nat;
}.

Definition getModuleComplexity (fuel : nat) (g : ModuleGraph) (moduleName : string)
    : option Complexity :=
  match JsMap.get moduleName (nodes g) with
  | None => Some (mkComplexity 0 0 0 0)
  | Some node =>
      let connectionCount :=
        foldl (λ sum inst, sum + length (connections inst)) 0 (node_instances node) in
      hierarchyDepth ← calculateHierarchyDepth fuel g moduleName;
      Some {| instanceCount := length (node_instances node);
              portCount := length (node_ports node);
              connectionCount := connectionCount;
              hierarchyDepth := hierarchyDepth |}
  end.

(** Every name a walk can reach: the node names and the members of the
    forward-edge sets. *)
Definition vertices (g : ModuleGraph) : list string :=
  JsMap.keys (nodes g) ++ mjoin (JsMap.values (edges g)).

(** Recursion depth that suffices for both walks. *)
Definition depthBound (g : ModuleGraph) : nat := S (length (vertices g)).

(** *** [findModulePath]

    [visited] and [path] are the two variables that the closure [dfs]
    captures; a call returns its boolean and leaves them updated. *)
Record PathSearch := mkPathSearch {
  ps_visited : JsSet.t;
  ps_path : list string;
}.

Fixpoint pathDfs (fuel : nat) (g : ModuleGraph) (target current : string)
    (st : PathSearch) : option (bool * PathSearch) :=
  match fuel with
  | 0 => None
  | S fuel =>
      if decide (current = target) then
        Some (true, mkPathSearch (ps_visited st) (ps_path st ++ [current]))
      else if JsSet.has current (ps_visited st) then Some (false, st)
      else
        let st := mkPathSearch (JsSet.add current (ps_visited st))
                               (ps_path st ++ [current]) in
        (* for (const child of children) if (dfs(child, target)) return true; *)
        match
          foldl (λ acc child,
                   match acc with
                   | Some (false, st) => pathDfs fuel g target child st
                   | _ => acc
                   end)
                (Some (false, st))
                (default JsSet.empty (JsMap.get current (edges g)))
        with
        | Some (true, st) => Some (true, st)
        | Some (false, st) =>
            (* path.pop(); return false; *)
            Some (false, mkPathSearch (ps_visited st) (removelast (ps_path st)))
        | None => None
        end
  end.

(** [findModulePath(from, to)]: [Some None] is the result [null]. *)
Definition findModulePath (fuel : nat) (g : ModuleGraph) (from to : string)
    : option (option (list string)) :=
  match pathDfs fuel g to from (mkPathSearch JsSet.empty []) with
  | Some (true, st) => Some (Some (ps_path st))
  | Some (false, _) => Some None
  | None => None
  end.

(** [getTotalEdges()] *)
Definition getTotalEdges (g : ModuleGraph) : nat :=
  foldl (λ total set, total + JsSet.size set) 0 (JsMap.values (edges g)).

End GraphBuilder.

(** ** Worked designs *)

Module Designs.
Import GraphBuilder.

(** The system of the design document: [cpu_core] instantiates [alu] as
    [u_alu] and reads its [result]. *)
Definition alu : ModuleInfo :=
  mkModule "alu" "/rtl/alu.v" 0 20
    [mkPort "a" "input" "wire"; mkPort "b" "input" "wire";
     mkPort "result" "output" "wire"].

Definition cpu_core : ModuleInfo := mkModule "cpu_core" "/rtl/cpu_core.v" 0 40 [].

Definition u_alu : InstanceInfo :=
  mkInstance "u_alu" "alu"
    [mkConnection "result" "alu_result" Output; mkConnection "a" "op_a" Input]
    "/rtl/cpu_core.v" 12.

(** [u_cpu] drives [data_out] from its output port [cpu_data_out];
    [u_cache] receives it at its input port [cpu_data_in]. *)
Definition soc : ModuleInfo := mkModule "soc" "/rtl/soc.v" 0 60 [].
Definition cpu : ModuleInfo :=
  mkModule "cpu" "/rtl/cpu.v" 0 30 [mkPort "cpu_data_out" "output" "wire"].
Definition cache : ModuleInfo :=
  mkModule "cache" "/rtl/cache.v" 0 30 [mkPort "cpu_data_in" "input" "wire"].

Definition u_cpu : InstanceInfo :=
  mkInstance "u_cpu" "cpu" [mkConnection "cpu_data_out" "data_out" Output]
    "/rtl/soc.v" 10.
Definition u_cache : InstanceInfo :=
  mkInstance "u_cache" "cache" [mkConnection "cpu_data_in" "data_out" Input]
    "/rtl/soc.v" 20.

(** Two flip-flops of the same type clocked by the same signal. *)
Definition top : ModuleInfo := mkModule "top" "/rtl/top.v" 0 30 [].
Definition dff : ModuleInfo :=
  mkModule "dff" "/rtl/dff.v" 0 10 [mkPort "clk" "input" "wire"].
Definition u_ff (name : string) (line : nat) : InstanceInfo :=
  mkInstance name "dff" [mkConnection "clk" "clk" Input] "/rtl/top.v" line.

(** Malformed input: [ping] instantiates [pong] and [pong] instantiates
    [ping]; [board] instantiates [ping]. *)
Definition board : ModuleInfo := mkModule "board" "/rtl/board.v" 0 10 [].
Definition ping : ModuleInfo := mkModule "ping" "/rtl/ping.v" 0 10 [].
Definition pong : ModuleInfo := mkModule "pong" "/rtl/pong.v" 0 10 [].
Definition u_ping : InstanceInfo := mkInstance "u_ping" "ping" [] "/rtl/board.v" 3.
Definition u_pong : InstanceInfo := mkInstance "u_pong" "pong" [] "/rtl/ping.v" 3.
Definition u_back : InstanceInfo := mkInstance "u_back" "ping" [] "/rtl/pong.v" 3.
End Designs.

(** ** A concrete platform for worked examples

    POSIX behaviour of the [path] functions on paths that are already
    normalised (no [.], [..], doubled or trailing separators), with a fixed
    working directory, and the values of [regex.exec] on the file contents
    that the examples use. *)

Module Platform.
Import SymbolIndexer.

Fixpoint lastSegment (acc s : string) : string :=
  match s with
  | EmptyString => acc
  | String c s' =>
      if decide (c = "/"%char) then lastSegment "" s'
      else lastSegment (acc +:+ String c "") s'
  end.

(** [path.basename(p)] *)
Definition basename (p : string) : string := lastSegment "" p.

(** [path.dirname(p)] *)
Definition dirname (p : string) : string :=
  let n := String.length p - String.length (basename p) in
  if decide (n = 0) then "." else
  if decide (n = 1) then "/" else substring 0 (n - 1) p.

(** [path.resolve(p)] when the process runs in [cwd]. *)
Definition resolve (cwd p : string) : string :=
  match p with
  | String "/" _ => p
  | _ => cwd +:+ "/" +:+ p
  end.

(** In a file that consists of the single line [module foo] (or
    [module bar]) only the module pattern matches, at index 0; the
    instance pattern needs an opening parenthesis after the second word. *)
Definition regexMatches (p : Pattern) (content : string) : list (string * nat) :=
  match p with
  | PModule =>
      if decide (content = "module foo") then [("foo", 0)]
      else if decide (content = "module bar") then [("bar", 0)]
      else []
  | _ => []
  end.

(** No file on disk: [fs.readFileSync] throws. *)
Definition readFileSync (_ : string) : option string := None.

(** [a.localeCompare(b)] on strings that every collation orders like
    their code units (lower-case letters, digits, [/], [.], [_]). *)
Definition localeCompare (a b : string) : Z :=
  match String.compare a b with
  | Lt => (-1)%Z
  | Eq => 0%Z
  | Gt => 1%Z
  end.

Definition updateFile (cwd : string) :=
  SymbolIndexer.updateFile (resolve cwd) basename dirname regexMatches readFileSync.
End Platform.

(** ** [Array.prototype.sort]

    The sort is stable; for a comparison function that orders the elements
    consistently the result is the one stable sorted arrangement, which
    insertion from the right computes.  [cmp a b <= 0] keeps [a] before
    [b]. *)

Module JsArray.
Section Sort.
Context {A : Type}.
Variable cmp : A → A → Z.

Fixpoint insert (x : A) (l : list A) : list A :=
  match l with
  | [] => [x]
  | y :: l' =>
      if decide (cmp x y ≤ 0)%Z then x :: y :: l' else y :: insert x l'
  end.

Definition sort (l : list A) : list A := foldr insert [] l.
End Sort.
End JsArray.

(** ** SearchEngine *)

Module SearchEngine.
Import JsString.

Definition min3 (x y z : nat) : nat := Nat.min (Nat.min x y) z.

(** One pass of the inner [for (let j = 1; j <= b.length; j++)] loop:
    the state is [(prev, dp)]. *)
Definition levenshteinCell (a b : list ascii) (i : nat)
    (st : nat * list nat) (j : nat) : nat * list nat :=
  let '(prev, dp) := st in
  let cur := dp !!! j in
  let cost := if decide (a !! (i - 1) = b !! (j - 1)) then 0 else 1 in
  (cur, <[j := min3 (dp !!! j + 1) (dp !!! (j - 1) + 1) (prev + cost)]> dp).

(** One pass of the outer [for (let i = 1; i <= a.length; i++)] loop. *)
Definition levenshteinRow (a b : list ascii) (dp : list nat) (i : nat) : list nat :=
  let prev := dp !!! 0 in
  let dp := <[0 := i]> dp in
  (foldl (levenshteinCell a b i) (prev, dp) (seq 1 (length b))).2.

Definition levenshteinDistance (a b : list ascii) : nat :=
  if decide (a = []) then length b
  else if decide (b = []) then length a
  else
    (* dp[j] = j for j = 0 .. b.length *)
    let dp := seq 0 (length b + 1) in
    let dp := foldl (levenshteinRow a b) dp (seq 1 (length a)) in
    dp !!! length b.

(** [Math.floor(name.length * 0.3)].  The double nearest to 0.3 lies
    [0.2 * 2^-54] below 3/10; for every length below [2^50] the rounded
    product has the same integer part as [3 * length / 10]. *)
Definition floor_times_0_3 (len : nat) : Z := (3 * Z.of_nat len) `div` 10.

Definition calculateSymbolScore (symbol : Symbol) (query : string) : Z :=
  let name := toLowerCase (chars (sym_name symbol)) in
  let q := toLowerCase (chars query) in
  if decide (name = q) then 100
  else if startsWith name q then 90
  else if includes name q then 70
  else
    let distance := levenshteinDistance name q in
    let threshold := Z.max 1 (floor_times_0_3 (length name)) in
    if decide (Z.of_nat distance ≤ threshold)%Z
    then Z.max 1 (60 - Z.of_nat distance * 5)
    else 0%Z.

(** *** Results, text search and ordering *)

Inductive ResultType := RSymbol | RText.

Global Instance ResultType_eq_dec : EqDecision ResultType.
Proof. solve_decision. Defined.

Record SearchResult := mkResult {
  r_type : ResultType;
  r_file : string;
  r_line : Z;
  r_column : option nat;
  r_snippet : string;
  r_symbol : option Symbol;
  r_score : option Z;
}.

(** One matching line as [parseRipgrepOutput] or [parseGrepOutput] reads it
    from the output of the external tool. *)
Record TextMatch := mkTextMatch {
  tm_file : string;
  tm_line : Z;
  tm_column : option nat;
  tm_snippet : string;
}.

(** The work a search performs, recorded in order: one scoring pass over
    the symbol table, one run of the text-search tool. *)
Inductive Work :=
| ScoringPass (query : string) (symbolsScored : nat)
| TextSearch (repoPath query : string).

(** A computation that returns a value and records the work it did. *)
Definition Traced (A : Type) : Type := A * list Work.
Definition ret {A} (x : A) : Traced A := (x, []).
Definition tell (w : Work) : Traced unit := (tt, [w]).
Definition bind {A B} (c : Traced A) (k : A → Traced B) : Traced B :=
  let r := k c.1 in (r.1, c.2 ++ r.2).

Notation "'let*' x ':=' c 'in' k" := (bind c (λ x, k))
  (at level 10, x name, c at level 100, k at level 200).

(** [!value] for an optional string: absent or empty. *)
Definition falsy (value : option string) : bool :=
  match value with
  | None => true
  | Some s => bool_decide (s = "")
  end.

Section Engine.
(** [a.localeCompare(b)] *)
Variable localeCompare : string → string → Z.
(** The matches that ripgrep, or else grep, reports for an escaped query
    under [repoPath]. *)
Variable textBackend : string → string → list TextMatch.

Definition symbolResult (score : Z) (symbol : Symbol) : SearchResult :=
  {| r_type := RSymbol;
     r_file := sym_path symbol;
     r_line := Z.of_nat (sym_startLine symbol);
     r_column := None;
     r_snippet := sym_kind symbol +:+ " " +:+ sym_name symbol;
     r_symbol := Some symbol;
     r_score := Some score |}.

Definition textResult (m : TextMatch) : SearchResult :=
  {| r_type := RText;
     r_file := tm_file m;
     r_line := tm_line m;
     r_column := tm_column m;
     r_snippet := tm_snippet m;
     r_symbol := None;
     r_score := None |}.

(** Body of the loop of [searchSymbols]. *)
Definition scoreSymbol (query : string) (symbol : Symbol) : option SearchResult :=
  let score := calculateSymbolScore symbol query in
  if decide (0 < score)%Z then Some (symbolResult score symbol) else None.

Definition searchSymbols (index : SymbolIndexer.State) (query : string)
    : Traced (list SearchResult) :=
  let symbols := SymbolIndexer.listSymbols index in
  let* _ := tell (ScoringPass query (length symbols)) in
  ret (omap (scoreSymbol query) symbols).

(** [searchText]: nothing without a repository path; otherwise the
    matches of the external tool.  A failure of the tool itself (an
    exception other than "no match") is outside the model. *)
Definition searchText (repoPath query : string) : Traced (list SearchResult) :=
  if decide (repoPath = "") then ret []
  else
    let* _ := tell (TextSearch repoPath query) in
    ret (textResult <$> textBackend repoPath query).

(** The comparison function passed to [results.sort]. *)
Definition compareResults (a b : SearchResult) : Z :=
  match r_type a, r_type b with
  | RSymbol, RText => (-1)%Z
  | RText, RSymbol => 1%Z
  | _, _ =>
      match r_score a, r_score b with
      | Some sa, Some sb => (sb - sa)%Z
      | _, _ =>
          let fileCompare := localeCompare (r_file a) (r_file b) in
          if decide (fileCompare ≠ 0%Z) then fileCompare
          else (r_line a - r_line b)%Z
      end
  end.

Definition sortResults (results : list SearchResult) : list SearchResult :=
  JsArray.sort compareResults results.

(** The results of [search] before the final sort. *)
Definition collectResults (index : SymbolIndexer.State) (repoPath query : string)
    (type : option string) : Traced (list SearchResult) :=
  let* results :=
    (if falsy type || bool_decide (type = Some "symbol")
     then searchSymbols index query else ret []) in
  let* textResults :=
    (if bool_decide (length results = 0) || bool_decide (type = Some "text")
     then searchText repoPath query else ret []) in
  ret (results ++ textResults).

Definition search (index : SymbolIndexer.State) (repoPath query : string)
    (type : option string) : Traced (list SearchResult) :=
  let* results := collectResults index repoPath query type in
  ret (sortResults results).
End Engine.
End SearchEngine.

(** ** HttpServer: the search handler *)

Module HttpServer.
Import SearchEngine.

Record SearchData := mkSearchData {
  results : list SearchResult;
  count : nat;
}.

Record ApiResponse := mkResponse {
  success : bool;
  data : option SearchData;
  error : option string;
  timestamp : Z;
}.

Section Handler.
Variable localeCompare : string → string → Z.
Variable textBackend : string → string → list TextMatch.
(** [Date.now()] *)
Variable now : Z.
(** The server's symbol index and the repository path of its engine. *)
Variable index : SymbolIndexer.State.
Variable repoPath : string.

(** [handleSearch(query)]: [query] and [type] are the URL parameters of
    [GET /search], absent when the request does not carry them. *)
Definition handleSearch (query type : option string) : Traced ApiResponse :=
  if falsy query then
    ret {| success := false;
           data := None;
           error := Some "query parameter is required";
           timestamp := now |}
  else
    let* results :=
      search localeCompare textBackend index repoPath (default "" query) type in
    ret {| success := true;
           data := Some (mkSearchData results (length results));
           error := None;
           timestamp := now |}.
End Handler.

(** *** Ranking files by relevance *)

(** The per-file record kept in [fileScores]. *)
Record FileData := mkFileData {
  fd_score : Z;
  fd_matches : list SearchResult;
  fd_symbolMatches : nat;
  fd_textMatches : nat;
}.

Record RankedFile := mkRankedFile {
  rf_file : string;
  rf_score : Z;
  rf_matches : list SearchResult;
  rf_relevance : string;
}.

Definition noMatches : FileData := mkFileData 0 [] 0 0.

(** [result.score || 50] *)
Definition scoreOr50 (score : option Z) : Z :=
  match score with
  | Some s => if decide (s = 0%Z) then 50 else s
  | None => 50
  end.

(** [result.symbol?.name?.toLowerCase().includes(query.toLowerCase())] *)
Definition nameIncludes (result : SearchResult) (query : string) : bool :=
  match r_symbol result with
  | Some symbol =>
      JsString.includes (JsString.toLowerCase (JsString.chars (sym_name symbol)))
                        (JsString.toLowerCase (JsString.chars query))
  | None => false
  end.

(** Body of the loop over the search results.  The record of the file is
    updated in place, so its entry keeps its position in the map. *)
Definition rankStep (query : string) (fileScores : JsMap.t FileData)
    (result : SearchResult) : JsMap.t FileData :=
  let file := r_file result in
  let fileScores :=
    if JsMap.has file fileScores then fileScores
    else JsMap.set file noMatches fileScores in
  let fileData := default noMatches (JsMap.get file fileScores) in
  let fileData :=
    mkFileData (fd_score fileData) (fd_matches fileData ++ [result])
               (fd_symbolMatches fileData) (fd_textMatches fileData) in
  let fileData :=
    if decide (r_type result = RSymbol)
    then mkFileData (fd_score fileData + scoreOr50 (r_score result))
                    (fd_matches fileData)
                    (fd_symbolMatches fileData + 1) (fd_textMatches fileData)
    else mkFileData (fd_score fileData + 20) (fd_matches fileData)
                    (fd_symbolMatches fileData) (fd_textMatches fileData + 1) in
  let fileData :=
    if nameIncludes result query
    then mkFileData (fd_score fileData + 30) (fd_matches fileData)
                    (fd_symbolMatches fileData) (fd_textMatches fileData)
    else fileData in
  JsMap.set file fileData fileScores.

Definition determineRelevance (fileData : FileData) : string :=
  if bool_decide (0 < fd_symbolMatches fileData)
     && bool_decide (100 < fd_score fileData)%Z then "high"
  else if bool_decide (0 < fd_symbolMatches fileData)
          || bool_decide (50 < fd_score fileData)%Z then "medium"
  else if bool_decide (0 < fd_textMatches fileData) then "low"
  else "minimal".

Definition rankedFile (entry : string * FileData) : RankedFile :=
  {| rf_file := entry.1;
     rf_score := fd_score entry.2;
     rf_matches := fd_matches entry.2;
     rf_relevance := determineRelevance entry.2 |}.

Definition rankFilesByRelevance (searchResults : list SearchResult) (query : string)
    : list RankedFile :=
  let fileScores := foldl (rankStep query) JsMap.empty searchResults in
  JsArray.sort (λ a b, rf_score b - rf_score a)%Z (rankedFile <$> fileScores).
End HttpServer.

(** ** SimpleLRUCache and KVCache (the cache module) *)

Module LruCache.
Section Cache.
(** [SimpleLRUCache<string, V>]; a stored value is never [undefined]. *)
Context {V : Type}.

Record State := mkCache {
  cache : JsMap.t V;
  maxSize : Z;
  (** [Infinity] is [None]. *)
  maxAge : option Z;
  timestamps : JsMap.t Z;
}.

(** [new SimpleLRUCache({ max, ttl })]: [this.maxAge = options.ttl || Infinity]. *)
Definition create (max : Z) (ttl : option Z) : State :=
  {| cache := JsMap.empty;
     maxSize := max;
     maxAge := match ttl with
               | Some t => if decide (t = 0%Z) then None else Some t
               | None => None
               end;
     timestamps := JsMap.empty |}.

(** [this.cache.keys().next().value] and the two deletions that follow. *)
Definition evictFirst (c : State) : State :=
  match JsMap.keys (cache c) with
  | firstKey :: _ =>
      mkCache (JsMap.delete firstKey (cache c)) (maxSize c) (maxAge c)
              (JsMap.delete firstKey (timestamps c))
  | [] => c
  end.

(** [set(key, value)] when [Date.now()] reads [now]. *)
Definition set (now : Z) (key : string) (value : V) (c : State) : State :=
  let c :=
    if bool_decide (maxSize c ≤ Z.of_nat (JsMap.size (cache c)))%Z
       && negb (JsMap.has key (cache c))
    then evictFirst c else c in
  mkCache (JsMap.set key value (cache c)) (maxSize c) (maxAge c)
          (JsMap.set key now (timestamps c)).

(** [timestamp && Date.now() - timestamp > this.maxAge] *)
Definition expired (now : Z) (timestamp : option Z) (maxAge : option Z) : bool :=
  match timestamp, maxAge with
  | Some t, Some age => bool_decide (t ≠ 0%Z) && bool_decide (age < now - t)%Z
  | _, _ => false
  end.

(** [get(key)] when [Date.now()] reads [now]: the value, if any, and the
    cache afterwards. *)
Definition get (now : Z) (key : string) (c : State) : option V * State :=
  if expired now (JsMap.get key (timestamps c)) (maxAge c) then
    (None, mkCache (JsMap.delete key (cache c)) (maxSize c) (maxAge c)
                   (JsMap.delete key (timestamps c)))
  else
    match JsMap.get key (cache c) with
    | Some value =>
        (Some value,
         mkCache (JsMap.set key value (JsMap.delete key (cache c)))
                 (maxSize c) (maxAge c) (timestamps c))
    | None => (None, c)
    end.

Definition has (key : string) (c : State) : bool := JsMap.has key (cache c).

(** [delete(key)]: whether the key was present, and the cache afterwards. *)
Definition delete (key : string) (c : State) : bool * State :=
  (JsMap.has key (cache c),
   mkCache (JsMap.delete key (cache c)) (maxSize c) (maxAge c)
           (JsMap.delete key (timestamps c))).

Definition clear (c : State) : State :=
  mkCache JsMap.empty (maxSize c) (maxAge c) JsMap.empty.

Definition size (c : State) : nat := JsMap.size (cache c).
Definition calculatedSize (c : State) : nat := JsMap.size (cache c) * 1024.

(** A call on the cache, with the clock reading it sees. *)
Inductive Call :=
| CallSet (now : Z) (key : string) (value : V)
| CallGet (now : Z) (key : string)
| CallDelete (key : string)
| CallClear.

Definition call (c : State) (op : Call) : State :=
  match op with
  | CallSet now key value => set now key value c
  | CallGet now key => (get now key c).2
  | CallDelete key => (delete key c).2
  | CallClear => clear c
  end.

Definition run (ops : list Call) (c : State) : State := foldl call c ops.
End Cache.
Global Arguments State : clear implicits.
Global Arguments Call : clear implicits.
End LruCache.

Module KVCache.
Section Cache.
Context {T : Type}.
(** [JSON.stringify(data).length * 2] *)
Variable calculateSize : T → nat.

Record CacheEntry := mkEntry {
  data : T;
  timestamp : Z;
  hash : string;
  size : nat;
}.

Record State := mkKV {
  cache : LruCache.State CacheEntry;
  hitCount : nat;
  missCount : nat;
}.

(** [new KVCache({ maxSize, maxAge, maxItems })]; an option left out takes
    its default. *)
Definition create (maxAge maxItems : option Z) : State :=
  {| cache := LruCache.create (default 10000%Z maxItems)
                              (Some (default 3600000%Z maxAge));
     hitCount := 0;
     missCount := 0 |}.

(** [set(key, data, hash)]: [Date.now()] is read once for the entry and
    once more inside the LRU cache. *)
Definition set (nowEntry nowStamp : Z) (key : string) (d : T) (h : string)
    (c : State) : State :=
  let entry := {| data := d; timestamp := nowEntry; hash := h;
                  size := calculateSize d |} in
  mkKV (LruCache.set nowStamp key entry (cache c)) (hitCount c) (missCount c).

(** [expectedHash && entry.hash !== expectedHash]; an empty
    [expectedHash] counts as absent. *)
Definition mismatch (expectedHash : option string) (entry : CacheEntry) : bool :=
  match expectedHash with
  | Some expected =>
      negb (bool_decide (expected = "")) && negb (bool_decide (hash entry = expected))
  | None => false
  end.

(** [get(key, expectedHash?)] *)
Definition get (now : Z) (key : string) (expectedHash : option string)
    (c : State) : option T * State :=
  let r := LruCache.get now key (cache c) in
  match r.1 with
  | None => (None, mkKV r.2 (hitCount c) (S (missCount c)))
  | Some entry =>
      if mismatch expectedHash entry
      then (None, mkKV (LruCache.delete key r.2).2 (hitCount c) (S (missCount c)))
      else (Some (data entry), mkKV r.2 (S (hitCount c)) (missCount c))
  end.

Definition has (key : string) (c : State) : bool := LruCache.has key (cache c).

Definition delete (key : string) (c : State) : bool * State :=
  let r := LruCache.delete key (cache c) in
  (r.1, mkKV r.2 (hitCount c) (missCount c)).

Definition clear (c : State) : State := mkKV (LruCache.clear (cache c)) 0 0.

End Cache.
Global Arguments CacheEntry : clear implicits.
Global Arguments State : clear implicits.
End KVCache.

(** ** A worked cache *)

Module CacheDemo.
(** Capacity 2, time to live 100, holding [a] (stored at time 10) and
    [b] (stored at time 20). *)
Definition warm : LruCache.State nat :=
  LruCache.run [LruCache.CallSet 10 "a" 1; LruCache.CallSet 20 "b" 2]
    (LruCache.create 2 (Some 100%Z)).
End CacheDemo.

(* ================================================================== *)
(** * Part II.  Notions of the specification                           *)
(* ================================================================== *)

Module Spec.
Import JsString.

(** Levenshtein distance, by the usual recursion on the two strings. *)
Definition cost (x y : ascii) : nat := if decide (x = y) then 0 else 1.

Fixpoint lev (a b : list ascii) : nat :=
  match a with
  | [] => length b
  | x :: a' =>
      (fix lev_a (b : list ascii) : nat :=
         match b with
         | [] => length a
         | y :: b' =>
             Nat.min (Nat.min (lev a' b + 1) (lev_a b' + 1)) (lev a' b' + cost x y)
         end) b
  end.

(** Edit scripts: [edits a b n] when [a] can be turned into [b] by
    deletions, insertions and substitutions of total cost [n]. *)
Inductive edits : list ascii → list ascii → nat → Prop :=
| edits_nil : edits [] [] 0
| edits_del x a b n : edits a b n → edits (x :: a) b (S n)
| edits_ins y a b n : edits a b n → edits a (y :: b) (S n)
| edits_sub x y a b n : edits a b n → edits (x :: a) (y :: b) (n + cost x y).

(** [q] occurs in [n] as a contiguous substring. *)
Definition infix_of (q n : list ascii) : Prop := ∃ l r, n = l ++ q ++ r.

(** *** Comparison without regard to case

    Stated on the characters themselves, with the two alphabets written
    out, and not through [toLowerCase]. *)
Definition upper_letters : list ascii := chars "ABCDEFGHIJKLMNOPQRSTUVWXYZ".
Definition lower_letters : list ascii := chars "abcdefghijklmnopqrstuvwxyz".

(** A capital letter, paired with its small letter. *)
Definition case_pairs : list (ascii * ascii) := zip upper_letters lower_letters.

(** [x] and [y] are the same character, or the two cases of one letter. *)
Definition same_letter (x y : ascii) : Prop :=
  x = y ∨ (x, y) ∈ case_pairs ∨ (y, x) ∈ case_pairs.

#[global] Instance same_letter_dec x y : Decision (same_letter x y).
Proof. unfold same_letter. apply _. Defined.

(** [a] equals [b], [a] starts with [b], [a] contains [b]: each up to the
    case of letters. *)
Definition eq_nocase (a b : list ascii) : Prop := Forall2 same_letter a b.

Definition starts_nocase (a b : list ascii) : Prop :=
  ∃ p r, a = p ++ r ∧ eq_nocase p b.

Definition contains_nocase (a b : list ascii) : Prop :=
  ∃ l m r, a = l ++ m ++ r ∧ eq_nocase m b.

(** Levenshtein distance in which the two cases of a letter count as the
    same character. *)
Definition cost_nocase (x y : ascii) : nat := if decide (same_letter x y) then 0 else 1.

Fixpoint lev_nocase (a b : list ascii) : nat :=
  match a with
  | [] => length b
  | x :: a' =>
      (fix lev_a (b : list ascii) : nat :=
         match b with
         | [] => length a
         | y :: b' =>
             Nat.min (Nat.min (lev_nocase a' b + 1) (lev_a b' + 1))
                     (lev_nocase a' b' + cost_nocase x y)
         end) b
  end.

(** A string of 7-bit characters.  On these [toLowerCase] changes the
    letters A to Z and nothing else, which is what the model of
    [JsString.lower_char] does. *)
Definition ascii7 (s : string) : Prop :=
  Forall (λ c, nat_of_ascii c < 128) (chars s).

(** The ranking rule of the design document, as a relation between a
    symbol name [N], a query [Q] and a score; every comparison is
    case-insensitive. *)
Section Ranking.
Variables N Q : string.
Let n := chars N.
Let q := chars Q.
Let d := Z.of_nat (lev_nocase n q).
Let threshold := Z.max 1 ((3 * Z.of_nat (String.length N)) `div` 10).

Inductive ranking_rule : Z → Prop :=
| rank_exact : eq_nocase n q → ranking_rule 100
| rank_starts : ¬ eq_nocase n q → starts_nocase n q → ranking_rule 90
| rank_contains :
    ¬ eq_nocase n q → ¬ starts_nocase n q → contains_nocase n q → ranking_rule 70
| rank_fuzzy :
    ¬ eq_nocase n q → ¬ starts_nocase n q → ¬ contains_nocase n q →
    (d ≤ threshold)%Z → ranking_rule (Z.max 1 (60 - 5 * d))
| rank_excluded :
    ¬ eq_nocase n q → ¬ starts_nocase n q → ¬ contains_nocase n q →
    (threshold < d)%Z → ranking_rule 0.
End Ranking.
End Spec.

(** ** Notions used to state and prove the properties *)

Section LevenshteinTable.
Import Spec.
Variables a b : list ascii.

(** Distance between the first [i] characters of [a] and the first [j]
    characters of [b]: the table entry of row [i], column [j]. *)
Definition prefixDistance (i j : nat) : nat := lev (take i a) (take j b).

(** State of the inner loop of row [i] once columns [1..k] are done. *)
Definition row_inv (i k : nat) (st : nat * list nat) : Prop :=
  length st.2 = length b + 1 ∧
  st.1 = prefixDistance (i - 1) k ∧
  (∀ j, j ≤ k → st.2 !! j = Some (prefixDistance i j)) ∧
  (∀ j, k < j ≤ length b → st.2 !! j = Some (prefixDistance (i - 1) j)).

(** Contents of [dp] once rows [1..i] are done. *)
Definition table_inv (i : nat) (dp : list nat) : Prop :=
  length dp = length b + 1 ∧
  ∀ j, j ≤ length b → dp !! j = Some (prefixDistance i j).
End LevenshteinTable.

Section TableNotions.
Import SymbolIndexer.
Implicit Types (index : JsMap.t JsSet.t) (st : State) (A : list Symbol)
  (L : list string).

(** [id] is a member of the set stored under [key]. *)
Definition inIndex (key id : string) index : Prop :=
  id ∈ default JsSet.empty (JsMap.get key index).

(** The removal loop and the insertion loop of [updateFile]. *)
Definition removeAll L st : State := foldl (λ st id, removeSymbol id st) st L.
Definition addAll A st : State := foldl (λ st s, addSymbol s st) st A.

(** The symbol that a batch leaves under an id: the last one carrying it. *)
Definition lastById (y : string) A : option Symbol :=
  last (filter (λ s, sym_id s = y) A).

(** Two tables with the same content: each id leads to the same symbol, and
    each index holds the same ids under each key. *)
Definition same_table st1 st2 : Prop :=
  (∀ y, JsMap.get y (symbols st1) = JsMap.get y (symbols st2)) ∧
  (∀ k y, inIndex k y (nameIndex st1) ↔ inIndex k y (nameIndex st2)) ∧
  (∀ k y, inIndex k y (pathIndex st1) ↔ inIndex k y (pathIndex st2)).

(** One [updateFile]: drop the ids filed under [p], then add the batch [A]. *)
Definition replaceBatch (p : string) A st : State :=
  addAll A (removeAll (default JsSet.empty (JsMap.get p (pathIndex st))) st).
End TableNotions.

Section GraphNotions.
Import GraphBuilder.
Implicit Types (g : ModuleGraph) (inst : InstanceInfo) (conn : ConnectionInfo).

(** Forward and reverse edge maps mirror each other. *)
Definition symmetric_edges g : Prop :=
  ∀ A B, inIndex A B (edges g) ↔ inIndex B A (reverseEdges g).

(** The flow that the design prescribes for a connection: into the child
    for an input port, out of the child otherwise. *)
Definition flowOf (parent : string) inst conn : SignalFlow :=
  match direction conn with
  | Input =>
      mkFlow (mkEndpoint parent (signalName conn))
             (mkEndpoint (moduleType inst) (portName conn))
             (signalName conn) [parent; moduleType inst]
  | _ =>
      mkFlow (mkEndpoint (moduleType inst) (portName conn))
             (mkEndpoint parent (signalName conn))
             (signalName conn) [parent; moduleType inst]
  end.

(** The child module exists and declares the port that [conn] names. *)
Definition resolvable g inst conn : Prop :=
  ∃ child port,
    JsMap.get (moduleType inst) (nodes g) = Some child ∧
    port ∈ node_ports child ∧ port_name port = portName conn.

Global Instance resolvable_dec g inst conn : Decision (resolvable g inst conn).
Proof.
  unfold resolvable.
  destruct (JsMap.get (moduleType inst) (nodes g)) as [child|].
  - destruct (decide (Exists (λ port, port_name port = portName conn)
                             (node_ports child))) as [H|H].
    + left. apply Exists_exists in H as (port & ? & ?). by exists child, port.
    + right. intros (child' & port & [= <-] & ? & ?).
      apply H, Exists_exists. by exists port.
  - right. by intros (? & ? & ? & _).
Defined.

(** The flow list that the design prescribes for a graph: node by node,
    instance by instance, connection by connection, the flow of each
    resolvable connection and nothing for the others. *)
Definition prescribedFlows g : list SignalFlow :=
  entry ← nodes g;
  inst ← node_instances entry.2;
  conn ← connections inst;
  if decide (resolvable g inst conn) then [flowOf entry.1 inst conn] else [].

(** The flows that carry the signal [s], in the order of the flow list. *)
Definition flowsOf (s : string) (flows : list SignalFlow) : list SignalFlow :=
  filter (λ f, flow_signal f = s) flows.

(** A visited set is a repetition-free list of vertices. *)
Definition visited_ok g (vis : JsSet.t) : Prop :=
  NoDup vis ∧ ∀ x, x ∈ vis → x ∈ vertices g.
End GraphNotions.

(** A loop whose body may give up: [foldlM] in the option monad. *)
Definition loop {A B : Type} (f : A → B → option A) (a : A) (l : list B) : option A :=
  foldl (λ acc b, a ← acc; f a b) (Some a) l.

(** With the comparison function [cmp], [x] may stay before [y]. *)
Definition keeps {A : Type} (cmp : A → A → Z) (x y : A) : Prop := (cmp x y ≤ 0)%Z.

Section ResultOrders.
Import SearchEngine.
Variable localeCompare : string → string → Z.
Implicit Types (a b r : SearchResult).

(** The score of a result; results without a score count as equal. *)
Definition scoreOf r : Z := default 0%Z (r_score r).

Definition byFileThenLine a b : Prop :=
  (localeCompare (r_file a) (r_file b) < 0)%Z ∨
  (localeCompare (r_file a) (r_file b) = 0%Z ∧ (r_line a ≤ r_line b)%Z).

(** The order of the design document between a result and a later one:
    symbols before text; within a type by descending score, then file
    path, then line. *)
Definition documented_order a b : Prop :=
  match r_type a, r_type b with
  | RSymbol, RText => True
  | RText, RSymbol => False
  | _, _ =>
      (scoreOf b < scoreOf a)%Z ∨ (scoreOf a = scoreOf b ∧ byFileThenLine a b)
  end.

(** The order that [sortResults] establishes: symbols before text; symbol
    results by descending score only; text results by file path, then
    line. *)
Definition established_order a b : Prop :=
  match r_type a, r_type b with
  | RSymbol, RText => True
  | RText, RSymbol => False
  | RSymbol, RSymbol => (scoreOf b ≤ scoreOf a)%Z
  | RText, RText => byFileThenLine a b
  end.

(** What [search] collects: scored symbol results, unscored text results. *)
Definition well_formed r : Prop :=
  match r_type r with
  | RSymbol => is_Some (r_score r)
  | RText => r_score r = None
  end.

(** A symbol result with score [s]. *)
Definition scored (s : Z) r : Prop := r_type r = RSymbol ∧ r_score r = Some s.

Global Instance scored_dec s r : Decision (scored s r).
Proof. unfold scored. apply _. Defined.
End ResultOrders.

(** ** Notions for the cache *)

Section CacheNotions.
Context {V : Type}.

(** The caches that calls can produce from a fresh one. *)
Definition cacheReached (c : LruCache.State V) : Prop :=
  ∃ max ttl ops, c = LruCache.run ops (LruCache.create max ttl).

(** A time stamp [t] read at [now] is older than the cache allows. *)
Definition stale (now t : Z) (c : LruCache.State V) : Prop :=
  t ≠ 0%Z ∧ ∃ age, LruCache.maxAge c = Some age ∧ (age < now - t)%Z.

(** What the calls keep true: one entry per key, and a time stamp for
    every cached key. *)
Definition cache_ok (c : LruCache.State V) : Prop :=
  NoDup (JsMap.keys (LruCache.cache c)) ∧
  NoDup (JsMap.keys (LruCache.timestamps c)) ∧
  ∀ k, k ∈ JsMap.keys (LruCache.cache c) → k ∈ JsMap.keys (LruCache.timestamps c).

(** The number of entries is within the capacity, or is at most one when
    the capacity is smaller than one. *)
Definition within_capacity (c : LruCache.State V) : Prop :=
  (Z.of_nat (LruCache.size c) ≤ Z.max 1 (LruCache.maxSize c))%Z.
End CacheNotions.

(** ** Notions for paths in the module graph *)

Section PathNotions.
Import GraphBuilder.
Variable g : ModuleGraph.

(** The modules that [a] instantiates. *)
Definition successors (a : string) : JsSet.t :=
  default JsSet.empty (JsMap.get a (edges g)).

(** Each element instantiates the next one. *)
Fixpoint chain (l : list string) : Prop :=
  match l with
  | a :: (b :: _) as l' => b ∈ successors a ∧ chain l'
  | _ => True
  end.

(** [l] leads from [a] to [b] along forward edges. *)
Definition chain_from (a : string) (l : list string) (b : string) : Prop :=
  head l = Some a ∧ last l = Some b ∧ chain l.

(** [b] can be reached from [a] along forward edges. *)
Inductive reach : string → string → Prop :=
| reach_refl a : reach a a
| reach_step a c b : c ∈ successors a → reach c b → reach a b.

(** A visited set drawn from the names in [U], without repetition. *)
Definition visited_in (U : list string) (vis : JsSet.t) : Prop :=
  NoDup vis ∧ ∀ x, x ∈ vis → x ∈ U.
End PathNotions.

(** The loop over the children in [findModulePath]: it stops calling
    [dfs] once a call has returned [true]. *)
Definition pathScan (fuel : nat) (g : GraphBuilder.ModuleGraph) (target : string)
    (acc : option (bool * GraphBuilder.PathSearch)) (children : list string)
    : option (bool * GraphBuilder.PathSearch) :=
  foldl (λ acc child,
           match acc with
           | Some (false, st) => GraphBuilder.pathDfs fuel g target child st
           | _ => acc
           end) acc children.

Section ExploredNotion.
Import GraphBuilder.
Variable g : ModuleGraph.

(** [new] extends the visited set [old], and every module visited in
    between differs from [t] and has all the modules it instantiates in
    [new]. *)
Definition explored (t : string) (old new : JsSet.t) : Prop :=
  (∀ x, x ∈ old → x ∈ new) ∧
  (∀ v, v ∈ new → v ∉ old → v ≠ t ∧ ∀ c, c ∈ successors g v → c ∈ new).
End ExploredNotion.

Section RankingNotions.
Import SearchEngine HttpServer.
Variable query : string.
Implicit Types (results : list SearchResult) (file : string).

(** What one search result adds to the score of its file. *)
Definition contribution (result : SearchResult) : Z :=
  ((if decide (r_type result = RSymbol) then scoreOr50 (r_score result) else 20)
   + (if nameIncludes result query then 30 else 0))%Z.

Definition total (l : list Z) : Z := foldr Z.add 0%Z l.

(** The results that lie in [file], in their order. *)
Definition resultsOf file results : list SearchResult :=
  filter (λ r, r_file r = file) results.

(** The record [d] accounts for exactly the results of [file]. *)
Definition tallied results file (d : FileData) : Prop :=
  fd_matches d = resultsOf file results ∧
  fd_score d = total (contribution <$> resultsOf file results) ∧
  fd_symbolMatches d =
    length (filter (λ r, r_type r = RSymbol) (resultsOf file results)) ∧
  fd_textMatches d =
    length (filter (λ r, r_type r ≠ RSymbol) (resultsOf file results)).

(** The map [m] holds one record per file of [results], each accounting
    for the results of its file. *)
Definition tally_of results (m : JsMap.t FileData) : Prop :=
  NoDup (JsMap.keys m) ∧
  (∀ file, file ∈ JsMap.keys m ↔ file ∈ r_file <$> results) ∧
  (∀ file d, JsMap.get file m = Some d → tallied results file d).
End RankingNotions.

Section IndexNotions.
Import SymbolIndexer.
Variables resolve basename dirname : string → string.
Variable regexMatches : Pattern → string → list (string * nat).
Variable readFileSync : string → option string.

(** Every stored symbol sits under its own id and is listed under its name
    and under its path. *)
Definition filed (st : State) : Prop :=
  NoDup (JsMap.keys (symbols st)) ∧
  ∀ y s, JsMap.get y (symbols st) = Some s →
         sym_id s = y ∧
         inIndex (sym_name s) y (nameIndex st) ∧
         inIndex (sym_path s) y (pathIndex st).

(** The calls that fill the table. *)
Inductive IndexCall :=
| CallUpdateFile (filePath : string) (content : option string)
| CallFallbackIndexing (verilogFiles : list string).

Definition indexCall (st : State) (c : IndexCall) : State :=
  match c with
  | CallUpdateFile filePath content =>
      (updateFile resolve basename dirname regexMatches readFileSync
                  filePath content st).1
  | CallFallbackIndexing verilogFiles =>
      fallbackIndexing resolve basename dirname regexMatches readFileSync
                       verilogFiles st
  end.

Definition indexRun (calls : list IndexCall) (st : State) : State :=
  foldl indexCall st calls.
End IndexNotions.

Section CriticalPathNotions.
Import GraphBuilder.
Variable g : ModuleGraph.

(** A path along forward edges that starts at a top-level module. *)
Definition rooted (q : list string) : Prop :=
  chain g q ∧ ∃ top, head q = Some top ∧ top ∈ getTopLevelModules g.

(** What [getCriticalPath] may record: nothing, or a path without
    repetition from a top-level module to a module that instantiates
    nothing. *)
Definition critical_ok (p : list string) : Prop :=
  p = [] ∨
  (NoDup p ∧
   ∃ top leaf, top ∈ getTopLevelModules g ∧ chain_from g top p leaf ∧
               noneOrEmpty (JsMap.get leaf (edges g)) = true).

(** A path without repetition from [m] to a module that instantiates
    nothing. *)
Definition leafPath (m : string) (q : list string) : Prop :=
  NoDup q ∧
  ∃ leaf, chain_from g m q leaf ∧ noneOrEmpty (JsMap.get leaf (edges g)) = true.

(** The state of a walk: the current path has no repetition and lies in
    the visited set, and the longest path so far is as above. *)
Definition walk_ok (w : Walk) : Prop :=
  NoDup (currentPath w) ∧
  (∀ x, x ∈ currentPath w → x ∈ visited w) ∧
  critical_ok (longestPath w).
End CriticalPathNotions.

Section InstantiationNotions.
Import GraphBuilder.

End InstantiationNotions.

Section AttachedNotions.
Import GraphBuilder.

(** [inst] counts for a module named [n]: [findModuleByFile] finds such a
    module for the file of [inst], as the first one with that file path. *)
Definition lies_in (modules : list ModuleInfo) (n : string) (inst : InstanceInfo) : Prop :=
  mod_name <$> findModuleByFile (inst_file inst) modules = Some n.

Global Instance lies_in_dec modules n inst : Decision (lies_in modules n inst).
Proof. unfold lies_in. apply _. Defined.

End AttachedNotions.

Section DescentNotions.
Import GraphBuilder.
Variable g : ModuleGraph.

(** A path along forward edges that starts at [m], repeats no module, and
    runs through modules of [new] that are not in [old]. *)
Definition descent (m : string) (old new : JsSet.t) (q : list string) : Prop :=
  head q = Some m ∧ chain g q ∧ NoDup q ∧ ∀ x, x ∈ q → x ∈ new ∧ x ∉ old.
End DescentNotions.

(* ================================================================== *)
(** * Part III.  Properties                                            *)
(* ================================================================== *)

(** ** Facts about [JsMap] and [JsSet] *)

Section JsContainers.
Context {V : Type}.
Implicit Types (m : JsMap.t V) (k : string) (v : V) (s : JsSet.t).

Lemma JsMap_get_set m k v k' :
  JsMap.get k' (JsMap.set k v m) = if decide (k = k') then Some v else JsMap.get k' m.
Proof.
  induction m as [|[k0 v0] m IH]; simpl.
  - repeat case_decide; congruence.
  - destruct (decide (k0 = k)) as [->|Hne]; simpl.
    + repeat case_decide; congruence.
    + rewrite IH. repeat case_decide; congruence.
Qed.

Lemma JsMap_get_set_eq m k v : JsMap.get k (JsMap.set k v m) = Some v.
Proof. rewrite JsMap_get_set. by rewrite decide_True. Qed.

Lemma JsMap_get_set_ne m k v k' :
  k ≠ k' → JsMap.get k' (JsMap.set k v m) = JsMap.get k' m.
Proof. intros. rewrite JsMap_get_set. by rewrite decide_False. Qed.

Lemma JsMap_get_delete m k k' :
  JsMap.get k' (JsMap.delete k m) = if decide (k = k') then None else JsMap.get k' m.
Proof.
  unfold JsMap.delete.
  induction m as [|[k0 v0] m IH].
  - simpl. by case_decide.
  - rewrite filter_cons. simpl.
    destruct (decide (k0 ≠ k)) as [Hne|Heq]; simpl.
    + rewrite IH. repeat case_decide; congruence.
    + apply dec_stable in Heq. subst k0. rewrite IH.
      repeat case_decide; congruence.
Qed.

Lemma JsMap_has_get m k : JsMap.has k m = true ↔ is_Some (JsMap.get k m).
Proof.
  unfold JsMap.has. destruct (JsMap.get k m); split; intros H; try done.
Qed.

Lemma JsMap_get_Some_elem m k v : JsMap.get k m = Some v → (k, v) ∈ m.
Proof.
  induction m as [|[k0 v0] m IH]; simpl; [done|].
  case_decide; intros ?; simplify_eq; [left | right; auto].
Qed.

Lemma JsMap_elem_get m k v : (k, v) ∈ m → is_Some (JsMap.get k m).
Proof.
  induction m as [|[k0 v0] m IH]; simpl.
  - by intros ?%elem_of_nil.
  - intros [?|?]%elem_of_cons; simplify_eq.
    + rewrite decide_True; eauto.
    + case_decide; eauto.
Qed.

Lemma JsSet_has_true x s : JsSet.has x s = true ↔ x ∈ s.
Proof. unfold JsSet.has. apply bool_decide_eq_true. Qed.

Lemma JsSet_elem_add x y s : y ∈ JsSet.add x s ↔ y = x ∨ y ∈ s.
Proof.
  unfold JsSet.add, JsSet.has. case_bool_decide.
  - split; [by right|]. by intros [->|?].
  - rewrite elem_of_app, list_elem_of_singleton. tauto.
Qed.

Lemma JsSet_elem_delete x y s : y ∈ JsSet.delete x s ↔ y ≠ x ∧ y ∈ s.
Proof. unfold JsSet.delete. by rewrite list_elem_of_filter. Qed.

Lemma JsSet_NoDup_add x s : NoDup s → NoDup (JsSet.add x s).
Proof.
  unfold JsSet.add, JsSet.has. intros Hs. case_bool_decide; [done|].
  apply NoDup_app. split_and!; [done| |apply NoDup_singleton].
  intros y Hy ->%list_elem_of_singleton. done.
Qed.

Lemma JsSet_NoDup_delete x s : NoDup s → NoDup (JsSet.delete x s).
Proof. apply NoDup_filter. Qed.
End JsContainers.

(** ** String predicates *)

Section StringFacts.
Import JsString Spec.
Implicit Types (a b n q : list ascii).

Lemma chars_length (s : string) : length (chars s) = String.length s.
Proof. induction s; simpl; congruence. Qed.

Lemma toLowerCase_length a : length (toLowerCase a) = length a.
Proof. apply length_fmap. Qed.

Lemma startsWith_prefix n q : startsWith n q = true ↔ q `prefix_of` n.
Proof.
  revert n. induction q as [|c q IH]; intros [|d n]; simpl.
  - split; [intros _; apply prefix_nil | done].
  - split; [intros _; apply prefix_nil | done].
  - split; [done | intros H%prefix_nil_not; done].
  - rewrite andb_true_iff, bool_decide_eq_true, IH. split.
    + intros [-> ?]. by apply prefix_cons.
    + intros H. split; [by apply prefix_cons_inv_1 in H | by apply prefix_cons_inv_2 in H].
Qed.

Lemma includes_infix n q : includes n q = true ↔ infix_of q n.
Proof.
  induction n as [|d n IH].
  all: change (includes ?m q) with
    (startsWith m q || match m with [] => false | _ :: m' => includes m' q end).
  all: rewrite orb_true_iff, startsWith_prefix.
  - split.
    + intros [[k Hk]|?]; [|done]. exists [], k. done.
    + intros (l & r & H). left.
      symmetry in H. apply app_eq_nil in H as [-> [-> ->]%app_eq_nil].
      done.
  - rewrite IH. split.
    + intros [[k Hk]|(l & r & ->)].
      * exists [], k. done.
      * exists (d :: l), r. done.
    + intros (l & r & H). destruct l as [|d' l]; simpl in H.
      * left. exists r. done.
      * right. simplify_eq. by exists l, r.
Qed.
End StringFacts.

(** ** Levenshtein distance: the recursion, edit scripts, and the row
       algorithm of [SearchEngine.levenshteinDistance] *)

Section Levenshtein.
Import Spec SearchEngine.
Implicit Types (a b : list ascii) (x y : ascii).

Lemma lev_nil_r a : lev a [] = length a.
Proof. by destruct a. Qed.

Lemma lev_cons_cons x y a b :
  lev (x :: a) (y :: b) =
  min3 (lev a (y :: b) + 1) (lev (x :: a) b + 1) (lev a b + cost x y).
Proof. reflexivity. Qed.

Lemma cost_le_1 x y : cost x y ≤ 1.
Proof. unfold cost. case_decide; lia. Qed.

(** The recursion yields the cost of some edit script ... *)
Lemma lev_edits a b : edits a b (lev a b).
Proof.
  revert b. induction a as [|x a IHa]; intros b.
  - induction b as [|y b IHb]; simpl; [constructor|].
    by apply edits_ins.
  - induction b as [|y b IHb].
    + rewrite lev_nil_r. simpl. apply edits_del.
      specialize (IHa []). by rewrite lev_nil_r in IHa.
    + rewrite lev_cons_cons. unfold min3.
      pose proof (IHa (y :: b)) as H1. pose proof (IHa b) as H3.
      apply (edits_del x) in H1. apply (edits_ins y) in IHb.
      apply (edits_sub x y) in H3.
      replace (S (lev a (y :: b))) with (lev a (y :: b) + 1) in H1 by lia.
      replace (S (lev (x :: a) b)) with (lev (x :: a) b + 1) in IHb by lia.
      destruct (Nat.min_spec (lev a (y :: b) + 1) (lev (x :: a) b + 1)) as [[_ ->]|[_ ->]];
        match goal with
        | |- edits _ _ (?u `min` ?v) =>
            destruct (Nat.min_spec u v) as [[_ ->]|[_ ->]]
        end; assumption.
Qed.

Lemma lev_del_le x a b : lev (x :: a) b ≤ S (lev a b).
Proof.
  destruct b as [|y b].
  - rewrite !lev_nil_r. simpl. lia.
  - rewrite lev_cons_cons. unfold min3. lia.
Qed.

Lemma lev_ins_le y a b : lev a (y :: b) ≤ S (lev a b).
Proof.
  destruct a as [|x a].
  - simpl. lia.
  - rewrite lev_cons_cons. unfold min3. lia.
Qed.

(** ... and no edit script is cheaper. *)
Lemma edits_lev a b n : edits a b n → lev a b ≤ n.
Proof.
  induction 1 as [|x a b n _ IH|y a b n _ IH|x y a b n _ IH].
  - done.
  - pose proof (lev_del_le x a b). lia.
  - pose proof (lev_ins_le y a b). lia.
  - rewrite lev_cons_cons. unfold min3. lia.
Qed.

(** Edit scripts can be extended at the right end as well. *)
Lemma edits_del_r x a b n : edits a b n → edits (a ++ [x]) b (S n).
Proof.
  induction 1; simpl.
  - apply edits_del. constructor.
  - by apply edits_del.
  - by apply edits_ins.
  - by apply (edits_sub _ _ _ _ (S _)).
Qed.

Lemma edits_ins_r y a b n : edits a b n → edits a (b ++ [y]) (S n).
Proof.
  induction 1; simpl.
  - apply edits_ins. constructor.
  - by apply edits_del.
  - by apply edits_ins.
  - by apply (edits_sub _ _ _ _ (S _)).
Qed.

Lemma edits_sub_r x y a b n :
  edits a b n → edits (a ++ [x]) (b ++ [y]) (n + cost x y).
Proof.
  induction 1 as [|x' a b n _ IH|y' a b n _ IH|x' y' a b n _ IH]; simpl.
  - apply (edits_sub _ _ _ _ 0). constructor.
  - by apply (edits_del x') in IH.
  - by apply (edits_ins y') in IH.
  - apply (edits_sub x' y') in IH.
    by replace (n + cost x' y' + cost x y) with (n + cost x y + cost x' y') by lia.
Qed.

Lemma edits_reverse a b n : edits a b n → edits (reverse a) (reverse b) n.
Proof.
  induction 1; rewrite ?reverse_cons.
  - constructor.
  - by apply edits_del_r.
  - by apply edits_ins_r.
  - by apply edits_sub_r.
Qed.

Lemma lev_reverse a b : lev (reverse a) (reverse b) = lev a b.
Proof.
  apply Nat.le_antisymm.
  - apply edits_lev, edits_reverse, lev_edits.
  - rewrite <-(reverse_involutive a), <-(reverse_involutive b) at 1.
    apply edits_lev, edits_reverse, lev_edits.
Qed.

(** The recurrence read from the right end, as the rows compute it. *)
Lemma lev_snoc_snoc x y a b :
  lev (a ++ [x]) (b ++ [y]) =
  min3 (lev a (b ++ [y]) + 1) (lev (a ++ [x]) b + 1) (lev a b + cost x y).
Proof.
  rewrite <-(lev_reverse (a ++ [x]) (b ++ [y])), !reverse_snoc, lev_cons_cons.
  rewrite <-(lev_reverse a (b ++ [y])), <-(lev_reverse (a ++ [x]) b),
    <-(lev_reverse a b), !reverse_snoc.
  done.
Qed.
End Levenshtein.

Section LevenshteinRows.
Import Spec SearchEngine.
Variables a b : list ascii.

Local Abbreviation L := (prefixDistance a b).

Lemma L_0_j j : j ≤ length b → L 0 j = j.
Proof. intros. unfold prefixDistance. simpl. rewrite length_take. lia. Qed.

Lemma L_i_0 i : i ≤ length a → L i 0 = i.
Proof. intros. unfold prefixDistance. rewrite take_0, lev_nil_r, length_take. lia. Qed.

Lemma L_S_S i j x y :
  a !! i = Some x → b !! j = Some y →
  L (S i) (S j) = min3 (L i (S j) + 1) (L (S i) j + 1) (L i j + cost x y).
Proof.
  intros Ha Hb. unfold prefixDistance.
  rewrite (take_S_r a i x Ha), (take_S_r b j y Hb).
  apply lev_snoc_snoc.
Qed.

Lemma levenshteinCell_inv i k st :
  1 ≤ i ≤ length a → k < length b →
  row_inv a b i k st → row_inv a b i (S k) (levenshteinCell a b i st (S k)).
Proof.
  intros Hi Hk (Hlen & Hprev & Hdone & Htodo). destruct st as [prev dp].
  cbn [fst snd] in *. unfold levenshteinCell.
  destruct (lookup_lt_is_Some_2 a (i - 1)) as [x Hx]; [lia|].
  destruct (lookup_lt_is_Some_2 b k) as [y Hy]; [lia|].
  assert (dp !!! S k = L (i - 1) (S k)) as Hcur.
  { apply list_lookup_total_correct, Htodo. lia. }
  assert (dp !!! k = L i k) as Hleft.
  { apply list_lookup_total_correct, Hdone. lia. }
  assert (min3 (dp !!! S k + 1) (dp !!! (S k - 1) + 1)
            (prev + (if decide (a !! (i - 1) = b !! (S k - 1)) then 0 else 1))
          = L i (S k)) as Hnew.
  { replace (S k - 1) with k by lia.
    rewrite Hcur, Hleft, Hprev, Hx, Hy.
    replace i with (S (i - 1)) at 2 4 by lia.
    rewrite (L_S_S (i - 1) k x y Hx Hy).
    replace (S (i - 1)) with i by lia.
    unfold cost. repeat case_decide; congruence. }
  rewrite Hnew. split_and!; cbn [fst snd].
  - by rewrite length_insert.
  - done.
  - intros j Hj. destruct (decide (j = S k)) as [->|Hne].
    + apply list_lookup_insert_eq. lia.
    + rewrite list_lookup_insert_ne by done. apply Hdone. lia.
  - intros j Hj. rewrite list_lookup_insert_ne by lia. apply Htodo. lia.
Qed.

Lemma levenshteinCells_inv i k st :
  1 ≤ i ≤ length a → k ≤ length b →
  row_inv a b i 0 st → row_inv a b i k (foldl (levenshteinCell a b i) st (seq 1 k)).
Proof.
  intros Hi Hk H0. induction k as [|k IH]; [done|].
  rewrite seq_S, foldl_app. simpl.
  apply levenshteinCell_inv; [done|lia|]. apply IH. lia.
Qed.

Lemma levenshteinRow_inv i dp :
  1 ≤ i ≤ length a →
  table_inv a b (i - 1) dp → table_inv a b i (levenshteinRow a b dp i).
Proof.
  intros Hi [Hlen Hdp]. unfold levenshteinRow.
  pose proof (levenshteinCells_inv i (length b) (dp !!! 0, <[0:=i]> dp) Hi
                (Nat.le_refl _)) as H.
  destruct H as (Hlen' & _ & Hdone & _).
  - split_and!; simpl.
    + by rewrite length_insert.
    + apply list_lookup_total_correct, Hdp. lia.
    + intros j Hj. replace j with 0 by lia.
      rewrite list_lookup_insert_eq by lia.
      by rewrite L_i_0 by lia.
    + intros j Hj. rewrite list_lookup_insert_ne by lia. apply Hdp. lia.
  - by split.
Qed.

Lemma levenshteinRows_inv k :
  k ≤ length a →
  table_inv a b k (foldl (levenshteinRow a b) (seq 0 (length b + 1)) (seq 1 k)).
Proof.
  induction k as [|k IH]; intros Hk.
  - simpl. split; [by rewrite length_seq|].
    intros j Hj. rewrite lookup_seq_lt by lia. by rewrite L_0_j.
  - rewrite seq_S, foldl_app. simpl.
    apply levenshteinRow_inv; [lia|].
    replace (S k - 1) with k by lia. apply IH. lia.
Qed.

(** The row algorithm computes the Levenshtein distance. *)
Lemma levenshteinDistance_lev : levenshteinDistance a b = lev a b.
Proof.
  unfold levenshteinDistance.
  destruct (decide (a = [])) as [->|_]; [done|].
  destruct (decide (b = [])) as [->|_]; [by rewrite lev_nil_r|].
  destruct (levenshteinRows_inv (length a) (Nat.le_refl _)) as [_ H].
  rewrite (list_lookup_total_correct _ _ _ (H (length b) (Nat.le_refl _))).
  unfold prefixDistance. by rewrite !firstn_all.
Qed.
End LevenshteinRows.

(** ** Ranking rule *)

Section CaseFolding.
Import JsString Spec.
Implicit Types (x y : ascii) (a b n q : list ascii).

(** A decidable property of characters holds of all of them when it holds
    of the 256 codes. *)
Lemma ascii_all (P : ascii → Prop) `{!∀ x, Decision (P x)} :
  forallb (λ k, bool_decide (P (ascii_of_nat k))) (seq 0 256) = true → ∀ x, P x.
Proof.
  intros Hall x. rewrite <-(ascii_nat_embedding x).
  rewrite forallb_forall in Hall.
  apply (bool_decide_eq_true_1 (P _)), Hall, in_seq.
  pose proof (nat_ascii_bounded x). lia.
Qed.

(** [lower_char] leaves a character alone or takes a capital letter to
    its small letter. *)
Lemma lower_char_case x : lower_char x = x ∨ (x, lower_char x) ∈ case_pairs.
Proof.
  revert x.
  apply (ascii_all (λ x, lower_char x = x ∨ (x, lower_char x) ∈ case_pairs)).
  by vm_compute.
Qed.

Lemma case_pairs_lower (p : ascii * ascii) :
  p ∈ case_pairs → lower_char p.1 = p.2 ∧ lower_char p.2 = p.2.
Proof.
  assert (Forall (λ p : ascii * ascii, lower_char p.1 = p.2 ∧ lower_char p.2 = p.2)
                 case_pairs) as H
    by (apply (bool_decide_unpack _); by vm_compute).
  rewrite Forall_forall in H. apply H.
Qed.

Lemma case_pairs_inj (p p' : ascii * ascii) :
  p ∈ case_pairs → p' ∈ case_pairs → p.2 = p'.2 → p.1 = p'.1.
Proof.
  assert (Forall (λ p : ascii * ascii,
                    Forall (λ p' : ascii * ascii, p.2 = p'.2 → p.1 = p'.1) case_pairs)
                 case_pairs) as H
    by (apply (bool_decide_unpack _); by vm_compute).
  intros Hp Hp'. rewrite Forall_forall in H. specialize (H p Hp).
  rewrite Forall_forall in H. by apply H.
Qed.

(** Two characters have the same lower-case form exactly when they are
    the same letter. *)
Lemma lower_char_same x y : lower_char x = lower_char y ↔ same_letter x y.
Proof.
  split.
  - intros Heq. unfold same_letter.
    destruct (lower_char_case x) as [Hx|Hx], (lower_char_case y) as [Hy|Hy].
    + left. congruence.
    + right. right. by rewrite <-Hx, Heq.
    + right. left. by rewrite <-Hy, <-Heq.
    + left. rewrite Heq in Hx. by apply (case_pairs_inj _ _ Hx Hy).
  - intros [->|[Hp|Hp]]; [done|..];
      by destruct (case_pairs_lower _ Hp) as [H1 H2]; simpl in *; rewrite H1, H2.
Qed.

Lemma toLowerCase_eq a b : toLowerCase a = toLowerCase b ↔ eq_nocase a b.
Proof.
  unfold toLowerCase, eq_nocase. revert b.
  induction a as [|x a IH]; intros [|y b]; rewrite ?fmap_cons.
  - split; [constructor|done].
  - split; [done|]. intros H. by apply Forall2_nil_cons_inv in H.
  - split; [done|]. intros H. by apply Forall2_cons_nil_inv in H.
  - rewrite Forall2_cons, <-IH, <-lower_char_same. split.
    + by intros [= -> ->].
    + by intros [-> ->].
Qed.

Lemma toLowerCase_prefix n q :
  toLowerCase q `prefix_of` toLowerCase n ↔ starts_nocase n q.
Proof.
  unfold starts_nocase. split.
  - intros [k Hk]. unfold toLowerCase in Hk.
    apply fmap_app_inv in Hk as (p & r & Hp & _ & ->).
    exists p, r. split; [done|]. by apply toLowerCase_eq.
  - intros (p & r & -> & Hp%toLowerCase_eq).
    exists (toLowerCase r). unfold toLowerCase in *. by rewrite fmap_app, Hp.
Qed.

Lemma toLowerCase_infix n q :
  infix_of (toLowerCase q) (toLowerCase n) ↔ contains_nocase n q.
Proof.
  unfold infix_of, contains_nocase. split.
  - intros (l & r & H). unfold toLowerCase in H.
    apply fmap_app_inv in H as (l' & mr & _ & Hmr & ->).
    symmetry in Hmr. apply fmap_app_inv in Hmr as (m & r' & Hm & _ & ->).
    exists l', m, r'. split; [done|]. by apply toLowerCase_eq.
  - intros (l & m & r & -> & Hm%toLowerCase_eq).
    exists (toLowerCase l), (toLowerCase r). unfold toLowerCase in *.
    by rewrite !fmap_app, Hm.
Qed.

Lemma cost_lower x y : cost (lower_char x) (lower_char y) = cost_nocase x y.
Proof.
  unfold cost, cost_nocase.
  destruct (decide (same_letter x y)) as [H|H]; rewrite <-lower_char_same in H.
  - by rewrite decide_True.
  - by rewrite decide_False.
Qed.

Lemma lev_lower a b : lev (toLowerCase a) (toLowerCase b) = lev_nocase a b.
Proof.
  unfold toLowerCase. revert b. induction a as [|x a IHa]; intros b.
  - simpl. apply length_fmap.
  - induction b as [|y b IHb].
    + rewrite fmap_nil, lev_nil_r. simpl. by rewrite length_fmap.
    + rewrite !fmap_cons, lev_cons_cons.
      change (lev_nocase (x :: a) (y :: b)) with
        (Nat.min (Nat.min (lev_nocase a (y :: b) + 1) (lev_nocase (x :: a) b + 1))
                 (lev_nocase a b + cost_nocase x y)).
      rewrite <-IHb, <-!IHa, <-cost_lower. by rewrite !fmap_cons.
Qed.
End CaseFolding.

Section RankingRule.
Import JsString Spec SearchEngine.

Lemma ranking_rule_functional N Q s1 s2 :
  ranking_rule N Q s1 → ranking_rule N Q s2 → s1 = s2.
Proof.
  destruct 1; destruct 1; try reflexivity; try contradiction; exfalso;
    eapply Z.lt_irrefl, Z.le_lt_trans; eassumption.
Qed.

Lemma calculateSymbolScore_rule symbol Q :
  ranking_rule (sym_name symbol) Q (calculateSymbolScore symbol Q).
Proof.
  unfold calculateSymbolScore.
  set (n := toLowerCase (chars (sym_name symbol))).
  set (q := toLowerCase (chars Q)).
  destruct (decide (n = q)) as [Heq|Hne].
  { apply rank_exact. by apply toLowerCase_eq. }
  assert (¬ eq_nocase (chars (sym_name symbol)) (chars Q)) as Hne'.
  { by rewrite <-toLowerCase_eq. }
  destruct (startsWith n q) eqn:Hp.
  { apply rank_starts; [done|]. by apply toLowerCase_prefix, startsWith_prefix. }
  assert (¬ starts_nocase (chars (sym_name symbol)) (chars Q)) as Hnp.
  { rewrite <-toLowerCase_prefix, <-startsWith_prefix. fold n q. congruence. }
  destruct (includes n q) eqn:Hi.
  { apply rank_contains; [done..|]. by apply toLowerCase_infix, includes_infix. }
  assert (¬ contains_nocase (chars (sym_name symbol)) (chars Q)) as Hni.
  { rewrite <-toLowerCase_infix, <-includes_infix. fold n q. congruence. }
  rewrite levenshteinDistance_lev. unfold floor_times_0_3.
  subst n q. rewrite lev_lower, toLowerCase_length, chars_length, (Z.mul_comm _ 5).
  case_decide.
  - by apply rank_fuzzy.
  - apply rank_excluded; [done..|]. lia.
Qed.

(** C1.  For every symbol name [N] and query [Q] of 7-bit characters,
    [calculateSymbolScore] returns exactly the score of the ranking rule,
    in which every comparison disregards the case of letters: 100 when the
    two are equal; else 90 when [N] starts with [Q]; else 70 when [N]
    contains [Q]; else, with [d] the Levenshtein distance and
    [threshold = max 1 (floor (0.3 * len N))], the score [max 1 (60 - 5 d)]
    when [d <= threshold] and 0 otherwise.  For the query "alu": a symbol
    named "alu" scores 100, "alu_ctrl" scores 90, and "zlu" scores no more
    than "alu_ctrl"; and so do "ALU", "Alu_Ctrl" and "ZLU", also for the
    query "aLu". *)
Theorem C1_symbol_score_follows_ranking_rule :
  (∀ (symbol : Symbol) (Q : string) (s : Z),
      ascii7 (sym_name symbol) → ascii7 Q →
      (calculateSymbolScore symbol Q = s ↔ ranking_rule (sym_name symbol) Q s)) ∧
  (∀ s : Symbol,
      calculateSymbolScore (symbol_named "alu" s) "alu" = 100%Z ∧
      calculateSymbolScore (symbol_named "alu_ctrl" s) "alu" = 90%Z ∧
      (calculateSymbolScore (symbol_named "zlu" s) "alu"
       ≤ calculateSymbolScore (symbol_named "alu_ctrl" s) "alu")%Z) ∧
  (∀ s : Symbol,
      calculateSymbolScore (symbol_named "ALU" s) "alu" = 100%Z ∧
      calculateSymbolScore (symbol_named "alu" s) "aLu" = 100%Z ∧
      calculateSymbolScore (symbol_named "Alu_Ctrl" s) "aLu" = 90%Z ∧
      calculateSymbolScore (symbol_named "cpu_ALU" s) "Alu" = 70%Z ∧
      calculateSymbolScore (symbol_named "ZLU" s) "alu" = 55%Z).
Proof.
  split_and!.
  - intros symbol Q s _ _. split.
    + intros <-. apply calculateSymbolScore_rule.
    + intros H. eapply ranking_rule_functional; [|exact H].
      apply calculateSymbolScore_rule.
  - intros s. split_and!; by vm_compute.
  - intros s. split_and!; by vm_compute.
Qed.
End RankingRule.

(** The name "Alu_Ctrl" starts with the query "aLu" when case is
    disregarded, and is not equal to it: the rule gives 90. *)
Lemma C1_symbol_score_follows_ranking_rule_witness :
  Spec.ascii7 "Alu_Ctrl" ∧ Spec.ascii7 "aLu" ∧
  Spec.ranking_rule "Alu_Ctrl" "aLu" 90.
Proof.
  assert (Spec.ascii7 "Alu_Ctrl") as H1
    by (apply (bool_decide_unpack _); by vm_compute).
  assert (Spec.ascii7 "aLu") as H2
    by (apply (bool_decide_unpack _); by vm_compute).
  split_and!; [done..|].
  apply (proj1 C1_symbol_score_follows_ranking_rule
           (symbol_named "Alu_Ctrl" (mkSymbol "" "" "" "" "" 0 0 "" "")) "aLu" 90%Z
           H1 H2).
  by vm_compute.
Defined.

(** ** The symbol table, read through its three maps *)

Section IndexView.
Import SymbolIndexer.
Implicit Types (index : JsMap.t JsSet.t) (st : State) (s : Symbol).

Lemma inIndex_indexAdd key id index k y :
  inIndex k y (indexAdd key id index) ↔ inIndex k y index ∨ (k = key ∧ y = id).
Proof.
  unfold inIndex, indexAdd. rewrite JsMap_get_set.
  destruct (decide (key = k)) as [->|Hne]; simpl.
  - rewrite JsSet_elem_add. unfold JsMap.has.
    destruct (JsMap.get k index) as [set|] eqn:Hget; simpl.
    + rewrite Hget. simpl. tauto.
    + rewrite JsMap_get_set_eq. simpl. unfold JsSet.empty.
      rewrite elem_of_nil. tauto.
  - destruct (JsMap.has key index).
    + split; [tauto|]. intros [?|[? ?]]; [done|congruence].
    + rewrite JsMap_get_set_ne by done.
      split; [tauto|]. intros [?|[? ?]]; [done|congruence].
Qed.

Lemma JsSet_delete_empty x (set : JsSet.t) y :
  JsSet.size (JsSet.delete x set) = 0 → y ∈ set → y = x.
Proof.
  unfold JsSet.size. intros Hlen%length_zero_iff_nil Hy.
  destruct (decide (y = x)) as [|Hne]; [done|].
  assert (y ∈ JsSet.delete x set) as H by by apply JsSet_elem_delete.
  rewrite Hlen in H. by apply elem_of_nil in H.
Qed.

Lemma inIndex_indexRemove key id index k y :
  inIndex k y (indexRemove key id index) ↔ inIndex k y index ∧ ¬ (k = key ∧ y = id).
Proof.
  unfold inIndex, indexRemove.
  destruct (JsMap.get key index) as [set|] eqn:Hget.
  - case_decide as Hsize.
    + rewrite JsMap_get_delete.
      destruct (decide (key = k)) as [->|Hne]; simpl.
      * rewrite Hget. simpl. unfold JsSet.empty. rewrite elem_of_nil.
        split; [done|]. intros [Hy Hn]. apply Hn. split; [done|].
        by eapply JsSet_delete_empty.
      * split; [|tauto]. intros ?. split; [done|]. intros [? ?]. congruence.
    + rewrite JsMap_get_set.
      destruct (decide (key = k)) as [->|Hne]; simpl.
      * rewrite Hget. simpl. rewrite JsSet_elem_delete.
        split; [intros [? ?]|intros [? Hn]]; split; try done.
        -- intros [_ ?]. done.
        -- intros ->. by apply Hn.
      * split; [|tauto]. intros ?. split; [done|]. intros [? ?]. congruence.
  - split; [|tauto]. intros Hy. split; [done|]. intros [-> _].
    rewrite Hget in Hy. simpl in Hy. by apply elem_of_nil in Hy.
Qed.

(** Effect of [addSymbol] and [removeSymbol] on each map. *)
Lemma addSymbol_symbols s st y :
  JsMap.get y (symbols (addSymbol s st)) =
  if decide (sym_id s = y) then Some s else JsMap.get y (symbols st).
Proof. apply JsMap_get_set. Qed.

Lemma addSymbol_pathIndex s st k y :
  inIndex k y (pathIndex (addSymbol s st)) ↔
  inIndex k y (pathIndex st) ∨ (k = sym_path s ∧ y = sym_id s).
Proof. apply inIndex_indexAdd. Qed.

Lemma addSymbol_nameIndex s st k y :
  inIndex k y (nameIndex (addSymbol s st)) ↔
  inIndex k y (nameIndex st) ∨ (k = sym_name s ∧ y = sym_id s).
Proof. apply inIndex_indexAdd. Qed.

Lemma removeSymbol_symbols x st y :
  JsMap.get y (symbols (removeSymbol x st)) =
  if decide (x = y) then None else JsMap.get y (symbols st).
Proof.
  unfold removeSymbol.
  destruct (JsMap.get x (symbols st)) as [s|] eqn:Hx; simpl.
  - apply JsMap_get_delete.
  - case_decide; congruence.
Qed.

Lemma removeSymbol_pathIndex x st k y :
  inIndex k y (pathIndex (removeSymbol x st)) ↔
  inIndex k y (pathIndex st) ∧
  ¬ (y = x ∧ ∃ s, JsMap.get y (symbols st) = Some s ∧ sym_path s = k).
Proof.
  unfold removeSymbol.
  destruct (JsMap.get x (symbols st)) as [s|] eqn:Hx; simpl.
  - rewrite inIndex_indexRemove. split; intros [? Hn]; (split; [done|]).
    + intros [-> (s' & ? & ?)]. apply Hn. split; congruence.
    + intros [-> ->]. apply Hn. eauto.
  - split; [|tauto]. intros ?. split; [done|].
    intros [-> (s' & ? & ?)]. congruence.
Qed.

Lemma removeSymbol_nameIndex x st k y :
  inIndex k y (nameIndex (removeSymbol x st)) ↔
  inIndex k y (nameIndex st) ∧
  ¬ (y = x ∧ ∃ s, JsMap.get y (symbols st) = Some s ∧ sym_name s = k).
Proof.
  unfold removeSymbol.
  destruct (JsMap.get x (symbols st)) as [s|] eqn:Hx; simpl.
  - rewrite inIndex_indexRemove. split; intros [? Hn]; (split; [done|]).
    + intros [-> (s' & ? & ?)]. apply Hn. split; congruence.
    + intros [-> ->]. apply Hn. eauto.
  - split; [|tauto]. intros ?. split; [done|].
    intros [-> (s' & ? & ?)]. congruence.
Qed.
End IndexView.

(** ** Removing and adding a batch of symbols *)

Section Batches.
Import SymbolIndexer.
Implicit Types (st : State) (s a : Symbol) (A : list Symbol) (L : list string).

Lemma lastById_Some y A s : lastById y A = Some s → s ∈ A ∧ sym_id s = y.
Proof.
  unfold lastById. intros H%last_Some_elem_of.
  by apply list_elem_of_filter in H as [? ?].
Qed.

Lemma lastById_None y A a : lastById y A = None → a ∈ A → sym_id a ≠ y.
Proof.
  unfold lastById. intros H%last_None Ha Hy.
  assert (a ∈ filter (λ s, sym_id s = y) A) as Hin
    by by apply list_elem_of_filter.
  rewrite H in Hin. by apply elem_of_nil in Hin.
Qed.

Lemma removeAll_symbols L st y :
  JsMap.get y (symbols (removeAll L st)) =
  if decide (y ∈ L) then None else JsMap.get y (symbols st).
Proof.
  revert st. induction L as [|x L IH]; intros st.
  - change (removeAll [] st) with st.
    rewrite decide_False; [done|]. apply not_elem_of_nil.
  - change (removeAll (x :: L) st) with (removeAll L (removeSymbol x st)).
    rewrite IH, removeSymbol_symbols.
    destruct (decide (y ∈ L)) as [Hy|Hy].
    + rewrite decide_True; [done|]. by right.
    + destruct (decide (x = y)) as [->|Hne].
      * rewrite decide_True; [done|]. by left.
      * rewrite decide_False; [done|].
        intros [?|?]%elem_of_cons; congruence.
Qed.

Lemma removeAll_pathIndex L st k y :
  inIndex k y (pathIndex (removeAll L st)) ↔
  inIndex k y (pathIndex st) ∧
  ¬ (y ∈ L ∧ ∃ s, JsMap.get y (symbols st) = Some s ∧ sym_path s = k).
Proof.
  revert st. induction L as [|x L IH]; intros st.
  - change (removeAll [] st) with st. split; [|tauto]. intros ?. split; [done|].
    intros [?%elem_of_nil _]. done.
  - change (removeAll (x :: L) st) with (removeAll L (removeSymbol x st)).
    rewrite IH, removeSymbol_pathIndex.
    setoid_rewrite removeSymbol_symbols. setoid_rewrite elem_of_cons.
    split.
    + intros [[Hin Hx] HL]. split; [done|].
      intros [[->|Hy] (s & Hs & Hk)].
      * apply Hx. eauto.
      * destruct (decide (x = y)) as [->|Hne].
        -- apply Hx. eauto.
        -- apply HL. split; [done|]. exists s. split; [|done].
           destruct (decide (x = y)); [congruence|done].
    + intros [Hin Hn]. split_and!; [done| |].
      * intros [-> Hs]. apply Hn. split; [by left|done].
      * intros [Hy (s & Hs & Hk)]. case_decide; [done|].
        apply Hn. split; [by right|eauto].
Qed.

Lemma removeAll_nameIndex L st k y :
  inIndex k y (nameIndex (removeAll L st)) ↔
  inIndex k y (nameIndex st) ∧
  ¬ (y ∈ L ∧ ∃ s, JsMap.get y (symbols st) = Some s ∧ sym_name s = k).
Proof.
  revert st. induction L as [|x L IH]; intros st.
  - change (removeAll [] st) with st. split; [|tauto]. intros ?. split; [done|].
    intros [?%elem_of_nil _]. done.
  - change (removeAll (x :: L) st) with (removeAll L (removeSymbol x st)).
    rewrite IH, removeSymbol_nameIndex.
    setoid_rewrite removeSymbol_symbols. setoid_rewrite elem_of_cons.
    split.
    + intros [[Hin Hx] HL]. split; [done|].
      intros [[->|Hy] (s & Hs & Hk)].
      * apply Hx. eauto.
      * destruct (decide (x = y)) as [->|Hne].
        -- apply Hx. eauto.
        -- apply HL. split; [done|]. exists s. split; [|done].
           destruct (decide (x = y)); [congruence|done].
    + intros [Hin Hn]. split_and!; [done| |].
      * intros [-> Hs]. apply Hn. split; [by left|done].
      * intros [Hy (s & Hs & Hk)]. case_decide; [done|].
        apply Hn. split; [by right|eauto].
Qed.

Lemma addAll_symbols A st y :
  JsMap.get y (symbols (addAll A st)) =
  match lastById y A with Some s => Some s | None => JsMap.get y (symbols st) end.
Proof.
  revert st. induction A as [|a A IH]; intros st; [done|].
  change (addAll (a :: A) st) with (addAll A (addSymbol a st)).
  rewrite IH, addSymbol_symbols.
  unfold lastById. rewrite filter_cons.
  destruct (decide (sym_id a = y)) as [Ha|Ha]; [|done].
  rewrite last_cons. by destruct (last _).
Qed.

Lemma addAll_pathIndex A st k y :
  inIndex k y (pathIndex (addAll A st)) ↔
  inIndex k y (pathIndex st) ∨ ∃ a, a ∈ A ∧ sym_path a = k ∧ sym_id a = y.
Proof.
  revert st. induction A as [|a A IH]; intros st.
  - change (addAll [] st) with st.
    split; [tauto|]. intros [?|(a & ?%elem_of_nil & _)]; done.
  - change (addAll (a :: A) st) with (addAll A (addSymbol a st)).
    rewrite IH, addSymbol_pathIndex.
    setoid_rewrite elem_of_cons. split.
    + intros [[?|[-> ->]]|(a' & ? & ? & ?)]; eauto 8.
    + intros [?|(a' & [->|?] & ? & ?)]; eauto 8.
Qed.

Lemma addAll_nameIndex A st k y :
  inIndex k y (nameIndex (addAll A st)) ↔
  inIndex k y (nameIndex st) ∨ ∃ a, a ∈ A ∧ sym_name a = k ∧ sym_id a = y.
Proof.
  revert st. induction A as [|a A IH]; intros st.
  - change (addAll [] st) with st.
    split; [tauto|]. intros [?|(a & ?%elem_of_nil & _)]; done.
  - change (addAll (a :: A) st) with (addAll A (addSymbol a st)).
    rewrite IH, addSymbol_nameIndex.
    setoid_rewrite elem_of_cons. split.
    + intros [[?|[-> ->]]|(a' & ? & ? & ?)]; eauto 8.
    + intros [?|(a' & [->|?] & ? & ?)]; eauto 8.
Qed.

Lemma getSymbolsInFile_elem q st s :
  s ∈ getSymbolsInFile q st ↔
  ∃ y, inIndex q y (pathIndex st) ∧ JsMap.get y (symbols st) = Some s.
Proof. unfold getSymbolsInFile. by rewrite list_elem_of_omap. Qed.

Lemma findByName_elem n st s :
  s ∈ findByName n st ↔
  ∃ y, inIndex n y (nameIndex st) ∧ JsMap.get y (symbols st) = Some s.
Proof. unfold findByName. by rewrite list_elem_of_omap. Qed.

(** Replacing twice with the same batch gives the table of replacing once,
    whatever the table was before. *)
Lemma replaceBatch_idempotent p rp A st :
  (∀ a, a ∈ A → sym_path a = rp) →
  same_table (replaceBatch p A (replaceBatch p A st)) (replaceBatch p A st).
Proof.
  intros Hpath. set (t1 := replaceBatch p A st).
  assert (∀ y, inIndex p y (pathIndex t1) → lastById y A = None →
               JsMap.get y (symbols t1) = None) as Hstale.
  { intros y Hy Hlast. subst t1. unfold replaceBatch in *.
    rewrite addAll_symbols, Hlast, removeAll_symbols.
    apply addAll_pathIndex in Hy as [Hy|(a & Ha & _ & Hid)].
    - apply removeAll_pathIndex in Hy as [Hy _]. by rewrite decide_True.
    - by destruct (lastById_None y A a Hlast Ha). }
  assert (∀ y, JsMap.get y (symbols t1) =
               match lastById y A with
               | Some s => Some s
               | None => JsMap.get y (symbols t1)
               end) as Hlive.
  { intros y. destruct (lastById y A) eqn:Hlast; [|done].
    subst t1. unfold replaceBatch. by rewrite addAll_symbols, Hlast. }
  unfold replaceBatch at 1. fold (inIndex p). split_and!.
  - intros y. rewrite addAll_symbols, removeAll_symbols.
    destruct (lastById y A) eqn:Hlast; [by rewrite Hlive, Hlast|].
    case_decide as Hy; [|done]. symmetry. by apply Hstale.
  - intros k y. rewrite addAll_nameIndex, removeAll_nameIndex. split.
    + intros [[? _]|(a & Ha & Hk & Hy)]; [done|].
      subst t1. unfold replaceBatch. rewrite addAll_nameIndex. eauto.
    + intros Hin.
      destruct (lastById y A) as [s|] eqn:Hlast.
      * destruct (lastById_Some _ _ _ Hlast) as [Hs Hid].
        destruct (decide (sym_name s = k)) as [Hk|Hk]; [right; eauto|].
        left. split; [done|]. intros [_ (s' & Hs' & Hk')].
        rewrite Hlive, Hlast in Hs'. congruence.
      * left. split; [done|]. intros [Hy (s' & Hs' & _)].
        rewrite (Hstale y Hy Hlast) in Hs'. done.
  - intros k y. rewrite addAll_pathIndex, removeAll_pathIndex. split.
    + intros [[? _]|(a & Ha & Hk & Hy)]; [done|].
      subst t1. unfold replaceBatch. rewrite addAll_pathIndex. eauto.
    + intros Hin.
      destruct (lastById y A) as [s|] eqn:Hlast.
      * destruct (lastById_Some _ _ _ Hlast) as [Hs Hid].
        destruct (decide (sym_path s = k)) as [Hk|Hk]; [right; eauto|].
        left. split; [done|]. intros [_ (s' & Hs' & Hk')].
        rewrite Hlive, Hlast in Hs'. congruence.
      * left. split; [done|]. intros [Hy (s' & Hs' & _)].
        rewrite (Hstale y Hy Hlast) in Hs'. done.
Qed.

(** After a replacement, whatever [getSymbolsInFile p] returns comes from
    the batch. *)
Lemma replaceBatch_getSymbolsInFile p A st s :
  s ∈ getSymbolsInFile p (replaceBatch p A st) → s ∈ A.
Proof.
  rewrite getSymbolsInFile_elem. intros (y & Hy & Hs).
  unfold replaceBatch in *. rewrite addAll_symbols in Hs.
  destruct (lastById y A) as [s'|] eqn:Hlast.
  - simplify_eq. by apply lastById_Some in Hlast as [? _].
  - rewrite removeAll_symbols in Hs.
    apply addAll_pathIndex in Hy as [Hy|(a & Ha & _ & Hid)].
    + apply removeAll_pathIndex in Hy as [Hy _]. by rewrite decide_True in Hs.
    + by destruct (lastById_None y A a Hlast Ha).
Qed.
End Batches.

(** ** [updateFile] *)

Section UpdateFile.
Import SymbolIndexer.
Variables resolve basename dirname : string → string.
Variable regexMatches : Pattern → string → list (string * nat).
Variable readFileSync : string → option string.

Abbreviation updateFile :=
  (SymbolIndexer.updateFile resolve basename dirname regexMatches readFileSync).
Abbreviation indexSingleFile :=
  (SymbolIndexer.indexSingleFile resolve basename dirname regexMatches).
Abbreviation extraction := (SymbolIndexer.extraction resolve basename dirname regexMatches).
Abbreviation fileContent := (SymbolIndexer.fileContent readFileSync).
Abbreviation inserted :=
  (SymbolIndexer.inserted resolve basename dirname regexMatches readFileSync).

Lemma extraction_path p c a : a ∈ extraction p c → sym_path a = resolve p.
Proof.
  unfold SymbolIndexer.extraction.
  intros (pat & Ha & _)%list_elem_of_bind.
  by apply list_elem_of_fmap in Ha as (m & -> & _).
Qed.

Lemma inserted_path p content a : a ∈ inserted p content → sym_path a = resolve p.
Proof.
  unfold SymbolIndexer.inserted. destruct (fileContent p content).
  - apply extraction_path.
  - by intros ?%elem_of_nil.
Qed.

Lemma updateFile_replaceBatch p content st :
  (updateFile p content st).1 = replaceBatch p (inserted p content) st.
Proof.
  unfold SymbolIndexer.updateFile, SymbolIndexer.inserted, replaceBatch.
  by destruct (fileContent p content).
Qed.

Lemma updateFile_outcome p content st :
  (updateFile p content st).2 =
  match fileContent p content with Some _ => Returned | None => Threw end.
Proof.
  unfold SymbolIndexer.updateFile. by destruct (fileContent p content).
Qed.

(** What [getSymbolsInFile p] returns right after [updateFile p content]
    was extracted by that call. *)
Lemma updateFile_getSymbolsInFile p content st s :
  s ∈ getSymbolsInFile p (updateFile p content st).1 → s ∈ inserted p content.
Proof. rewrite updateFile_replaceBatch. apply replaceBatch_getSymbolsInFile. Qed.

(** C5.  [updateFile] is idempotent: for every path [p], content [c] and
    table, a second [updateFile p c] leaves the table as the first one left
    it: [getSymbolsInFile] returns the same symbols for every path,
    [getSymbol] the same symbol for every id, [findByName] the same symbols
    for every name, and the call ends the same way.  For a file that was
    not indexed before (no entry in the path index) the call removes
    nothing and only inserts the symbols of the content. *)
Theorem C5_updateFile_idempotent (p : string) (c : option string) (st : State) :
  let once := (updateFile p c st).1 in
  let twice := (updateFile p c once).1 in
  (∀ q s, s ∈ getSymbolsInFile q twice ↔ s ∈ getSymbolsInFile q once) ∧
  (∀ id, getSymbol id twice = getSymbol id once) ∧
  (∀ n s, s ∈ findByName n twice ↔ s ∈ findByName n once) ∧
  (updateFile p c once).2 = (updateFile p c st).2 ∧
  (JsMap.get p (pathIndex st) = None →
   updateFile p c st =
   match fileContent p c with
   | Some content => (indexSingleFile p content st, Returned)
   | None => (st, Threw)
   end).
Proof.
  intros once twice.
  assert (same_table twice once) as (Hsym & Hname & Hpath).
  { subst once twice. rewrite !updateFile_replaceBatch.
    eapply replaceBatch_idempotent, inserted_path. }
  split_and!.
  - intros q s. rewrite !getSymbolsInFile_elem.
    by setoid_rewrite Hsym; setoid_rewrite Hpath.
  - intros id. apply Hsym.
  - intros n s. rewrite !findByName_elem.
    by setoid_rewrite Hsym; setoid_rewrite Hname.
  - by rewrite !updateFile_outcome.
  - intros Hnew. unfold SymbolIndexer.updateFile. by rewrite Hnew.
Qed.
End UpdateFile.

(** The first [updateFile] for "/work/top.v" on an empty table is a pure
    insert, and repeating it changes nothing. *)
Lemma C5_updateFile_idempotent_witness :
  let upd := Platform.updateFile "/work" "/work/top.v" (Some "module foo") in
  JsMap.get "/work/top.v" (SymbolIndexer.pathIndex SymbolIndexer.empty) = None ∧
  sym_name <$> SymbolIndexer.getSymbolsInFile "/work/top.v" (upd SymbolIndexer.empty).1
    = ["foo"] ∧
  ∀ q s,
    s ∈ SymbolIndexer.getSymbolsInFile q (upd (upd SymbolIndexer.empty).1).1 ↔
    s ∈ SymbolIndexer.getSymbolsInFile q (upd SymbolIndexer.empty).1.
Proof.
  split; [reflexivity|]. split; [by vm_compute|].
  exact (proj1 (C5_updateFile_idempotent (Platform.resolve "/work")
                  Platform.basename Platform.dirname Platform.regexMatches
                  Platform.readFileSync "/work/top.v" (Some "module foo")
                  SymbolIndexer.empty)).
Defined.

(** C4 fails for a path that [path.resolve] changes.  With the working
    directory "/work", [updateFile("x.v", "module foo")] followed by
    [updateFile("x.v", "module bar")] looks up the key "x.v" while the
    symbols are filed under "/work/x.v": nothing is removed, and the
    symbol [foo] of the first content stays in the table of that file,
    although the second content only declares [bar]. *)
Theorem C4_updateFile_relative_path_accumulates :
  let st1 := (Platform.updateFile "/work" "x.v" (Some "module foo") SymbolIndexer.empty).1 in
  let st2 := (Platform.updateFile "/work" "x.v" (Some "module bar") st1).1 in
  sym_name <$> SymbolIndexer.inserted (Platform.resolve "/work") Platform.basename
                 Platform.dirname Platform.regexMatches Platform.readFileSync
                 "x.v" (Some "module bar") = ["bar"] ∧
  sym_path <$> SymbolIndexer.listSymbols st2 = ["/work/x.v"; "/work/x.v"] ∧
  sym_name <$> SymbolIndexer.listSymbols st2 = ["foo"; "bar"] ∧
  sym_name <$> SymbolIndexer.getSymbolsInFile "/work/x.v" st2 = ["foo"; "bar"] ∧
  sym_name <$> SymbolIndexer.findByName "foo" st2 = ["foo"].
Proof. by vm_compute. Qed.

(** C10 fails when two files share a basename.  Both "/a/x.v" and
    "/b/x.v" declare [module foo] on their first line, so both symbols get
    the id "x.v:foo:0"; the second [set] overwrites the first, and
    [getSymbolsInFile("/a/x.v")] returns a symbol whose path is
    "/b/x.v". *)
Theorem C10_same_basename_files_share_symbol_id :
  let st1 := (Platform.updateFile "/" "/a/x.v" (Some "module foo") SymbolIndexer.empty).1 in
  let st2 := (Platform.updateFile "/" "/b/x.v" (Some "module foo") st1).1 in
  sym_path <$> SymbolIndexer.getSymbolsInFile "/a/x.v" st1 = ["/a/x.v"] ∧
  sym_id <$> SymbolIndexer.getSymbolsInFile "/a/x.v" st2 = ["x.v:foo:0"] ∧
  sym_path <$> SymbolIndexer.getSymbolsInFile "/a/x.v" st2 = ["/b/x.v"].
Proof. by vm_compute. Qed.

(** ** The module graph: edges *)

Section GraphEdges.
Import GraphBuilder.
Implicit Types (g : ModuleGraph) (modules : list ModuleInfo)
  (instances : list InstanceInfo).

Lemma inIndex_addTo key x (map : JsMap.t JsSet.t) k y :
  inIndex k y (addTo key x map) ↔ inIndex k y map ∨ (k = key ∧ y = x).
Proof. exact (inIndex_indexAdd key x map k y). Qed.

Lemma symmetric_edges_empty : symmetric_edges emptyGraph.
Proof. intros A B. unfold inIndex. simpl. by rewrite !elem_of_nil. Qed.

Lemma symmetric_edges_addEdge from to g :
  symmetric_edges g → symmetric_edges (addEdge from to g).
Proof.
  intros Hg A B. simpl. rewrite !inIndex_addTo, (Hg A B). tauto.
Qed.

Lemma symmetric_edges_addInstance modules g instance :
  symmetric_edges g → symmetric_edges (addInstance modules g instance).
Proof.
  intros Hg. unfold addInstance.
  destruct (findModuleByFile _ _); [|done].
  by apply symmetric_edges_addEdge.
Qed.

Lemma foldl_addNode_edges modules g :
  edges (foldl addNode g modules) = edges g ∧
  reverseEdges (foldl addNode g modules) = reverseEdges g ∧
  signalFlows (foldl addNode g modules) = signalFlows g.
Proof.
  revert g. induction modules as [|m modules IH]; intros g; [done|].
  simpl. by destruct (IH (addNode g m)) as (-> & -> & ->).
Qed.

Lemma foldl_addInstance_symmetric modules instances g :
  symmetric_edges g → symmetric_edges (foldl (addInstance modules) g instances).
Proof.
  revert g. induction instances as [|i instances IH]; intros g Hg; [done|].
  simpl. by apply IH, symmetric_edges_addInstance.
Qed.

Lemma buildGraph_symmetric modules instances :
  symmetric_edges (buildGraph modules instances).
Proof.
  unfold buildGraph, buildSignalFlows, symmetric_edges. simpl.
  apply foldl_addInstance_symmetric.
  intros A B. destruct (foldl_addNode_edges modules emptyGraph) as (-> & -> & _).
  apply symmetric_edges_empty.
Qed.

(** C3.  In every graph produced by [buildGraph], for all module names [A]
    and [B]: [B] is in the forward-edge set of [A] if and only if [A] is in
    the reverse-edge set of [B]. *)
Theorem C3_buildGraph_edge_maps_symmetric modules instances (A B : string) :
  let g := buildGraph modules instances in
  B ∈ default JsSet.empty (JsMap.get A (edges g)) ↔
  A ∈ default JsSet.empty (JsMap.get B (reverseEdges g)).
Proof. apply buildGraph_symmetric. Qed.
End GraphEdges.

(** ** The module graph: signal flows *)

Section GraphFlows.
Import GraphBuilder.
Implicit Types (g : ModuleGraph) (modules : list ModuleInfo)
  (instances : list InstanceInfo) (inst : InstanceInfo) (conn : ConnectionInfo)
  (f : SignalFlow).

Lemma traceSignalFlow_Some g parent inst conn f :
  traceSignalFlow g parent inst conn = Some f ↔
  resolvable g inst conn ∧ f = flowOf parent inst conn.
Proof.
  unfold traceSignalFlow, resolvable, flowOf.
  destruct (JsMap.get (moduleType inst) (nodes g)) as [child|]; cycle 1.
  { split; [done|]. by intros [(? & ? & ? & _) _]. }
  destruct (List.find _ (node_ports child)) as [port|] eqn:Hfind.
  - apply find_some in Hfind as [Hin Hname%bool_decide_eq_true].
    apply list_elem_of_In in Hin.
    split.
    + intros [= <-]. split; [by eauto|]. by destruct (direction conn).
    + intros [_ ->]. by destruct (direction conn).
  - split; [done|]. intros [(child' & port & [= <-] & Hin & Hname) _].
    apply list_elem_of_In in Hin.
    eapply find_none in Hfind; [|done].
    by apply bool_decide_eq_false in Hfind.
Qed.

Lemma option_list_elem {A} (o : option A) (x : A) : x ∈ option_list o ↔ o = Some x.
Proof.
  destruct o as [y|]; simpl.
  - rewrite list_elem_of_singleton. split; congruence.
  - rewrite elem_of_nil. split; [done|congruence].
Qed.

Lemma tracedFlows_elem g f :
  f ∈ tracedFlows g ↔
  ∃ parent node inst conn,
    (parent, node) ∈ nodes g ∧ inst ∈ node_instances node ∧
    conn ∈ connections inst ∧ traceSignalFlow g parent inst conn = Some f.
Proof.
  unfold tracedFlows. rewrite list_elem_of_bind. split.
  - intros ([parent node] & (inst & (conn & Hf & ?)%list_elem_of_bind & ?)%list_elem_of_bind & ?).
    apply option_list_elem in Hf. by exists parent, node, inst, conn.
  - intros (parent & node & inst & conn & ? & ? & ? & Hf).
    exists (parent, node). split; [|done].
    apply list_elem_of_bind. exists inst. split; [|done].
    apply list_elem_of_bind. exists conn. split; [|done].
    by apply option_list_elem.
Qed.

Lemma foldl_addInstance_signalFlows modules instances g :
  signalFlows (foldl (addInstance modules) g instances) = signalFlows g.
Proof.
  revert g. induction instances as [|i instances IH]; intros g; [done|].
  simpl. rewrite IH. unfold addInstance. by destruct (findModuleByFile _ _).
Qed.

Lemma traceSignalFlow_ext g g' parent inst conn :
  nodes g = nodes g' →
  traceSignalFlow g parent inst conn = traceSignalFlow g' parent inst conn.
Proof. unfold traceSignalFlow. by intros ->. Qed.

(** The flows of a built graph are exactly the flows traced over its own
    nodes. *)
Lemma buildGraph_signalFlows modules instances :
  signalFlows (buildGraph modules instances) = tracedFlows (buildGraph modules instances).
Proof.
  unfold buildGraph, buildSignalFlows. simpl.
  rewrite foldl_addInstance_signalFlows.
  destruct (foldl_addNode_edges modules emptyGraph) as (_ & _ & ->). done.
Qed.

Lemma buildGraph_flow_elem modules instances f :
  let g := buildGraph modules instances in
  f ∈ signalFlows g ↔
  ∃ parent node inst conn,
    (parent, node) ∈ nodes g ∧ inst ∈ node_instances node ∧
    conn ∈ connections inst ∧ resolvable g inst conn ∧
    f = flowOf parent inst conn.
Proof.
  intros g. subst g. rewrite buildGraph_signalFlows, tracedFlows_elem.
  by setoid_rewrite traceSignalFlow_Some.
Qed.

(** A resolvable connection of an attached instance has its flow recorded. *)
Lemma buildGraph_flow_recorded modules instances parent node inst conn :
  let g := buildGraph modules instances in
  JsMap.get parent (nodes g) = Some node →
  inst ∈ node_instances node → conn ∈ connections inst →
  resolvable g inst conn →
  flowOf parent inst conn ∈ signalFlows g.
Proof.
  intros g Hnode Hinst Hconn Hres. apply buildGraph_flow_elem.
  exists parent, node, inst, conn. split_and!; try done.
  by apply JsMap_get_Some_elem.
Qed.

Lemma tracedFlows_prescribed g : tracedFlows g = prescribedFlows g.
Proof.
  unfold tracedFlows, prescribedFlows.
  apply list_bind_ext; [|done]. intros [parent node].
  apply list_bind_ext; [|done]. intros inst.
  apply list_bind_ext; [|done]. intros conn. cbn [fst].
  destruct (traceSignalFlow g parent inst conn) as [f|] eqn:Hf.
  - apply traceSignalFlow_Some in Hf as [Hres ->]. by rewrite decide_True.
  - rewrite decide_False; [done|]. intros Hres.
    assert (traceSignalFlow g parent inst conn = Some (flowOf parent inst conn)) as H
      by by apply traceSignalFlow_Some.
    congruence.
Qed.

(** C2.  For every instance attached to a parent module node of a built
    graph and every one of its connections, when the instantiated module
    type is a node of the graph and the connection names one of its
    declared ports: for direction input the flow traced for the connection
    is the one from [{parent, signal name}] to [{child type, port name}],
    for direction output the one from [{child type, port name}] to
    [{parent, signal name}], and it is recorded; the flow carries the
    signal name and the path [[parent, child]].  When the module type is
    not a node, tracing the connection yields nothing, and no recorded
    flow at all leads to a module that is not a node.  Nothing else is
    recorded: the flow list is exactly the list of these flows, one for
    each resolvable connection of each attached instance, in the order of
    the nodes, their instances and their connections; so a flow in the
    opposite direction is in the list only where another connection
    prescribes it. *)
Theorem C2_signal_flow_follows_port_direction
    modules instances parent node inst conn :
  let g := buildGraph modules instances in
  JsMap.get parent (nodes g) = Some node →
  inst ∈ node_instances node →
  conn ∈ connections inst →
  (∀ child port,
      JsMap.get (moduleType inst) (nodes g) = Some child →
      port ∈ node_ports child → port_name port = portName conn →
      (direction conn = Input →
       let flow := mkFlow (mkEndpoint parent (signalName conn))
                          (mkEndpoint (moduleType inst) (portName conn))
                          (signalName conn) [parent; moduleType inst] in
       traceSignalFlow g parent inst conn = Some flow ∧ flow ∈ signalFlows g) ∧
      (direction conn = Output →
       let flow := mkFlow (mkEndpoint (moduleType inst) (portName conn))
                          (mkEndpoint parent (signalName conn))
                          (signalName conn) [parent; moduleType inst] in
       traceSignalFlow g parent inst conn = Some flow ∧ flow ∈ signalFlows g)) ∧
  (JsMap.get (moduleType inst) (nodes g) = None →
   traceSignalFlow g parent inst conn = None) ∧
  (∀ f, f ∈ signalFlows g →
        ∃ p c, flow_path f = [p; c] ∧ is_Some (JsMap.get c (nodes g))) ∧
  signalFlows g = prescribedFlows g ∧
  (∀ f, f ∈ signalFlows g ↔
        ∃ parent' node' inst' conn',
          (parent', node') ∈ nodes g ∧ inst' ∈ node_instances node' ∧
          conn' ∈ connections inst' ∧ resolvable g inst' conn' ∧
          f = flowOf parent' inst' conn').
Proof.
  intros g Hnode Hinst Hconn. split_and!.
  - intros child port Hchild Hport Hname.
    assert (resolvable g inst conn) as Hres by by exists child, port.
    assert (traceSignalFlow g parent inst conn = Some (flowOf parent inst conn))
      as Htrace by by apply traceSignalFlow_Some.
    assert (flowOf parent inst conn ∈ signalFlows g) as Hflow
      by by apply (buildGraph_flow_recorded modules instances parent node).
    unfold flowOf in Htrace, Hflow.
    by split; intros Hdir; rewrite Hdir in Htrace, Hflow.
  - intros Hnone. unfold traceSignalFlow. by rewrite Hnone.
  - intros f (p & n & i & c & _ & _ & _ & (child & _ & Hchild & _) & ->)%buildGraph_flow_elem.
    exists p, (moduleType i). split; [by unfold flowOf; destruct (direction c)|].
    by eexists.
  - subst g. by rewrite buildGraph_signalFlows, tracedFlows_prescribed.
  - intros f. apply buildGraph_flow_elem.
Qed.
End GraphFlows.

(** The design-document system: the connection [result -> alu_result] of
    [u_alu] is recorded as a flow out of [alu] into [cpu_core], and the
    flow in the opposite direction is not recorded. *)
Lemma C2_signal_flow_follows_port_direction_witness :
  let g := GraphBuilder.buildGraph [Designs.alu; Designs.cpu_core] [Designs.u_alu] in
  GraphBuilder.mkFlow (GraphBuilder.mkEndpoint "alu" "result")
    (GraphBuilder.mkEndpoint "cpu_core" "alu_result") "alu_result" ["cpu_core"; "alu"]
  ∈ GraphBuilder.signalFlows g ∧
  GraphBuilder.mkFlow (GraphBuilder.mkEndpoint "cpu_core" "alu_result")
    (GraphBuilder.mkEndpoint "alu" "result") "alu_result" ["cpu_core"; "alu"]
  ∉ GraphBuilder.signalFlows g.
Proof.
  split; [|apply (bool_decide_unpack _); by vm_compute].
  refine (proj2 (proj2 (proj1 (C2_signal_flow_follows_port_direction
    [Designs.alu; Designs.cpu_core] [Designs.u_alu] "cpu_core"
    (GraphBuilder.pushInstance Designs.u_alu (GraphBuilder.nodeOf Designs.cpu_core))
    Designs.u_alu (GraphBuilder.mkConnection "result" "alu_result" GraphBuilder.Output)
    _ _ _)
    (GraphBuilder.nodeOf Designs.alu) (GraphBuilder.mkPort "result" "output" "wire")
    _ _ _) _)).
  - reflexivity.
  - apply list_elem_of_In. simpl. auto.
  - apply list_elem_of_In. simpl. auto.
  - reflexivity.
  - apply list_elem_of_In. simpl. auto.
  - reflexivity.
  - reflexivity.
Defined.

(** ** Signal impact analysis *)

Section SignalImpact.
Import GraphBuilder.
Implicit Types (g : ModuleGraph) (f : SignalFlow) (acc : Impact).

Lemma flowsOf_cons s f flows :
  flowsOf s (f :: flows) =
  if decide (flow_signal f = s) then f :: flowsOf s flows else flowsOf s flows.
Proof. unfold flowsOf. by rewrite filter_cons. Qed.

Lemma foldl_impactStep s flows acc :
  let r := foldl (impactStep s) acc flows in
  sources r = sources acc ++ (flow_from <$> flowsOf s flows) ∧
  sinks r = sinks acc ++ (flow_to <$> flowsOf s flows) ∧
  (NoDup (affectedModules acc) → NoDup (affectedModules r)) ∧
  (∀ m, m ∈ affectedModules r ↔
        m ∈ affectedModules acc ∨
        ∃ f, f ∈ flowsOf s flows ∧
             (m = ep_module (flow_from f) ∨ m = ep_module (flow_to f))).
Proof.
  revert acc. induction flows as [|f flows IH]; intros acc.
  - simpl. rewrite !app_nil_r. split_and!; try done.
    intros m. split; [by left|]. intros [?|(f & ?%elem_of_nil & _)]; done.
  - simpl. destruct (IH (impactStep s acc f)) as (Hsrc & Hsnk & Hnd & Hmem).
    rewrite Hsrc, Hsnk, flowsOf_cons. unfold impactStep in *.
    destruct (decide (flow_signal f = s)) as [Hs|Hs]; simpl in *.
    + rewrite <-!app_assoc. split_and!; try done.
      * intros ?. by apply Hnd, JsSet_NoDup_add, JsSet_NoDup_add.
      * intros m. rewrite Hmem, !JsSet_elem_add. setoid_rewrite elem_of_cons.
        split.
        -- intros [[-> | [-> | ?]] | (f' & ? & ?)]; eauto 8.
        -- intros [? | (f' & [-> | ?] & [-> | ->])]; eauto 8.
    + done.
Qed.

(** A connection that carries [s] shows up in the analysis of [s]. *)
Lemma impact_of_recorded_flow g s f :
  let r := getSignalImpactAnalysis s g in
  f ∈ signalFlows g → flow_signal f = s →
  flow_from f ∈ sources r ∧ flow_to f ∈ sinks r ∧
  ep_module (flow_from f) ∈ affectedModules r ∧
  ep_module (flow_to f) ∈ affectedModules r.
Proof.
  intros r Hf Hs. subst r. unfold getSignalImpactAnalysis.
  destruct (foldl_impactStep s (signalFlows g) (mkImpact [] [] JsSet.empty))
    as (-> & -> & _ & Hmem).
  assert (f ∈ flowsOf s (signalFlows g)) by by apply list_elem_of_filter.
  simpl. split_and!.
  - by apply list_elem_of_fmap_2.
  - by apply list_elem_of_fmap_2.
  - apply Hmem. right. eauto.
  - apply Hmem. right. eauto.
Qed.

(** C8, as the code has it.  For every signal name [s],
    [getSignalImpactAnalysis s] returns as [sources] the from-ends and as
    [sinks] the to-ends of exactly the flows whose signal is [s], one entry
    per flow in the order of the flow list (equal ends are not merged);
    [affectedModules] lists, without repetition, exactly the modules at
    either end of those flows.  In a built graph, for a resolvable
    connection of an attached instance that carries [s]: with direction
    output the child module and port are among the sources, with direction
    input among the sinks, and in both cases parent and child are among the
    affected modules. *)
Theorem C8_signal_impact_lists_matching_flows (s : string) :
  (∀ g,
     let r := getSignalImpactAnalysis s g in
     sources r = flow_from <$> flowsOf s (signalFlows g) ∧
     sinks r = flow_to <$> flowsOf s (signalFlows g) ∧
     NoDup (affectedModules r) ∧
     ∀ m, m ∈ affectedModules r ↔
          ∃ f, f ∈ signalFlows g ∧ flow_signal f = s ∧
               (m = ep_module (flow_from f) ∨ m = ep_module (flow_to f))) ∧
  (∀ modules instances parent node inst conn,
     let g := buildGraph modules instances in
     let r := getSignalImpactAnalysis s g in
     JsMap.get parent (nodes g) = Some node →
     inst ∈ node_instances node → conn ∈ connections inst →
     resolvable g inst conn → signalName conn = s →
     (direction conn = Output →
      mkEndpoint (moduleType inst) (portName conn) ∈ sources r) ∧
     (direction conn = Input →
      mkEndpoint (moduleType inst) (portName conn) ∈ sinks r) ∧
     moduleType inst ∈ affectedModules r ∧ parent ∈ affectedModules r).
Proof.
  split.
  - intros g r. subst r. unfold getSignalImpactAnalysis.
    destruct (foldl_impactStep s (signalFlows g) (mkImpact [] [] JsSet.empty))
      as (-> & -> & Hnd & Hmem).
    split_and!; try done.
    + apply Hnd. constructor.
    + intros m. rewrite Hmem. simpl. unfold flowsOf.
      setoid_rewrite list_elem_of_filter. rewrite elem_of_nil.
      split.
      * intros [?|(f & [? ?] & ?)]; [done|]. eauto.
      * intros (f & ? & ? & ?). right. eauto.
  - intros modules instances parent node inst conn g r Hnode Hinst Hconn Hres Hs.
    pose proof (buildGraph_flow_recorded modules instances parent node inst conn
                  Hnode Hinst Hconn Hres) as Hflow.
    assert (flow_signal (flowOf parent inst conn) = s) as Hsig
      by (unfold flowOf; by destruct (direction conn)).
    destruct (impact_of_recorded_flow _ s _ Hflow Hsig) as (Hsrc & Hsnk & Ha1 & Ha2).
    unfold flowOf in *. split_and!.
    + intros Hdir. by rewrite Hdir in Hsrc.
    + intros Hdir. by rewrite Hdir in Hsnk.
    + destruct (direction conn); assumption.
    + destruct (direction conn); assumption.
Qed.
End SignalImpact.

(** The example of the design document: [u_cpu] emits [data_out] and
    [u_cache] receives it. *)
Lemma C8_signal_impact_lists_matching_flows_witness :
  let g := GraphBuilder.buildGraph
             [Designs.soc; Designs.cpu; Designs.cache] [Designs.u_cpu; Designs.u_cache] in
  let r := GraphBuilder.getSignalImpactAnalysis "data_out" g in
  GraphBuilder.mkEndpoint "cpu" "cpu_data_out" ∈ GraphBuilder.sources r ∧
  GraphBuilder.mkEndpoint "cache" "cpu_data_in" ∈ GraphBuilder.sinks r ∧
  GraphBuilder.affectedModules r = ["cpu"; "soc"; "cache"].
Proof.
  pose (node := GraphBuilder.pushInstance Designs.u_cache
                  (GraphBuilder.pushInstance Designs.u_cpu
                     (GraphBuilder.nodeOf Designs.soc))).
  split_and!.
  - refine (proj1 (proj2 (C8_signal_impact_lists_matching_flows "data_out")
      [Designs.soc; Designs.cpu; Designs.cache] [Designs.u_cpu; Designs.u_cache]
      "soc" node Designs.u_cpu
      (GraphBuilder.mkConnection "cpu_data_out" "data_out" GraphBuilder.Output)
      _ _ _ _ _) _); try reflexivity.
    + apply list_elem_of_In. simpl. auto.
    + apply list_elem_of_In. simpl. auto.
    + exists (GraphBuilder.nodeOf Designs.cpu),
        (GraphBuilder.mkPort "cpu_data_out" "output" "wire").
      split_and!; try reflexivity. apply list_elem_of_In. simpl. auto.
  - refine (proj1 (proj2 (proj2 (C8_signal_impact_lists_matching_flows "data_out")
      [Designs.soc; Designs.cpu; Designs.cache] [Designs.u_cpu; Designs.u_cache]
      "soc" node Designs.u_cache
      (GraphBuilder.mkConnection "cpu_data_in" "data_out" GraphBuilder.Input)
      _ _ _ _ _)) _); try reflexivity.
    + apply list_elem_of_In. simpl. auto.
    + apply list_elem_of_In. simpl. auto.
    + exists (GraphBuilder.nodeOf Designs.cache),
        (GraphBuilder.mkPort "cpu_data_in" "input" "wire").
      split_and!; try reflexivity. apply list_elem_of_In. simpl. auto.
  - reflexivity.
Defined.

(** C8 as stated fails: two flip-flops of type [dff] in [top], both clocked
    by [clk], give two flows with the same from-end, and the analysis of
    [clk] lists that end twice, so the sources are not distinct. *)
Lemma C8_sources_are_not_distinct :
  let g := GraphBuilder.buildGraph [Designs.top; Designs.dff]
             [Designs.u_ff "u_ff0" 5; Designs.u_ff "u_ff1" 6] in
  let r := GraphBuilder.getSignalImpactAnalysis "clk" g in
  GraphBuilder.sources r =
    [GraphBuilder.mkEndpoint "top" "clk"; GraphBuilder.mkEndpoint "top" "clk"] ∧
  ¬ NoDup (GraphBuilder.sources r) ∧ ¬ NoDup (GraphBuilder.sinks r).
Proof.
  split_and!.
  - reflexivity.
  - apply (proj1 (bool_decide_eq_false (NoDup _))). by vm_compute.
  - apply (proj1 (bool_decide_eq_false (NoDup _))). by vm_compute.
Qed.

(** ** Depth-first walks terminate *)

Section OptionFolds.
Context {A B : Type}.
Implicit Types (f : A → B → option A) (l : list B).

Lemma loop_nil f a : loop f a [] = Some a.
Proof. done. Qed.

Lemma foldl_None f l : foldl (λ acc b, a ← acc; f a b) None l = None.
Proof. by induction l. Qed.

Lemma loop_cons f a b l :
  loop f a (b :: l) = match f a b with Some a' => loop f a' l | None => None end.
Proof. unfold loop. simpl. destruct (f a b); [done|]. apply foldl_None. Qed.

(** If every pass of the body returns and keeps [P], so does the loop. *)
Lemma loop_returns (P : A → Prop) f l a :
  P a →
  (∀ a b, P a → b ∈ l → ∃ a', f a b = Some a' ∧ P a') →
  ∃ a', loop f a l = Some a' ∧ P a'.
Proof.
  revert a. induction l as [|b l IH]; intros a Ha Hstep.
  - by exists a.
  - rewrite loop_cons.
    destruct (Hstep a b Ha) as (a1 & -> & Ha1); [by left|].
    apply IH; [done|]. intros a2 b2 ? ?. apply Hstep; [done|by right].
Qed.

(** A body that returns at least as often gives the same loop result. *)
Lemma loop_mono f1 f2 l a r :
  (∀ a b r, f1 a b = Some r → f2 a b = Some r) →
  loop f1 a l = Some r → loop f2 a l = Some r.
Proof.
  intros Hf. revert a. induction l as [|b l IH]; intros a; [done|].
  rewrite !loop_cons. destruct (f1 a b) as [a1|] eqn:H1; [|done].
  rewrite (Hf _ _ _ H1). apply IH.
Qed.
End OptionFolds.

Section Walks.
Import GraphBuilder.
Variable g : ModuleGraph.
Implicit Types (w : Walk) (m : string) (vis : JsSet.t).

Lemma children_vertices m cs c :
  JsMap.get m (edges g) = Some cs → c ∈ cs → c ∈ vertices g.
Proof.
  intros Hget Hc. unfold vertices. apply elem_of_app. right.
  apply list_elem_of_join. exists cs. split; [done|].
  apply JsMap_get_Some_elem in Hget.
  by apply (list_elem_of_fmap_2 snd) in Hget.
Qed.

Lemma node_vertices m node : JsMap.get m (nodes g) = Some node → m ∈ vertices g.
Proof.
  intros Hget%JsMap_get_Some_elem. unfold vertices. apply elem_of_app. left.
  by apply (list_elem_of_fmap_2 fst) in Hget.
Qed.

Lemma topLevel_vertices m : m ∈ getTopLevelModules g → m ∈ vertices g.
Proof.
  unfold getTopLevelModules. intros [_ ?]%list_elem_of_filter.
  unfold vertices. apply elem_of_app. by left.
Qed.

Lemma visited_ok_length vis : visited_ok g vis → length vis ≤ length (vertices g).
Proof. intros [? ?]. by apply submseteq_length, NoDup_submseteq. Qed.

Lemma visited_ok_add m vis :
  visited_ok g vis → m ∈ vertices g → visited_ok g (JsSet.add m vis).
Proof.
  intros [? Hin] Hm. split; [by apply JsSet_NoDup_add|].
  intros x [->|?]%JsSet_elem_add; auto.
Qed.

Lemma JsSet_add_fresh m vis : JsSet.has m vis = false → JsSet.add m vis = vis ++ [m].
Proof. unfold JsSet.add. by intros ->. Qed.

Lemma JsSet_delete_added m vis :
  JsSet.has m vis = false → JsSet.delete m (JsSet.add m vis) = vis.
Proof.
  intros Hm. rewrite (JsSet_add_fresh _ _ Hm). unfold JsSet.delete.
  rewrite filter_app, filter_cons, decide_False, filter_nil, app_nil_r by (by intros []).
  assert (m ∉ vis) as Hnotin.
  { intros ?%JsSet_has_true. congruence. }
  clear Hm. induction vis as [|x vis IH]; [done|].
  rewrite filter_cons, decide_True.
  - f_equal. apply IH. intros ?. apply Hnotin. by right.
  - intros ->. apply Hnotin. by left.
Qed.

(** *** [getCriticalPath] *)

Lemma criticalDfs_unfold fuel m w :
  criticalDfs (S fuel) g m w =
  if JsSet.has m (visited w) then Some w
  else
    let w1 := mkWalk (JsSet.add m (visited w)) (currentPath w ++ [m]) (longestPath w) in
    w2 ← (if noneOrEmpty (JsMap.get m (edges g)) then Some (recordLeaf w1)
          else loop (λ w child, criticalDfs fuel g child w) w1
                    (default JsSet.empty (JsMap.get m (edges g))));
    Some (mkWalk (JsSet.delete m (visited w2)) (removelast (currentPath w2))
                 (longestPath w2)).
Proof. reflexivity. Qed.

(** With enough fuel the walk returns, and it hands back the visited set
    and the current path as it received them. *)
Lemma criticalDfs_returns fuel m w :
  visited_ok g (visited w) → m ∈ vertices g →
  length (vertices g) < fuel + length (visited w) →
  ∃ w', criticalDfs fuel g m w = Some w' ∧
        visited w' = visited w ∧ currentPath w' = currentPath w.
Proof.
  revert m w. induction fuel as [|fuel IH]; intros m w Hok Hm Hfuel.
  { apply visited_ok_length in Hok. lia. }
  rewrite criticalDfs_unfold.
  destruct (JsSet.has m (visited w)) eqn:Hhas; [by exists w|].
  set (w1 := mkWalk (JsSet.add m (visited w)) (currentPath w ++ [m]) (longestPath w)).
  assert (visited_ok g (visited w1)) as Hok1 by by apply visited_ok_add.
  assert (length (visited w1) = S (length (visited w))) as Hlen1.
  { simpl. rewrite (JsSet_add_fresh _ _ Hhas), length_app. simpl. lia. }
  cbv zeta.
  destruct (noneOrEmpty (JsMap.get m (edges g))) eqn:Hleaf.
  - simpl. eexists. split; [done|]. simpl.
    assert (visited (recordLeaf w1) = visited w1 ∧
            currentPath (recordLeaf w1) = currentPath w1) as [-> ->].
    { unfold recordLeaf. by case_decide. }
    simpl. by rewrite JsSet_delete_added, removelast_last.
  - destruct (JsMap.get m (edges g)) as [cs|] eqn:Hcs; [|done]. simpl.
    destruct (loop_returns
                (λ w', visited w' = visited w1 ∧ currentPath w' = currentPath w1)
                (λ w child, criticalDfs fuel g child w) cs w1)
      as (w2 & -> & Hv2 & Hp2); [done| |].
    + intros w' child [Hv Hp] Hchild.
      destruct (IH child w') as (w'' & -> & Hv'' & Hp'').
      * by rewrite Hv.
      * by eapply children_vertices.
      * rewrite Hv. lia.
      * exists w''. split; [done|]. split; congruence.
    + simpl. eexists. split; [done|]. simpl. rewrite Hv2, Hp2. simpl.
      by rewrite JsSet_delete_added, removelast_last.
Qed.

Lemma criticalDfs_mono fuel m w r :
  criticalDfs fuel g m w = Some r → criticalDfs (S fuel) g m w = Some r.
Proof.
  revert m w r. induction fuel as [|fuel IH]; intros m w r; [done|].
  rewrite (criticalDfs_unfold (S fuel)), (criticalDfs_unfold fuel).
  destruct (JsSet.has m (visited w)); [done|]. cbv zeta.
  destruct (noneOrEmpty (JsMap.get m (edges g))); [done|].
  destruct (loop _ _ _) as [w2|] eqn:Hloop; [|done].
  eapply loop_mono in Hloop; [by rewrite Hloop|].
  intros ???. apply IH.
Qed.

Lemma criticalDfs_mono_add fuel extra m w r :
  criticalDfs fuel g m w = Some r → criticalDfs (fuel + extra) g m w = Some r.
Proof.
  intros H. induction extra as [|extra IH].
  - by rewrite Nat.add_0_r.
  - rewrite Nat.add_succ_r. by apply criticalDfs_mono.
Qed.

Lemma getCriticalPath_unfold fuel :
  getCriticalPath fuel g =
  longestPath <$>
    loop (λ w top, criticalDfs fuel g top (mkWalk (visited w) [] (longestPath w)))
         (mkWalk JsSet.empty [] []) (getTopLevelModules g).
Proof. reflexivity. Qed.

Lemma getCriticalPath_returns :
  ∃ path, ∀ extra, getCriticalPath (depthBound g + extra) g = Some path.
Proof.
  destruct (loop_returns (λ w, visited w = [])
              (λ w top, criticalDfs (depthBound g) g top
                          (mkWalk (visited w) [] (longestPath w)))
              (getTopLevelModules g) (mkWalk JsSet.empty [] []))
    as (w & Hloop & _); [done| |].
  - intros w top Hv Htop.
    destruct (criticalDfs_returns (depthBound g) top
                (mkWalk (visited w) [] (longestPath w)))
      as (w' & -> & Hv' & _); simpl.
    + rewrite Hv. split; [constructor|]. by intros ? ?%elem_of_nil.
    + by apply topLevel_vertices.
    + unfold depthBound. lia.
    + exists w'. split; [done|]. by rewrite Hv'.
  - exists (longestPath w). intros extra. rewrite getCriticalPath_unfold.
    eapply loop_mono in Hloop; [by rewrite Hloop|].
    intros w0 top r. apply criticalDfs_mono_add.
Qed.

(** *** [getModuleComplexity] *)

Lemma depthDfs_unfold fuel m vis :
  depthDfs (S fuel) g m vis =
  if JsSet.has m vis then Some (0, vis)
  else
    let vis1 := JsSet.add m vis in
    if noneOrEmpty (JsMap.get m (edges g)) then Some (1, vis1)
    else
      r ← loop (λ r child, d ← depthDfs fuel g child r.2;
                           Some (Nat.max r.1 d.1, d.2))
               (0, vis1) (default JsSet.empty (JsMap.get m (edges g)));
      Some (r.1 + 1, r.2).
Proof. reflexivity. Qed.

(** With enough fuel the walk returns; the visited set only grows. *)
Lemma depthDfs_returns fuel m vis :
  visited_ok g vis → m ∈ vertices g →
  length (vertices g) < fuel + length vis →
  ∃ r, depthDfs fuel g m vis = Some r ∧
       visited_ok g r.2 ∧ length vis ≤ length r.2.
Proof.
  revert m vis. induction fuel as [|fuel IH]; intros m vis Hok Hm Hfuel.
  { apply visited_ok_length in Hok. lia. }
  rewrite depthDfs_unfold.
  destruct (JsSet.has m vis) eqn:Hhas; [by exists (0, vis)|].
  assert (visited_ok g (JsSet.add m vis)) as Hok1 by by apply visited_ok_add.
  assert (length (JsSet.add m vis) = S (length vis)) as Hlen1.
  { rewrite (JsSet_add_fresh _ _ Hhas), length_app. simpl. lia. }
  cbv zeta.
  destruct (noneOrEmpty (JsMap.get m (edges g))) eqn:Hleaf.
  { exists (1, JsSet.add m vis). split_and!; [done..|]. simpl. lia. }
  destruct (JsMap.get m (edges g)) as [cs|] eqn:Hcs; [|done]. simpl.
  destruct (loop_returns
              (λ r : nat * JsSet.t, visited_ok g r.2 ∧ S (length vis) ≤ length r.2)
              (λ r child, d ← depthDfs fuel g child r.2; Some (Nat.max r.1 d.1, d.2))
              cs (0, JsSet.add m vis))
    as (r & -> & Hokr & Hlenr).
  - split; [done|]. simpl. lia.
  - intros r child [Hokr Hlenr] Hchild.
    destruct (IH child r.2) as (d & -> & Hokd & Hlend).
    + done.
    + by eapply children_vertices.
    + lia.
    + eexists. split; [done|]. simpl. split; [done|lia].
  - eexists. split; [done|]. simpl. split; [done|lia].
Qed.

Lemma depthDfs_mono fuel m vis r :
  depthDfs fuel g m vis = Some r → depthDfs (S fuel) g m vis = Some r.
Proof.
  revert m vis r. induction fuel as [|fuel IH]; intros m vis r; [done|].
  rewrite (depthDfs_unfold (S fuel)), (depthDfs_unfold fuel).
  destruct (JsSet.has m vis); [done|]. cbv zeta.
  destruct (noneOrEmpty (JsMap.get m (edges g))); [done|].
  destruct (loop _ _ _) as [r2|] eqn:Hloop; [|done].
  eapply loop_mono in Hloop; [by rewrite Hloop|].
  intros r0 child r1.
  destruct (depthDfs fuel g child r0.2) as [d|] eqn:Hd; [|done].
  by rewrite (IH _ _ _ Hd).
Qed.

Lemma depthDfs_mono_add fuel extra m vis r :
  depthDfs fuel g m vis = Some r → depthDfs (fuel + extra) g m vis = Some r.
Proof.
  intros H. induction extra as [|extra IH].
  - by rewrite Nat.add_0_r.
  - rewrite Nat.add_succ_r. by apply depthDfs_mono.
Qed.

Lemma getModuleComplexity_returns moduleName :
  ∃ c, ∀ extra, getModuleComplexity (depthBound g + extra) g moduleName = Some c.
Proof.
  unfold getModuleComplexity, calculateHierarchyDepth.
  destruct (JsMap.get moduleName (nodes g)) as [node|] eqn:Hnode; [|by eexists].
  destruct (depthDfs_returns (depthBound g) moduleName JsSet.empty)
    as (r & Hr & _).
  - split; [constructor|]. by intros ? ?%elem_of_nil.
  - by eapply node_vertices.
  - unfold depthBound. simpl. lia.
  - eexists. intros extra.
    by rewrite (depthDfs_mono_add _ extra _ _ _ Hr).
Qed.
End Walks.

(** C7.  On every graph produced by [buildGraph], [getCriticalPath] and
    [getModuleComplexity name] return: with recursion depth
    [depthBound g] or more, each yields a result, the same for every such
    depth.  This includes cyclic input: when [ping] instantiates [pong],
    [pong] instantiates [ping] and [board] instantiates [ping], the critical
    path is empty (no leaf is reached) and the hierarchy depth of [ping]
    is 2. *)
Theorem C7_graph_walks_terminate :
  (∀ modules instances moduleName,
     let g := GraphBuilder.buildGraph modules instances in
     (∃ path, ∀ extra,
        GraphBuilder.getCriticalPath (GraphBuilder.depthBound g + extra) g = Some path) ∧
     (∃ c, ∀ extra,
        GraphBuilder.getModuleComplexity (GraphBuilder.depthBound g + extra) g moduleName
        = Some c)) ∧
  (let g := GraphBuilder.buildGraph [Designs.board; Designs.ping; Designs.pong]
              [Designs.u_ping; Designs.u_pong; Designs.u_back] in
   JsMap.get "ping" (GraphBuilder.edges g) = Some ["pong"] ∧
   JsMap.get "pong" (GraphBuilder.edges g) = Some ["ping"] ∧
   GraphBuilder.getCriticalPath (GraphBuilder.depthBound g) g = Some [] ∧
   GraphBuilder.hierarchyDepth <$>
     GraphBuilder.getModuleComplexity (GraphBuilder.depthBound g) g "ping" = Some 2).
Proof.
  split.
  - intros modules instances moduleName g. split.
    + apply getCriticalPath_returns.
    + apply getModuleComplexity_returns.
  - by vm_compute.
Qed.

(** ** Sorting with a comparison function *)

Section SortFacts.
Context {A : Type}.
Variable cmp : A → A → Z.
Implicit Types (x y : A) (l : list A).

Lemma insert_Permutation x l : JsArray.insert cmp x l ≡ₚ x :: l.
Proof.
  induction l as [|y l IH]; simpl; [done|].
  case_decide; [done|]. rewrite IH. apply Permutation_swap.
Qed.

Lemma sort_Permutation l : JsArray.sort cmp l ≡ₚ l.
Proof.
  induction l as [|x l IH]; simpl; [done|].
  by rewrite insert_Permutation, IH.
Qed.

Lemma sort_Forall (P : A → Prop) l : Forall P l → Forall P (JsArray.sort cmp l).
Proof. intros H. by rewrite sort_Permutation. Qed.

Section Consistent.
(** The comparison function is total and transitive on the elements that
    satisfy [P]. *)
Variable P : A → Prop.
Hypothesis cmp_total : ∀ x y, P x → P y → ¬ keeps cmp x y → keeps cmp y x.
Hypothesis cmp_trans :
  ∀ x y z, P x → P y → P z → keeps cmp x y → keeps cmp y z → keeps cmp x z.

Lemma insert_StronglySorted x l :
  P x → Forall P l →
  StronglySorted (keeps cmp) l → StronglySorted (keeps cmp) (JsArray.insert cmp x l).
Proof.
  intros Hx HP Hl. induction Hl as [|y l Hl IH Hy]; simpl.
  - repeat constructor.
  - apply Forall_cons in HP as [HPy HPl]. case_decide as Hxy.
    + constructor; [by constructor|]. constructor; [done|].
      rewrite Forall_forall in Hy, HPl. apply Forall_forall. intros z Hz.
      apply (cmp_trans x y z); auto.
    + constructor; [by apply IH|].
      rewrite insert_Permutation. constructor; [|done].
      by apply cmp_total.
Qed.

Lemma sort_StronglySorted l :
  Forall P l → StronglySorted (keeps cmp) (JsArray.sort cmp l).
Proof.
  induction 1 as [|x l Hx Hl IH]; simpl; [constructor|].
  apply insert_StronglySorted; [done| |done]. by apply sort_Forall.
Qed.
End Consistent.

(** Stability: elements that the comparison function does not separate
    keep their relative order. *)
Lemma insert_filter (E : A → Prop) `{!∀ x, Decision (E x)} x l :
  (∀ y, E x → E y → keeps cmp x y) →
  filter E (JsArray.insert cmp x l) = filter E (x :: l).
Proof.
  intros HE. induction l as [|y l IH]; simpl; [done|].
  case_decide as Hxy; [done|].
  rewrite (filter_cons _ y), IH, !filter_cons.
  destruct (decide (E x)) as [Hx|Hx]; [|done].
  destruct (decide (E y)) as [Hy|Hy]; [|done].
  destruct Hxy. by apply HE.
Qed.

Lemma sort_stable (E : A → Prop) `{!∀ x, Decision (E x)} l :
  (∀ x y, E x → E y → keeps cmp x y) →
  filter E (JsArray.sort cmp l) = filter E l.
Proof.
  intros HE. induction l as [|x l IH]; simpl; [done|].
  rewrite insert_filter by (intros; by apply HE).
  by rewrite !filter_cons, IH.
Qed.

Lemma StronglySorted_on (P : A → Prop) (R Q : A → A → Prop) l :
  (∀ x y, P x → P y → R x y → Q x y) →
  Forall P l → StronglySorted R l → StronglySorted Q l.
Proof.
  intros HRQ HP Hl. induction Hl as [|x l Hl IH Hx]; [constructor|].
  apply Forall_cons in HP as [HPx HPl]. constructor; [by apply IH|].
  rewrite Forall_forall in Hx, HPl. apply Forall_forall. intros y Hy.
  apply HRQ; auto.
Qed.
End SortFacts.

(** ** Ordering of search results *)

Section ResultOrder.
Import SearchEngine.
Variable localeCompare : string → string → Z.
Variable textBackend : string → string → list TextMatch.
Implicit Types (a b c r : SearchResult).

Abbreviation compareResults := (SearchEngine.compareResults localeCompare).
Abbreviation sortResults := (SearchEngine.sortResults localeCompare).
Abbreviation collectResults := (SearchEngine.collectResults textBackend).
Abbreviation search := (SearchEngine.search localeCompare textBackend).

Lemma compareResults_established a b :
  well_formed a → well_formed b →
  keeps compareResults a b ↔ established_order localeCompare a b.
Proof.
  unfold well_formed, keeps, established_order, SearchEngine.compareResults,
    byFileThenLine, scoreOf.
  destruct (r_type a), (r_type b); intros Ha Hb.
  - destruct Ha as [sa ->], Hb as [sb ->]. simpl. lia.
  - split; [done|lia].
  - split; [lia|done].
  - rewrite Ha. simpl. case_decide; lia.
Qed.

Section Collation.
(** [localeCompare] orders strings consistently. *)
Hypothesis localeCompare_antisym :
  ∀ x y, Z.sgn (localeCompare y x) = (- Z.sgn (localeCompare x y))%Z.
Hypothesis localeCompare_trans :
  ∀ x y z, (localeCompare x y ≤ 0 → localeCompare y z ≤ 0 → localeCompare x z ≤ 0)%Z.

Lemma established_total a b :
  well_formed a → well_formed b →
  ¬ established_order localeCompare a b → established_order localeCompare b a.
Proof.
  unfold well_formed, established_order, byFileThenLine, scoreOf.
  destruct (r_type a), (r_type b); intros Ha Hb; try tauto; [lia|].
  pose proof (localeCompare_antisym (r_file a) (r_file b)). lia.
Qed.

Lemma established_trans a b c :
  well_formed a → well_formed b → well_formed c →
  established_order localeCompare a b → established_order localeCompare b c →
  established_order localeCompare a c.
Proof.
  unfold well_formed, established_order, byFileThenLine, scoreOf.
  destruct (r_type a), (r_type b), (r_type c); intros Ha Hb Hc; try tauto; [lia|].
  pose proof (localeCompare_antisym (r_file a) (r_file b)).
  pose proof (localeCompare_antisym (r_file b) (r_file c)).
  pose proof (localeCompare_antisym (r_file a) (r_file c)).
  pose proof (localeCompare_trans (r_file a) (r_file b) (r_file c)).
  pose proof (localeCompare_trans (r_file b) (r_file c) (r_file a)).
  pose proof (localeCompare_trans (r_file c) (r_file a) (r_file b)).
  lia.
Qed.

Lemma sortResults_established l :
  Forall well_formed l → StronglySorted (established_order localeCompare) (sortResults l).
Proof.
  intros Hl.
  apply (StronglySorted_on well_formed (keeps compareResults)).
  - intros x y ? ?. by apply compareResults_established.
  - by apply sort_Forall.
  - apply (sort_StronglySorted compareResults well_formed); [| |done].
    + intros x y ? ?. rewrite !compareResults_established by done.
      by apply established_total.
    + intros x y z ? ? ?. rewrite !compareResults_established by done.
      by apply established_trans.
Qed.
End Collation.

Lemma sortResults_stable s l :
  filter (scored s) (sortResults l) = filter (scored s) l.
Proof.
  apply sort_stable. intros x y [Hx Hsx] [Hy Hsy].
  unfold keeps, SearchEngine.compareResults. rewrite Hx, Hy, Hsx, Hsy. lia.
Qed.

Lemma scoreSymbol_well_formed query symbol r :
  scoreSymbol query symbol = Some r → well_formed r.
Proof.
  unfold scoreSymbol. case_decide; [|done]. intros [= <-].
  unfold well_formed. simpl. by eexists.
Qed.

Lemma searchSymbols_well_formed index query :
  Forall well_formed (searchSymbols index query).1.
Proof.
  simpl. apply Forall_forall. intros r (symbol & _ & Hr)%list_elem_of_omap.
  by eapply scoreSymbol_well_formed.
Qed.

Lemma searchText_well_formed repoPath query :
  Forall well_formed (searchText textBackend repoPath query).1.
Proof.
  unfold searchText. case_decide; simpl; [constructor|].
  apply Forall_forall. by intros r (m & -> & _)%list_elem_of_fmap.
Qed.

Lemma collectResults_well_formed index repoPath query type :
  Forall well_formed (collectResults index repoPath query type).1.
Proof.
  unfold SearchEngine.collectResults. simpl. apply Forall_app. split.
  - destruct (_ || _); [apply searchSymbols_well_formed|constructor].
  - destruct (_ || _); [apply searchText_well_formed|constructor].
Qed.

Lemma search_sorted_collect index repoPath query type :
  (search index repoPath query type).1 =
  sortResults (collectResults index repoPath query type).1.
Proof. reflexivity. Qed.

Lemma scored_scoreSymbol s query (l : list Symbol) :
  (0 < s)%Z →
  filter (scored s) (omap (scoreSymbol query) l) =
  symbolResult s <$> filter (λ symbol, calculateSymbolScore symbol query = s) l.
Proof.
  intros Hs. induction l as [|sym l IH]; [done|].
  change (omap (scoreSymbol query) (sym :: l)) with
    (match scoreSymbol query sym with
     | Some r => r :: omap (scoreSymbol query) l
     | None => omap (scoreSymbol query) l
     end).
  rewrite (filter_cons _ sym). unfold scoreSymbol at 1.
  destruct (decide (0 < calculateSymbolScore sym query)%Z) as [Hpos|Hpos].
  - rewrite filter_cons, IH.
    destruct (decide (calculateSymbolScore sym query = s)) as [->|Hne].
    + by rewrite decide_True.
    + rewrite decide_False; [done|]. intros [_ [=]]. done.
  - rewrite IH. rewrite decide_False by lia. done.
Qed.

(** The symbol results that [search] collects for a positive score [s] are
    those of the symbols with that score, in the order of [listSymbols]. *)
Lemma scored_searchSymbols s index query :
  (0 < s)%Z →
  filter (scored s) (searchSymbols index query).1 =
  symbolResult s <$>
    filter (λ symbol, calculateSymbolScore symbol query = s)
           (SymbolIndexer.listSymbols index).
Proof. apply scored_scoreSymbol. Qed.

Lemma scored_textResults s (l : list TextMatch) :
  filter (scored s) (textResult <$> l) = [].
Proof.
  induction l as [|m l IH]; [done|]. rewrite fmap_cons, filter_cons, IH.
  rewrite decide_False; [done|]. by intros [[=] _].
Qed.

Lemma scored_searchText s repoPath query :
  filter (scored s) (searchText textBackend repoPath query).1 = [].
Proof.
  unfold searchText. case_decide; simpl; [done|]. apply scored_textResults.
Qed.
End ResultOrder.

(** ** [search] *)

Section Search.
Import SearchEngine.
Variable localeCompare : string → string → Z.
Variable textBackend : string → string → list TextMatch.
Hypothesis localeCompare_antisym :
  ∀ x y, Z.sgn (localeCompare y x) = (- Z.sgn (localeCompare x y))%Z.
Hypothesis localeCompare_trans :
  ∀ x y z, (localeCompare x y ≤ 0 → localeCompare y z ≤ 0 → localeCompare x z ≤ 0)%Z.

(** C6, as the code has it.  Every result list returned by [search] has
    all symbol-type results before all text-type results; the symbol-type
    results are in descending score order, and those with the same score
    stay in the order in which [listSymbols] returned their symbols (the
    comparison function returns the score difference and never looks at
    their file or line); the text-type results, which carry no score, are
    sorted by file path and then by ascending line number. *)
Theorem C6_search_results_order (index : SymbolIndexer.State)
    (repoPath query : string) (type : option string) :
  let out := (search localeCompare textBackend index repoPath query type).1 in
  StronglySorted (established_order localeCompare) out ∧
  out ≡ₚ (collectResults textBackend index repoPath query type).1 ∧
  ∀ s, (0 < s)%Z →
       filter (scored s) out =
       if falsy type || bool_decide (type = Some "symbol")
       then symbolResult s <$>
              filter (λ symbol, calculateSymbolScore symbol query = s)
                     (SymbolIndexer.listSymbols index)
       else [].
Proof.
  intros out. subst out. rewrite search_sorted_collect. split_and!.
  - apply sortResults_established; [done..|]. apply collectResults_well_formed.
  - apply sort_Permutation.
  - intros s Hs. rewrite sortResults_stable.
    unfold SearchEngine.collectResults, bind. cbn [fst snd ret].
    rewrite filter_app.
    assert (∀ b : bool, filter (scored s)
              (if b then searchText textBackend repoPath query else ret []).1 = [])
      as ->.
    { intros []; [apply scored_searchText|done]. }
    rewrite app_nil_r.
    destruct (falsy type || bool_decide (type = Some "symbol")); [|done].
    by apply scored_searchSymbols.
Qed.
End Search.

(** *** A consistent collation and two worked searches *)

Lemma Platform_localeCompare_antisym x y :
  Z.sgn (Platform.localeCompare y x) = (- Z.sgn (Platform.localeCompare x y))%Z.
Proof.
  unfold Platform.localeCompare. rewrite (String.compare_antisym x y).
  by destruct (y ?= x)%string.
Qed.

Lemma Platform_localeCompare_le x y :
  (Platform.localeCompare x y ≤ 0)%Z ↔ String.le x y.
Proof.
  unfold Platform.localeCompare, String.le, String.leb.
  destruct (x ?= y)%string; simpl; split; try done; lia.
Qed.

Lemma Platform_localeCompare_trans x y z :
  (Platform.localeCompare x y ≤ 0 → Platform.localeCompare y z ≤ 0 →
   Platform.localeCompare x z ≤ 0)%Z.
Proof.
  rewrite !Platform_localeCompare_le. intros ? ?. by etrans.
Qed.

(** Searching "foo" in an index of two files that each declare [foo]. *)
Lemma C6_search_results_order_witness :
  let index :=
    (Platform.updateFile "/" "/rtl/a.v" (Some "module foo")
       (Platform.updateFile "/" "/rtl/b.v" (Some "module foo") SymbolIndexer.empty).1).1 in
  StronglySorted (established_order Platform.localeCompare)
    (SearchEngine.search Platform.localeCompare (λ _ _, []) index "" "foo" None).1.
Proof.
  intros index.
  exact (proj1 (C6_search_results_order Platform.localeCompare (λ _ _, [])
                  Platform_localeCompare_antisym Platform_localeCompare_trans
                  index "" "foo" None)).
Defined.

(** C6 as stated fails: both symbols score 100 for the query "foo", and
    the result for "/rtl/b.v", indexed first, stays ahead of the result for
    "/rtl/a.v"; equal scores are not ordered by file path. *)
Lemma C6_equal_scores_not_ordered_by_file :
  let index :=
    (Platform.updateFile "/" "/rtl/a.v" (Some "module foo")
       (Platform.updateFile "/" "/rtl/b.v" (Some "module foo") SymbolIndexer.empty).1).1 in
  let out :=
    (SearchEngine.search Platform.localeCompare (λ _ _, []) index "" "foo" None).1 in
  SearchEngine.r_file <$> out = ["/rtl/b.v"; "/rtl/a.v"] ∧
  SearchEngine.r_score <$> out = [Some 100%Z; Some 100%Z] ∧
  ¬ Sorted (documented_order Platform.localeCompare) out.
Proof.
  split_and!; [by vm_compute..|].
  intros H. apply Sorted_inv in H as [_ H]. apply HdRel_inv in H.
  vm_compute in H. destruct H as [H|[_ [H|[H _]]]]; discriminate H.
Qed.

(** ** The search handler *)

Section SearchHandler.
Import SearchEngine HttpServer.
Variable localeCompare : string → string → Z.
Variable textBackend : string → string → list TextMatch.
Variable now : Z.
Variable index : SymbolIndexer.State.
Variable repoPath : string.

Abbreviation handleSearch :=
  (HttpServer.handleSearch localeCompare textBackend now index repoPath).


(** A request in symbol mode with a non-empty query does reach the engine:
    its first recorded work is the scoring pass. *)
Lemma handleSearch_symbol_mode_scores (query : string) :
  query ≠ "" →
  head (handleSearch (Some query) None).2 =
  Some (ScoringPass query (length (SymbolIndexer.listSymbols index))).
Proof.
  intros Hq. unfold HttpServer.handleSearch. simpl.
  by rewrite bool_decide_eq_false_2.
Qed.
End SearchHandler.


(** ** Worked examples *)

Example levenshtein_kitten_sitting :
  SearchEngine.levenshteinDistance (JsString.chars "kitten") (JsString.chars "sitting") = 3.
Proof. reflexivity. Qed.

Example score_of_near_miss :
  SearchEngine.calculateSymbolScore (symbol_named "zlu" (mkSymbol "" "" "" "" "" 0 0 "" "")) "alu"
  = 55%Z.
Proof. reflexivity. Qed.

(** The end-to-end scenario of the design document: nodes [alu] and
    [cpu_core], the forward edge from [cpu_core] to [alu], and [cpu_core]
    as the only top-level module. *)
Example design_document_scenario :
  let g := GraphBuilder.buildGraph [Designs.alu; Designs.cpu_core] [Designs.u_alu] in
  JsMap.keys (GraphBuilder.nodes g) = ["alu"; "cpu_core"] ∧
  GraphBuilder.edges g = [("cpu_core", ["alu"])] ∧
  GraphBuilder.reverseEdges g = [("alu", ["cpu_core"])] ∧
  GraphBuilder.getTopLevelModules g = ["cpu_core"] ∧
  GraphBuilder.getLeafModules g = ["alu"] ∧
  GraphBuilder.getCriticalPath (GraphBuilder.depthBound g) g = Some ["cpu_core"; "alu"] ∧
  GraphBuilder.hierarchyDepth <$>
    GraphBuilder.getModuleComplexity (GraphBuilder.depthBound g) g "cpu_core" = Some 2.
Proof. by vm_compute. Qed.

(* ================================================================== *)
(** * Part IV.  Further properties of the code                         *)
(* ================================================================== *)

(** ** More facts about [JsMap] *)

Section JsMapKeys.
Context {V : Type}.
Implicit Types (m : JsMap.t V) (k : string) (v : V).

Lemma JsMap_has_keys m k : JsMap.has k m = true ↔ k ∈ JsMap.keys m.
Proof.
  unfold JsMap.has, JsMap.keys. induction m as [|[k0 v0] m IH]; simpl.
  - split; [done|]. by intros ?%elem_of_nil.
  - rewrite elem_of_cons. destruct (decide (k0 = k)) as [->|Hne].
    + split; auto.
    + rewrite IH. split; [auto|]. by intros [?|?].
Qed.

Lemma JsMap_has_false_keys m k : JsMap.has k m = false ↔ k ∉ JsMap.keys m.
Proof. rewrite <-JsMap_has_keys. by destruct (JsMap.has k m). Qed.

Lemma JsMap_get_keys m k : is_Some (JsMap.get k m) ↔ k ∈ JsMap.keys m.
Proof. by rewrite <-JsMap_has_keys, JsMap_has_get. Qed.

Lemma JsMap_keys_set m k v :
  JsMap.keys (JsMap.set k v m) =
  if JsMap.has k m then JsMap.keys m else JsMap.keys m ++ [k].
Proof.
  unfold JsMap.keys, JsMap.has. induction m as [|[k0 v0] m IH]; [done|].
  cbn [JsMap.set JsMap.get].
  destruct (decide (k0 = k)) as [->|Hne]; [by rewrite !fmap_cons|].
  rewrite !fmap_cons, IH. by destruct (JsMap.get k m).
Qed.

Lemma JsMap_keys_delete m k :
  JsMap.keys (JsMap.delete k m) = filter (λ y, y ≠ k) (JsMap.keys m).
Proof.
  unfold JsMap.keys, JsMap.delete. induction m as [|[k0 v0] m IH]; [done|].
  rewrite fmap_cons, !filter_cons. cbn [fst].
  destruct (decide (k0 ≠ k)); [rewrite fmap_cons|]; by rewrite IH.
Qed.

Lemma JsMap_size_keys m : JsMap.size m = length (JsMap.keys m).
Proof. unfold JsMap.size, JsMap.keys. by rewrite length_fmap. Qed.

Lemma filter_ne_length (l : list string) k :
  length (filter (λ y, y ≠ k) l) ≤ length l.
Proof. apply length_filter. Qed.

Lemma filter_ne_length_elem (l : list string) k :
  k ∈ l → length (filter (λ y, y ≠ k) l) < length l.
Proof.
  induction l as [|x l IH]; [by intros ?%elem_of_nil|].
  rewrite filter_cons. intros [->|Hin]%elem_of_cons.
  - rewrite decide_False by (intros ?; done). simpl.
    pose proof (filter_ne_length l x). lia.
  - specialize (IH Hin). destruct (decide (x ≠ k)); simpl; lia.
Qed.

Lemma filter_ne_notin (l : list string) k : k ∉ l → filter (λ y, y ≠ k) l = l.
Proof.
  induction l as [|x l IH]; [done|]. intros Hk.
  rewrite filter_cons, decide_True, IH; [done| |].
  - intros ?. apply Hk. by right.
  - intros ->. apply Hk. by left.
Qed.

Lemma JsMap_keys_NoDup_set m k v :
  NoDup (JsMap.keys m) → NoDup (JsMap.keys (JsMap.set k v m)).
Proof.
  intros Hm. rewrite JsMap_keys_set. destruct (JsMap.has k m) eqn:Hk; [done|].
  apply JsMap_has_false_keys in Hk.
  apply NoDup_app. split_and!; [done| |apply NoDup_singleton].
  by intros x Hx ->%list_elem_of_singleton.
Qed.

Lemma JsMap_keys_NoDup_delete m k :
  NoDup (JsMap.keys m) → NoDup (JsMap.keys (JsMap.delete k m)).
Proof. rewrite JsMap_keys_delete. apply NoDup_filter. Qed.
End JsMapKeys.

(** ** The LRU cache *)

Section LruCacheFacts.
Import LruCache.
Context {V : Type}.
Implicit Types (c : State V) (k key : string) (v : V) (now : Z) (op : Call V).

Lemma cache_ok_create max ttl : cache_ok (create (V:=V) max ttl).
Proof.
  unfold cache_ok. simpl. split_and!; try constructor.
  by intros k ?%elem_of_nil.
Qed.

Lemma cache_ok_remove k c :
  cache_ok c →
  cache_ok (mkCache (JsMap.delete k (cache c)) (maxSize c) (maxAge c)
                    (JsMap.delete k (timestamps c))).
Proof.
  intros (Hc & Ht & Hsub). unfold cache_ok. simpl. rewrite !JsMap_keys_delete.
  split_and!; [by apply NoDup_filter..|].
  intros x [? Hx]%list_elem_of_filter. apply list_elem_of_filter. auto.
Qed.

Lemma cache_ok_evictFirst c : cache_ok c → cache_ok (evictFirst c).
Proof.
  intros Hok. unfold evictFirst.
  destruct (JsMap.keys (cache c)) as [|first rest]; [done|].
  by apply cache_ok_remove.
Qed.

Lemma cache_ok_set now key v c : cache_ok c → cache_ok (set now key v c).
Proof.
  intros Hok. unfold set.
  set (c1 := if _ && _ then evictFirst c else c).
  assert (cache_ok c1) as (Hc & Ht & Hsub).
  { subst c1. destruct (_ && _); [by apply cache_ok_evictFirst|done]. }
  unfold cache_ok. simpl. split_and!.
  - by apply JsMap_keys_NoDup_set.
  - by apply JsMap_keys_NoDup_set.
  - intros k. rewrite <-!JsMap_get_keys, !JsMap_get_set.
    case_decide; [by eauto|]. rewrite !JsMap_get_keys. apply Hsub.
Qed.

Lemma cache_ok_get now key c : cache_ok c → cache_ok (get now key c).2.
Proof.
  intros (Hc & Ht & Hsub). unfold get.
  destruct (expired _ _ _).
  - by apply cache_ok_remove.
  - destruct (JsMap.get key (cache c)) as [v|] eqn:Hget; [|done].
    unfold cache_ok. simpl. split_and!; [|done|].
    + by apply JsMap_keys_NoDup_set, JsMap_keys_NoDup_delete.
    + intros k. rewrite <-JsMap_get_keys, JsMap_get_set.
      case_decide as Hk.
      * intros _. subst k. apply Hsub, JsMap_get_keys. by eexists.
      * rewrite JsMap_get_delete, decide_False by done.
        rewrite JsMap_get_keys. apply Hsub.
Qed.

Lemma cache_ok_call c op : cache_ok c → cache_ok (call c op).
Proof.
  intros Hok. destruct op; simpl.
  - by apply cache_ok_set.
  - by apply cache_ok_get.
  - by apply cache_ok_remove.
  - unfold cache_ok. simpl. split_and!; try constructor.
    by intros k ?%elem_of_nil.
Qed.

Lemma cache_ok_run ops c : cache_ok c → cache_ok (run ops c).
Proof.
  revert c. induction ops as [|op ops IH]; intros c Hok; [done|].
  apply IH. by apply cache_ok_call.
Qed.

Lemma cacheReached_ok c : cacheReached c → cache_ok c.
Proof. intros (max & ttl & ops & ->). apply cache_ok_run, cache_ok_create. Qed.

End LruCacheFacts.

Section LruCacheProps.
Import LruCache.
Context {V : Type}.
Implicit Types (c : State V) (k key : string) (v : V) (now : Z) (op : Call V).

Lemma JsMap_size_set (m : JsMap.t V) k v :
  JsMap.size (JsMap.set k v m) =
  if JsMap.has k m then JsMap.size m else S (JsMap.size m).
Proof.
  rewrite !JsMap_size_keys, JsMap_keys_set.
  destruct (JsMap.has k m); [done|]. rewrite length_app. simpl. lia.
Qed.

Lemma JsMap_size_delete {W} (m : JsMap.t W) k :
  JsMap.size (JsMap.delete k m) ≤ JsMap.size m.
Proof. rewrite !JsMap_size_keys, JsMap_keys_delete. apply filter_ne_length. Qed.

Lemma JsMap_size_delete_has {W} (m : JsMap.t W) k :
  JsMap.has k m = true → JsMap.size (JsMap.delete k m) < JsMap.size m.
Proof.
  intros Hk%JsMap_has_keys. rewrite !JsMap_size_keys, JsMap_keys_delete.
  by apply filter_ne_length_elem.
Qed.

Lemma JsMap_has_delete {W} (m : JsMap.t W) k k' :
  JsMap.has k' (JsMap.delete k m) = if decide (k = k') then false else JsMap.has k' m.
Proof. unfold JsMap.has. rewrite JsMap_get_delete. by case_decide. Qed.

Lemma maxSize_call c op : maxSize (call c op) = maxSize c.
Proof.
  destruct op; simpl; try done.
  - unfold set. destruct (_ && _); [|done]. unfold evictFirst.
    by destruct (JsMap.keys (cache c)).
  - unfold get. destruct (expired _ _ _); [done|].
    by destruct (JsMap.get key (cache c)).
Qed.

Lemma within_capacity_set now key v c :
  within_capacity c → within_capacity (set now key v c).
Proof.
  unfold within_capacity, size, set. intros Hc.
  destruct (bool_decide (maxSize c ≤ Z.of_nat (JsMap.size (cache c)))%Z)
    eqn:Hfull; simpl.
  - destruct (JsMap.has key (cache c)) eqn:Hkey; simpl.
    + by rewrite JsMap_size_set, Hkey.
    + unfold evictFirst.
      destruct (JsMap.keys (cache c)) as [|first rest] eqn:Hkeys; simpl.
      * rewrite JsMap_size_set, Hkey, JsMap_size_keys, Hkeys. simpl. lia.
      * rewrite JsMap_size_set, JsMap_has_delete.
        assert (JsMap.has first (cache c) = true) as Hfirst.
        { apply JsMap_has_keys. rewrite Hkeys. by left. }
        apply JsMap_size_delete_has in Hfirst.
        destruct (decide (first = key)); [|rewrite Hkey]; lia.
  - apply bool_decide_eq_false in Hfull. rewrite JsMap_size_set.
    destruct (JsMap.has key (cache c)); lia.
Qed.

Lemma within_capacity_get now key c :
  within_capacity c → within_capacity (get now key c).2.
Proof.
  unfold within_capacity, size, get. intros Hc.
  destruct (expired _ _ _); simpl.
  - pose proof (JsMap_size_delete (cache c) key). lia.
  - destruct (JsMap.get key (cache c)) as [v|] eqn:Hget; [|done]. simpl.
    rewrite JsMap_size_set, JsMap_has_delete, decide_True by done.
    assert (JsMap.has key (cache c) = true) as Hkey.
    { apply JsMap_has_get. by eexists. }
    apply JsMap_size_delete_has in Hkey. lia.
Qed.

Lemma within_capacity_call c op : within_capacity c → within_capacity (call c op).
Proof.
  intros Hc. destruct op; simpl.
  - by apply within_capacity_set.
  - by apply within_capacity_get.
  - unfold within_capacity, size in *. simpl.
    pose proof (JsMap_size_delete (cache c) key). lia.
  - unfold within_capacity, size. simpl. lia.
Qed.

Lemma within_capacity_run ops c : within_capacity c → within_capacity (run ops c).
Proof.
  revert c. induction ops as [|op ops IH]; intros c Hc; [done|].
  apply IH. by apply within_capacity_call.
Qed.

Lemma maxSize_run ops c : maxSize (run ops c) = maxSize c.
Proof.
  revert c. induction ops as [|op ops IH]; intros c; [done|].
  simpl. fold (run ops (call c op)). by rewrite IH, maxSize_call.
Qed.

(** X1.  Whatever calls are made on a fresh cache of capacity [max], it
    never holds more than [max] entries, or more than one entry when [max]
    is below one (with capacity 0 the very first [set] finds nothing to
    evict and stores its entry). *)
Theorem lru_cache_never_exceeds_capacity (max : Z) (ttl : option Z)
    (ops : list (Call V)) :
  (Z.of_nat (size (run ops (create max ttl))) ≤ Z.max 1 max)%Z.
Proof.
  pose proof (within_capacity_run ops (create max ttl)) as H.
  unfold within_capacity in H. rewrite maxSize_run in H. apply H.
  change (0 ≤ Z.max 1 max)%Z. lia.
Qed.

Lemma get_set_value now later key v c :
  (∀ age, maxAge c = Some age → later - now ≤ age)%Z →
  let c1 := set now key v c in
  get later key c1 =
  (Some v, mkCache (JsMap.set key v (JsMap.delete key (cache c1)))
                   (maxSize c1) (maxAge c1) (timestamps c1)).
Proof.
  intros Hage c1. unfold get.
  assert (maxAge c1 = maxAge c) as Hmax.
  { subst c1. unfold set. destruct (_ && _); [|done]. unfold evictFirst.
    by destruct (JsMap.keys (cache c)). }
  assert (JsMap.get key (timestamps c1) = Some now) as ->
    by apply JsMap_get_set_eq.
  assert (JsMap.get key (cache c1) = Some v) as ->
    by apply JsMap_get_set_eq.
  assert (expired later (Some now) (maxAge c1) = false) as ->; [|done].
  rewrite Hmax. unfold expired. destruct (maxAge c) as [age|]; [|done].
  specialize (Hage age eq_refl).
  rewrite (bool_decide_eq_false_2 (age < later - now)%Z) by lia.
  apply andb_false_r.
Qed.

(** X2.  A value read back within the allowed age is the value that was
    stored: after [set(key, value)] at time [now], a [get(key)] at a time
    [later] that is not more than [maxAge] after [now] returns [value], and
    the key is still cached. *)
Theorem lru_cache_get_after_set now later key v c :
  (∀ age, maxAge c = Some age → later - now ≤ age)%Z →
  (get later key (set now key v c)).1 = Some v ∧
  has key (get later key (set now key v c)).2 = true.
Proof.
  intros Hage. rewrite get_set_value by done. split; [done|].
  unfold has. cbn [snd cache].
  apply JsMap_has_get. rewrite JsMap_get_set_eq. by eexists.
Qed.

(** X3.  Key order after [set] on a cache reached by calls, oldest first.
    A key that is already cached keeps its place (a [set] does not make it
    the most recent); a new key goes to the end, and when the cache is
    full the oldest key is dropped to make room. *)
Theorem lru_cache_set_key_order now key v c :
  cacheReached c →
  JsMap.keys (cache (set now key v c)) =
  if has key c then JsMap.keys (cache c)
  else if bool_decide (maxSize c ≤ Z.of_nat (size c))%Z
       then tail (JsMap.keys (cache c)) ++ [key]
       else JsMap.keys (cache c) ++ [key].
Proof.
  intros (Hnodup & _ & _)%cacheReached_ok. unfold set, has, size.
  destruct (JsMap.has key (cache c)) eqn:Hkey.
  - rewrite andb_false_r. simpl. by rewrite JsMap_keys_set, Hkey.
  - rewrite andb_true_r.
    destruct (bool_decide _); simpl.
    + unfold evictFirst.
      destruct (JsMap.keys (cache c)) as [|first rest] eqn:Hkeys; simpl.
      * by rewrite JsMap_keys_set, Hkey, Hkeys.
      * rewrite JsMap_keys_set, JsMap_has_delete, JsMap_keys_delete, Hkeys.
        apply NoDup_cons in Hnodup as [Hfirst _].
        rewrite filter_cons, (decide_False (P := first ≠ first)),
          (filter_ne_notin _ _ Hfirst) by (intros ?; done).
        destruct (decide (first = key)) as [Hk|Hk]; [|by rewrite Hkey].
        subst key. apply JsMap_has_false_keys in Hkey.
        destruct Hkey. rewrite Hkeys. by left.
    + by rewrite JsMap_keys_set, Hkey.
Qed.

(** X4.  A hit makes the key the most recently used one: when [get(key)]
    returns a value, [key] moves to the end of the key order, the other
    keys keep their relative order, and the value stays cached. *)
Theorem lru_cache_get_refreshes_key now key v c :
  (get now key c).1 = Some v →
  JsMap.keys (cache (get now key c).2) =
  filter (λ k, k ≠ key) (JsMap.keys (cache c)) ++ [key] ∧
  JsMap.get key (cache (get now key c).2) = Some v.
Proof.
  unfold get. destruct (expired _ _ _); [done|].
  destruct (JsMap.get key (cache c)) as [v'|] eqn:Hget; [|done].
  simpl. intros [= ->]. split; [|apply JsMap_get_set_eq].
  by rewrite JsMap_keys_set, JsMap_has_delete, decide_True, JsMap_keys_delete.
Qed.

(** X5.  No value outlives its time to live: when [get(key)] at time
    [now] returns a value from a cache reached by calls, the key has a time
    stamp and that stamp is not stale; and when the stamp of a key is
    stale, [get] returns nothing and drops the key. *)
Theorem lru_cache_get_respects_ttl now key c :
  cacheReached c →
  (∀ v, (get now key c).1 = Some v →
        ∃ t, JsMap.get key (timestamps c) = Some t ∧ ¬ stale now t c) ∧
  (∀ t, JsMap.get key (timestamps c) = Some t → stale now t c →
        (get now key c).1 = None ∧ has key (get now key c).2 = false).
Proof.
  intros (_ & _ & Hsub)%cacheReached_ok. split.
  - intros v. unfold get.
    destruct (expired now (JsMap.get key (timestamps c)) (maxAge c)) eqn:Hexp;
      [done|].
    destruct (JsMap.get key (cache c)) as [v'|] eqn:Hget; [|done].
    intros _.
    destruct (JsMap.get key (timestamps c)) as [t|] eqn:Ht.
    + exists t. split; [done|]. intros [Ht0 (age & Hage & Hold)].
      unfold expired in Hexp. rewrite Hage in Hexp.
      by rewrite !bool_decide_eq_true_2 in Hexp.
    + assert (key ∈ JsMap.keys (timestamps c)) as Hin.
      { apply Hsub, JsMap_get_keys. by eexists. }
      apply JsMap_get_keys in Hin as [? ?]. congruence.
  - intros t Ht [Ht0 (age & Hage & Hold)]. unfold get.
    rewrite Ht, Hage. unfold expired.
    rewrite !bool_decide_eq_true_2 by done. simpl. split; [done|].
    unfold has. simpl. by rewrite JsMap_has_delete, decide_True.
Qed.
End LruCacheProps.

(** Worked runs of the cache. *)

Lemma lru_cache_get_after_set_witness :
  (LruCache.get 50 "a" (LruCache.set 10 "a" 7 (LruCache.create 2 (Some 100%Z)))).1
  = Some 7.
Proof.
  refine (proj1 (lru_cache_get_after_set 10 50 "a" 7
                   (LruCache.create 2 (Some 100%Z)) _)).
  intros age [= <-]. lia.
Defined.

Lemma lru_cache_set_key_order_witness :
  JsMap.keys (LruCache.cache (LruCache.set 40 "d" 4 CacheDemo.warm)) = ["b"; "d"].
Proof.
  refine (lru_cache_set_key_order 40 "d" 4 CacheDemo.warm _).
  by eexists _, _, _.
Defined.

Lemma lru_cache_get_refreshes_key_witness :
  JsMap.keys (LruCache.cache (LruCache.get 35 "b" CacheDemo.warm).2) = ["a"; "b"].
Proof.
  refine (proj1 (lru_cache_get_refreshes_key 35 "b" 2 CacheDemo.warm _)).
  reflexivity.
Defined.

Lemma lru_cache_get_respects_ttl_witness :
  (LruCache.get 500 "a" CacheDemo.warm).1 = None ∧
  LruCache.has "a" (LruCache.get 500 "a" CacheDemo.warm).2 = false.
Proof.
  refine (proj2 (lru_cache_get_respects_ttl 500 "a" CacheDemo.warm _) 10%Z _ _).
  - by eexists _, _, _.
  - reflexivity.
  - split; [done|]. exists 100%Z. split; [reflexivity|lia].
Defined.

(** ** The keyed cache with hash validation *)

Section KVCacheProps.
Import KVCache.
Context {T : Type}.
Implicit Types (c : State T) (key : string) (now : Z).

(** X6.  Every [get] counts as exactly one hit or one miss, and a hit is
    counted exactly when data is returned.  When the caller passes a
    non-empty expected hash that differs from the hash of the cached
    entry, nothing is returned, the call counts as a miss, and the entry
    is removed. *)
Theorem kv_cache_get_counts_and_invalidates now key expectedHash c :
  let r := get now key expectedHash c in
  hitCount r.2 + missCount r.2 = S (hitCount c + missCount c) ∧
  (is_Some r.1 ↔ hitCount r.2 = S (hitCount c)) ∧
  (∀ entry expected,
     (LruCache.get now key (cache c)).1 = Some entry →
     expectedHash = Some expected → expected ≠ "" → hash entry ≠ expected →
     r.1 = None ∧ missCount r.2 = S (missCount c) ∧ has key r.2 = false).
Proof.
  intros r. subst r. unfold get.
  destruct (LruCache.get now key (cache c)).1 as [entry|] eqn:Hget; simpl.
  - destruct (mismatch expectedHash entry) eqn:Hmis; simpl.
    + split_and!; [lia| |].
      * split; [by intros [? ?]|lia].
      * intros _ expected _ _ _ _. split_and!; [done..|].
        unfold has, LruCache.has. simpl.
        by rewrite JsMap_has_delete, decide_True.
    + split_and!; [lia| |].
      * split; [done|by eexists].
      * intros entry' expected [= <-] -> Hne Hhash. unfold mismatch in Hmis.
        rewrite !bool_decide_eq_false_2 in Hmis by done. done.
  - split_and!; [lia| |done].
    split; [by intros [? ?]|lia].
Qed.
End KVCacheProps.

Lemma kv_cache_get_counts_and_invalidates_witness :
  let c := KVCache.set (λ _ : nat, 8) 10 10 "top.v" 7 "h1"
             (KVCache.create (Some 1000%Z) (Some 4%Z)) in
  (KVCache.get 20 "top.v" (Some "h2") c).1 = None ∧
  KVCache.missCount (KVCache.get 20 "top.v" (Some "h2") c).2 = 1 ∧
  KVCache.has "top.v" (KVCache.get 20 "top.v" (Some "h2") c).2 = false.
Proof.
  intros c.
  refine (proj2 (proj2 (kv_cache_get_counts_and_invalidates 20 "top.v" (Some "h2") c))
            (KVCache.mkEntry 7 10 "h1" 8) "h2" _ _ _ _); try done.
Defined.

(** ** [findModulePath] *)

Section FindModulePath.
Import GraphBuilder.
Variable g : ModuleGraph.
Implicit Types (st : PathSearch) (cur t a c : string) (q l : list string).

Lemma pathDfs_unfold fuel t cur st :
  pathDfs (S fuel) g t cur st =
  if decide (cur = t) then
    Some (true, mkPathSearch (ps_visited st) (ps_path st ++ [cur]))
  else if JsSet.has cur (ps_visited st) then Some (false, st)
  else
    match pathScan fuel g t
            (Some (false, mkPathSearch (JsSet.add cur (ps_visited st))
                                       (ps_path st ++ [cur])))
            (successors g cur) with
    | Some (true, st') => Some (true, st')
    | Some (false, st') =>
        Some (false, mkPathSearch (ps_visited st') (removelast (ps_path st')))
    | None => None
    end.
Proof. reflexivity. Qed.

Lemma pathScan_nil fuel t acc : pathScan fuel g t acc [] = acc.
Proof. done. Qed.

Lemma pathScan_found fuel t st cs :
  pathScan fuel g t (Some (true, st)) cs = Some (true, st).
Proof. by induction cs. Qed.

Lemma pathScan_None fuel t cs : pathScan fuel g t None cs = None.
Proof. by induction cs. Qed.

Lemma pathScan_cons fuel t st c cs :
  pathScan fuel g t (Some (false, st)) (c :: cs) =
  pathScan fuel g t (pathDfs fuel g t c st) cs.
Proof. done. Qed.

(** *** The path that is returned is a path of the graph *)

Lemma chain_cons a q c :
  head q = Some c → c ∈ successors g a → chain g q → chain g (a :: q).
Proof. destruct q as [|c' q]; [done|]. intros [= ->] ? ?. by split. Qed.

Lemma pathDfs_path fuel t cur st b st' :
  t ∉ ps_visited st →
  pathDfs fuel g t cur st = Some (b, st') →
  (∀ x, x ∈ ps_visited st → x ∈ ps_visited st') ∧
  (t ∉ ps_visited st') ∧
  if b then
    ∃ q, ps_path st' = ps_path st ++ q ∧ chain_from g cur q t ∧
         NoDup q ∧ ∀ x, x ∈ q → x ∉ ps_visited st
  else ps_path st' = ps_path st.
Proof.
  revert cur st b st'. induction fuel as [|fuel IH]; intros cur st b st' Ht; [done|].
  rewrite pathDfs_unfold.
  destruct (decide (cur = t)) as [->|Hcur].
  { intros [= <- <-]. split_and!; [done..|]. exists [t].
    split_and!; [done..|apply NoDup_singleton|].
    by intros x ->%list_elem_of_singleton. }
  destruct (JsSet.has cur (ps_visited st)) eqn:Hhas; [by intros [= <- <-]|].
  assert (cur ∉ ps_visited st) as Hfresh.
  { intros ?%JsSet_has_true. congruence. }
  set (vis1 := JsSet.add cur (ps_visited st)).
  set (st1 := mkPathSearch vis1 _).
  assert (t ∉ vis1) as Ht1.
  { intros [?|?]%JsSet_elem_add; done. }
  assert (∀ cs (acc : option (bool * PathSearch)) (r : bool * PathSearch),
            (∀ c, c ∈ cs → c ∈ successors g cur) →
            match acc with
            | Some (found, s) =>
                (∀ x, x ∈ vis1 → x ∈ ps_visited s) ∧ (t ∉ ps_visited s) ∧
                if found then
                  ∃ c q, c ∈ successors g cur ∧ ps_path s = ps_path st1 ++ q ∧
                         chain_from g c q t ∧ NoDup q ∧ ∀ x, x ∈ q → x ∉ vis1
                else ps_path s = ps_path st1
            | None => True
            end →
            pathScan fuel g t acc cs = Some r →
            (∀ x, x ∈ vis1 → x ∈ ps_visited r.2) ∧ (t ∉ ps_visited r.2) ∧
            if r.1 then
              ∃ c q, c ∈ successors g cur ∧ ps_path r.2 = ps_path st1 ++ q ∧
                     chain_from g c q t ∧ NoDup q ∧ ∀ x, x ∈ q → x ∉ vis1
            else ps_path r.2 = ps_path st1) as Hscan.
  { induction cs as [|c cs IHcs]; intros acc r Hcs Hacc.
    - rewrite pathScan_nil. intros ->. by destruct r as [[] s].
    - destruct acc as [[[] s]|].
      + rewrite pathScan_found. intros [= <-]. done.
      + rewrite pathScan_cons. apply IHcs.
        * intros ??. apply Hcs. by right.
        * destruct Hacc as (Hsub & Hts & Hpath).
          destruct (pathDfs fuel g t c s) as [[b1 s1]|] eqn:Hdfs; [|done].
          apply IH in Hdfs as (Hsub1 & Hts1 & Hb1); [|done].
          split_and!; [by auto|done|]. destruct b1.
          -- destruct Hb1 as (q & Hq & Hchain & Hnd & Hnew). exists c, q.
             split_and!; [apply Hcs; by left|congruence|done..|].
             intros x Hx ?. apply (Hnew x Hx). by apply Hsub.
          -- congruence.
      + by rewrite pathScan_None. }
  destruct (pathScan fuel g t (Some (false, st1)) (successors g cur))
    as [[b2 s2]|] eqn:Hrun; [|done].
  apply Hscan in Hrun as (Hsub & Hts & Hb2); [|done..]. simpl in *.
  assert (∀ x, x ∈ ps_visited st → x ∈ ps_visited s2) as Hsub0.
  { intros x ?. apply Hsub, JsSet_elem_add. by right. }
  destruct b2.
  - intros [= <- <-]. split_and!; [done..|].
    destruct Hb2 as (c & q & Hc & Hpath & (Hhead & Hlast & Hchain) & Hnd & Hnew).
    exists (cur :: q). split_and!.
    + rewrite Hpath. subst st1. simpl. by rewrite <-app_assoc.
    + split_and!; [done| |by eapply chain_cons].
      rewrite last_cons, Hlast. done.
    + apply NoDup_cons. split; [|done]. intros Hin.
      apply (Hnew cur Hin), JsSet_elem_add. by left.
    + intros x [->|Hx]%elem_of_cons; [done|]. intros ?.
      apply (Hnew x Hx), JsSet_elem_add. by right.
  - intros [= <- <-]. simpl. split_and!; [done..|]. rewrite Hb2. subst st1. simpl.
    apply removelast_last.
Qed.

(** *** With enough fuel the search returns *)

Lemma explored_refl t vis : explored g t vis vis.
Proof. split; [done|]. intros v ? ?. done. Qed.

Lemma explored_trans t v0 v1 v2 :
  explored g t v0 v1 → explored g t v1 v2 → explored g t v0 v2.
Proof.
  intros [H01 C01] [H12 C12]. split; [auto|].
  intros v Hv Hv0. destruct (decide (v ∈ v1)) as [Hv1|Hv1].
  - destruct (C01 v Hv1 Hv0) as [? Hc]. split; [done|]. auto.
  - by apply C12.
Qed.

Lemma visited_in_length U vis : visited_in U vis → length vis ≤ length U.
Proof. intros [? ?]. by apply submseteq_length, NoDup_submseteq. Qed.

Lemma pathDfs_returns U fuel t cur st :
  (∀ a c, c ∈ successors g a → c ∈ U) →
  cur ∈ U →
  visited_in U (ps_visited st) →
  length U < fuel + length (ps_visited st) →
  ∃ b st', pathDfs fuel g t cur st = Some (b, st') ∧
           (b = false →
            visited_in U (ps_visited st') ∧
            explored g t (ps_visited st) (ps_visited st') ∧
            cur ∈ ps_visited st').
Proof.
  intros HU. revert cur st.
  induction fuel as [|fuel IH]; intros cur st Hcur Hvis Hfuel.
  { apply visited_in_length in Hvis. lia. }
  rewrite pathDfs_unfold.
  destruct (decide (cur = t)) as [->|Hne]; [by eexists true, _|].
  destruct (JsSet.has cur (ps_visited st)) eqn:Hhas.
  { exists false, st. split; [done|]. intros _.
    split_and!; [done|apply explored_refl|by apply JsSet_has_true]. }
  set (vis1 := JsSet.add cur (ps_visited st)).
  set (st1 := mkPathSearch vis1 _).
  assert (length vis1 = S (length (ps_visited st))) as Hlen1.
  { subst vis1. rewrite JsSet_add_fresh by done. rewrite length_app. simpl. lia. }
  assert (NoDup vis1) as Hnd1.
  { apply JsSet_NoDup_add, Hvis. }
  assert (∀ cs done s,
            (∀ c, c ∈ cs → c ∈ successors g cur) →
            visited_in U (ps_visited s) →
            explored g t vis1 (ps_visited s) →
            (∀ c, c ∈ done → c ∈ ps_visited s) →
            ∃ b s', pathScan fuel g t (Some (false, s)) cs = Some (b, s') ∧
                    (b = false →
                     visited_in U (ps_visited s') ∧
                     explored g t vis1 (ps_visited s') ∧
                     ∀ c, c ∈ done ++ cs → c ∈ ps_visited s')) as Hscan.
  { induction cs as [|c cs IHcs]; intros done s Hcs Hs Hex Hdone.
    - exists false, s. split; [done|]. intros _. by rewrite app_nil_r.
    - rewrite pathScan_cons.
      destruct (IH c s) as (b1 & s1 & -> & H1).
      + apply (HU cur), Hcs. by left.
      + done.
      + assert (length vis1 ≤ length (ps_visited s)); [|lia].
        apply submseteq_length, NoDup_submseteq; [done|apply Hex].
      + destruct b1.
        { rewrite pathScan_found. by exists true, s1. }
        destruct (H1 eq_refl) as (Hs1 & Hex1 & Hc1).
        destruct (IHcs (done ++ [c]) s1) as (b2 & s2 & -> & H2).
        * intros ??. apply Hcs. by right.
        * done.
        * by eapply explored_trans.
        * intros x [?| ->%list_elem_of_singleton]%elem_of_app; [|done].
          apply Hex1. auto.
        * exists b2, s2. split; [done|]. intros Hb.
          destruct (H2 Hb) as (? & ? & Hall). split_and!; [done..|].
          intros x Hx. apply Hall. by rewrite <-app_assoc. }
  destruct (Hscan (successors g cur) [] st1) as (b & s' & -> & Hb).
  - done.
  - split; [done|]. intros x [->|?]%JsSet_elem_add; [done|by apply Hvis].
  - apply explored_refl.
  - intros ? ?%elem_of_nil. done.
  - destruct b; [by eexists true, _|].
    eexists false, _. split; [done|]. intros _.
    destruct (Hb eq_refl) as (Hs' & [Hsub Hclosed] & Hall). simpl.
    split_and!; [done| |].
    + split.
      * intros x Hx. apply Hsub, JsSet_elem_add. by right.
      * intros v Hv Hv0. destruct (decide (v = cur)) as [->|Hvc].
        -- split; [done|]. intros c Hc. by apply Hall.
        -- apply Hclosed; [done|]. intros [?|?]%JsSet_elem_add; done.
    + apply Hsub, JsSet_elem_add. by left.
Qed.

Lemma pathScan_mono fuel t :
  (∀ cur st r, pathDfs fuel g t cur st = Some r → pathDfs (S fuel) g t cur st = Some r) →
  ∀ cs acc r, pathScan fuel g t acc cs = Some r → pathScan (S fuel) g t acc cs = Some r.
Proof.
  intros Hdfs. induction cs as [|c cs IHcs]; intros acc r; [done|].
  destruct acc as [[[] s]|].
  - by rewrite !pathScan_found.
  - rewrite !pathScan_cons.
    destruct (pathDfs fuel g t c s) as [x|] eqn:Hx.
    + rewrite (Hdfs _ _ _ Hx). apply IHcs.
    + by rewrite pathScan_None.
  - by rewrite pathScan_None.
Qed.

Lemma pathDfs_mono fuel t cur st r :
  pathDfs fuel g t cur st = Some r → pathDfs (S fuel) g t cur st = Some r.
Proof.
  revert cur st r. induction fuel as [|fuel IH]; intros cur st r; [done|].
  rewrite (pathDfs_unfold (S fuel)), (pathDfs_unfold fuel).
  destruct (decide (cur = t)); [done|].
  destruct (JsSet.has cur (ps_visited st)); [done|].
  destruct (pathScan fuel g t _ _) as [x|] eqn:Hx; [|done].
  by rewrite (pathScan_mono _ _ IH _ _ _ Hx).
Qed.

Lemma pathDfs_mono_add fuel extra t cur st r :
  pathDfs fuel g t cur st = Some r → pathDfs (fuel + extra) g t cur st = Some r.
Proof.
  intros H. induction extra as [|extra IH].
  - by rewrite Nat.add_0_r.
  - rewrite Nat.add_succ_r. by apply pathDfs_mono.
Qed.

(** *** Paths and reachability *)

Lemma chain_from_reach l a b : chain_from g a l b → reach g a b.
Proof.
  revert a. induction l as [|x l IH]; intros a (Hhead & Hlast & Hchain); [done|].
  injection Hhead as ->. destruct l as [|y l].
  - injection Hlast as ->. constructor.
  - destruct Hchain as [Hy Hchain]. apply (reach_step g a y); [done|].
    apply IH. split_and!; [done| |done]. by rewrite last_cons_cons in Hlast.
Qed.

Lemma explored_no_reach t vis a b :
  explored g t [] vis → reach g a b → a ∈ vis → b ≠ t.
Proof.
  intros [_ Hclosed] Hreach. induction Hreach as [a|a c b Hc _ IH]; intros Ha.
  - apply (Hclosed a Ha). apply not_elem_of_nil.
  - apply IH, (Hclosed a Ha); [apply not_elem_of_nil|done].
Qed.

Lemma successors_vertices a c : c ∈ successors g a → c ∈ vertices g.
Proof.
  unfold successors. destruct (JsMap.get a (edges g)) as [cs|] eqn:Hget.
  - by apply (children_vertices g a).
  - intros ?%elem_of_nil. done.
Qed.
End FindModulePath.

Section FindModulePathProps.
Import GraphBuilder.

(** X7 (findModulePath).  On every graph, cyclic ones included, the search
    returns once the recursion depth may exceed the number of module names
    by two, and its answer no longer depends on the bound.  It answers with
    a path exactly when [to] can be reached from [from] along instantiation
    edges ([from] reaches itself), and the path it answers with starts at
    [from], ends at [to], follows an instantiation edge at every step and
    repeats no module. *)
Theorem findModulePath_decides_reachability g from to :
  ∃ r, (∀ extra, findModulePath (S (depthBound g) + extra) g from to = Some r) ∧
       (is_Some r ↔ reach g from to) ∧
       match r with
       | Some p => chain_from g from p to ∧ NoDup p
       | None => True
       end.
Proof.
  set (U := from :: vertices g).
  set (st0 := mkPathSearch JsSet.empty []).
  destruct (pathDfs_returns g U (S (depthBound g)) to from st0)
    as (b & st' & Hrun & Hfalse).
  - intros a c ?%successors_vertices. by right.
  - by left.
  - split; [apply NoDup_nil_2|]. intros ? ?%elem_of_nil. done.
  - unfold depthBound, U. simpl. lia.
  - assert (∀ extra, pathDfs (S (depthBound g) + extra) g to from st0 = Some (b, st'))
      as Hall by (intros; by apply pathDfs_mono_add).
    destruct b.
    + apply pathDfs_path in Hrun as (_ & _ & q & Hq & Hchain & Hnd & _);
        [|apply not_elem_of_nil].
      simpl in Hq. exists (Some (ps_path st')). split; [|split].
      * intros extra. unfold findModulePath. fold st0. by rewrite Hall.
      * split; [|done]. intros _. by eapply chain_from_reach.
      * by rewrite Hq.
    + exists None. split_and!; [|split|done].
      * intros extra. unfold findModulePath. fold st0. by rewrite Hall.
      * intros [? [=]].
      * intros Hreach. destruct (Hfalse eq_refl) as (_ & Hex & Hfrom).
        by destruct (explored_no_reach g to _ _ _ Hex Hreach Hfrom).
Qed.
End FindModulePathProps.

(** ** The edit distance computed by [levenshteinDistance] *)

Section LevenshteinMetric.
Import Spec SearchEngine.
Implicit Types (a b c : list ascii) (x y z : ascii).

Lemma cost_sym x y : cost x y = cost y x.
Proof. unfold cost. repeat case_decide; congruence. Qed.

Lemma cost_triangle x y z : cost x z ≤ cost x y + cost y z.
Proof. unfold cost. repeat case_decide; try lia. congruence. Qed.

Lemma edits_sym a b n : edits a b n → edits b a n.
Proof.
  induction 1 as [|x a b n _ IH|y a b n _ IH|x y a b n _ IH].
  - constructor.
  - by apply edits_ins.
  - by apply edits_del.
  - rewrite cost_sym. by apply edits_sub.
Qed.

Lemma lev_sym a b : lev a b = lev b a.
Proof. apply Nat.le_antisymm; apply edits_lev, edits_sym, lev_edits. Qed.

Lemma edits_refl a : edits a a 0.
Proof.
  induction a as [|x a IH]; [constructor|].
  apply (edits_sub x x) in IH. unfold cost in IH.
  by rewrite decide_True in IH by done.
Qed.

Lemma edits_0_eq a b n : edits a b n → n = 0 → a = b.
Proof.
  induction 1 as [|x a b n _ IH|y a b n _ IH|x y a b n _ IH]; intros Hn;
    [done|lia|lia|].
  unfold cost in Hn. case_decide; [|lia]. subst. f_equal. apply IH. lia.
Qed.

Lemma edits_length a b n :
  edits a b n → length a ≤ length b + n ∧ length b ≤ length a + n.
Proof. induction 1; simpl; lia. Qed.

Lemma lev_le_max a b : lev a b ≤ Nat.max (length a) (length b).
Proof.
  revert b. induction a as [|x a IH]; intros b; [simpl; lia|].
  destruct b as [|y b]; [rewrite lev_nil_r; lia|].
  rewrite lev_cons_cons. unfold min3.
  pose proof (IH b). pose proof (cost_le_1 x y). simpl. lia.
Qed.

Lemma edits_compose a b c n m :
  edits a b n → edits b c m → ∃ k, k ≤ n + m ∧ edits a c k.
Proof.
  intros H1. revert c m.
  induction H1 as [|x a b n _ IH|y a b n _ IH|x y a b n _ IH]; intros c m H2.
  - by exists m.
  - destruct (IH _ _ H2) as (k & ? & ?). exists (S k). split; [lia|].
    by apply edits_del.
  - remember (y :: b) as b' eqn:Hb'.
    induction H2 as [|y' b' c m H2 _|z b' c m _ IH2|y' z b' c m H2 _].
    + done.
    + injection Hb' as -> ->. destruct (IH _ _ H2) as (k & ? & ?).
      exists k. split; [lia|done].
    + destruct (IH2 Hb') as (k & ? & ?). exists (S k). split; [lia|].
      by apply edits_ins.
    + injection Hb' as -> ->. destruct (IH _ _ H2) as (k & ? & ?).
      exists (S k). split; [lia|]. by apply edits_ins.
  - remember (y :: b) as b' eqn:Hb'.
    induction H2 as [|y' b' c m H2 _|z b' c m _ IH2|y' z b' c m H2 _].
    + done.
    + injection Hb' as -> ->. destruct (IH _ _ H2) as (k & ? & ?).
      exists (S k). split; [lia|]. by apply edits_del.
    + destruct (IH2 Hb') as (k & ? & ?). exists (S k). split; [lia|].
      by apply edits_ins.
    + injection Hb' as -> ->. destruct (IH _ _ H2) as (k & ? & ?).
      exists (k + cost x z). split.
      * pose proof (cost_triangle x y z). lia.
      * by apply edits_sub.
Qed.

(** X8 (levenshteinDistance).  The distance does not depend on the order
    of its two arguments, although the table is filled row by row along
    the first one. *)
Theorem levenshteinDistance_symmetric a b :
  levenshteinDistance a b = levenshteinDistance b a.
Proof. rewrite !levenshteinDistance_lev. apply lev_sym. Qed.

(** X9 (levenshteinDistance).  The distance is zero for equal strings and
    for no others. *)
Theorem levenshteinDistance_zero_iff_equal a b :
  levenshteinDistance a b = 0 ↔ a = b.
Proof.
  rewrite levenshteinDistance_lev. split.
  - intros H0. apply (edits_0_eq a b (lev a b)); [apply lev_edits|done].
  - intros ->. apply Nat.le_0_r, edits_lev, edits_refl.
Qed.

(** X10 (levenshteinDistance).  Going through a third string is never
    shorter: the distance obeys the triangle inequality. *)
Theorem levenshteinDistance_triangle a b c :
  levenshteinDistance a c ≤ levenshteinDistance a b + levenshteinDistance b c.
Proof.
  rewrite !levenshteinDistance_lev.
  destruct (edits_compose a b c _ _ (lev_edits a b) (lev_edits b c)) as (k & ? & Hk).
  apply edits_lev in Hk. lia.
Qed.

(** X11 (levenshteinDistance).  The distance is at least the difference of
    the two lengths and at most the greater length. *)
Theorem levenshteinDistance_length_bounds a b :
  length a - length b ≤ levenshteinDistance a b ∧
  length b - length a ≤ levenshteinDistance a b ∧
  levenshteinDistance a b ≤ Nat.max (length a) (length b).
Proof.
  rewrite levenshteinDistance_lev.
  pose proof (edits_length _ _ _ (lev_edits a b)).
  pose proof (lev_le_max a b). lia.
Qed.
End LevenshteinMetric.

(** ** Scores and the work of [search] *)

Section ScoreProps.
Import JsString SearchEngine.

Lemma lev_pos a b : a ≠ b → 1 ≤ levenshteinDistance a b.
Proof.
  intros Hne. rewrite levenshteinDistance_lev.
  destruct (Spec.lev a b) eqn:Hlev; [|lia].
  destruct Hne. by apply (edits_0_eq a b 0); [rewrite <-Hlev; apply lev_edits|].
Qed.

(** X12 (calculateSymbolScore).  A score is 100, 90, 70, or a fuzzy score
    between 0 and 55: a fuzzy match never reaches the score of a substring
    match.  For a name and a query of 7-bit characters the score is 100
    exactly when the two have the same length and agree character by
    character up to the case of letters. *)
Theorem calculateSymbolScore_tiers symbol query :
  let s := calculateSymbolScore symbol query in
  (s = 100 ∨ s = 90 ∨ s = 70 ∨ 0 ≤ s ≤ 55)%Z ∧
  (Spec.ascii7 (sym_name symbol) → Spec.ascii7 query →
   (s = 100%Z ↔ Spec.eq_nocase (chars (sym_name symbol)) (chars query))).
Proof.
  intros s.
  assert ((s = 100 ∨ s = 90 ∨ s = 70 ∨ 0 ≤ s ≤ 55)%Z ∧
          (s = 100%Z ↔
           toLowerCase (chars (sym_name symbol)) = toLowerCase (chars query)))
    as [Htier Hexact].
  { subst s. unfold calculateSymbolScore.
    set (name := toLowerCase _). set (q := toLowerCase _).
    destruct (decide (name = q)) as [Heq|Hne]; [by split; [left|]|].
    destruct (startsWith name q); [split; [auto|split; [lia|done]]|].
    destruct (includes name q); [split; [auto|split; [lia|done]]|].
    pose proof (lev_pos name q Hne).
    case_decide; (split; [|split; [lia|done]]); do 3 right; lia. }
  split; [done|]. intros _ _. by rewrite <-toLowerCase_eq.
Qed.

(** X13 (searchSymbols).  The engine itself does not reject the empty
    query: every symbol scores at least 90 for it, so a symbol search for
    the empty string returns the whole table, in table order. *)
Theorem empty_query_matches_every_symbol index :
  (∀ symbol, (90 ≤ calculateSymbolScore symbol "")%Z) ∧
  r_symbol <$> (searchSymbols index "").1 = Some <$> SymbolIndexer.listSymbols index.
Proof.
  assert (∀ symbol, (90 ≤ calculateSymbolScore symbol "")%Z) as Hscore.
  { intros symbol. unfold calculateSymbolScore.
    change (toLowerCase (chars "")) with (@nil ascii).
    case_decide; [lia|].
    rewrite (proj2 (startsWith_prefix _ [])); [lia|]. apply prefix_nil. }
  split; [done|]. simpl.
  induction (SymbolIndexer.listSymbols index) as [|symbol l IH]; [done|].
  change (omap (scoreSymbol "") (symbol :: l)) with
    (match scoreSymbol "" symbol with
     | Some r => r :: omap (scoreSymbol "") l
     | None => omap (scoreSymbol "") l
     end).
  unfold scoreSymbol at 1. specialize (Hscore symbol).
  rewrite decide_True by lia. rewrite !fmap_cons, IH. done.
Qed.
End ScoreProps.

(** "ALU_Ctrl" against "alu_ctrl": the same letters in other cases. *)
Lemma calculateSymbolScore_tiers_witness :
  SearchEngine.calculateSymbolScore
    (symbol_named "ALU_Ctrl" (mkSymbol "" "" "" "" "" 0 0 "" "")) "alu_cTRL" = 100%Z.
Proof.
  apply (proj2 (calculateSymbolScore_tiers
                  (symbol_named "ALU_Ctrl" (mkSymbol "" "" "" "" "" 0 0 "" ""))
                  "alu_cTRL")).
  - apply (bool_decide_unpack _). by vm_compute.
  - apply (bool_decide_unpack _). by vm_compute.
  - unfold Spec.eq_nocase. apply (bool_decide_unpack _). by vm_compute.
Defined.

Section SearchWork.
Import SearchEngine.
Variable localeCompare : string → string → Z.
Variable textBackend : string → string → list TextMatch.

Abbreviation search := (SearchEngine.search localeCompare textBackend).

Lemma omap_scoreSymbol_nonempty query (l : list Symbol) symbol :
  symbol ∈ l → (0 < calculateSymbolScore symbol query)%Z →
  length (omap (scoreSymbol query) l) ≠ 0.
Proof.
  intros Hin Hpos.
  assert (symbolResult (calculateSymbolScore symbol query) symbol
          ∈ omap (scoreSymbol query) l) as Hr.
  { apply list_elem_of_omap. exists symbol. split; [done|].
    unfold scoreSymbol. by rewrite decide_True. }
  destruct (omap _ l); [by apply elem_of_nil in Hr|done].
Qed.

(** X14 (search).  When the mode is absent or "symbol" and some indexed
    symbol scores above zero, the text tool is not run: the only work is
    the scoring pass, and the results are the scored symbols, each exactly
    once, and nothing else. *)
Theorem search_with_symbol_hits_skips_text index repoPath query type symbol :
  falsy type = true ∨ type = Some "symbol" →
  symbol ∈ SymbolIndexer.listSymbols index →
  (0 < calculateSymbolScore symbol query)%Z →
  let out := search index repoPath query type in
  out.2 = [ScoringPass query (length (SymbolIndexer.listSymbols index))] ∧
  out.1 ≡ₚ omap (scoreSymbol query) (SymbolIndexer.listSymbols index) ∧
  Forall (λ r, r_type r = RSymbol) out.1.
Proof.
  intros Hmode Hin Hpos out.
  assert (falsy type || bool_decide (type = Some "symbol") = true) as Hsym.
  { destruct Hmode as [->| ->]; [done|]. by rewrite orb_true_r. }
  assert (type ≠ Some "text") as Htext.
  { destruct Hmode as [Hf| ->]; [|done]. intros ->. done. }
  pose proof (omap_scoreSymbol_nonempty query _ _ Hin Hpos) as Hne.
  assert (out = (sortResults localeCompare
                   (omap (scoreSymbol query) (SymbolIndexer.listSymbols index)),
                 [ScoringPass query (length (SymbolIndexer.listSymbols index))]))
    as ->.
  { subst out. unfold SearchEngine.search, SearchEngine.collectResults.
    rewrite Hsym. unfold searchSymbols, bind, tell, ret. cbn [fst snd].
    rewrite (bool_decide_eq_false_2 _ Hne), (bool_decide_eq_false_2 _ Htext).
    cbn [orb fst snd]. by rewrite !app_nil_r. }
  cbn [fst snd]. split_and!; [done|apply sort_Permutation|].
  apply sort_Forall, Forall_forall.
  intros r (s & _ & Hr)%list_elem_of_omap. unfold scoreSymbol in Hr.
  case_decide; [|done]. by injection Hr as <-.
Qed.
End SearchWork.

Lemma search_with_symbol_hits_skips_text_witness :
  let index :=
    (Platform.updateFile "/" "/rtl/a.v" (Some "module foo") SymbolIndexer.empty).1 in
  let out := SearchEngine.search Platform.localeCompare
               (λ _ _, [SearchEngine.mkTextMatch "/rtl/a.v" 0 None "module foo"])
               index "/rtl" "fo" None in
  out.2 = [SearchEngine.ScoringPass "fo" 1] ∧
  SearchEngine.r_score <$> out.1 = [Some 90%Z].
Proof.
  intros index out.
  destruct (search_with_symbol_hits_skips_text Platform.localeCompare
              (λ _ _, [SearchEngine.mkTextMatch "/rtl/a.v" 0 None "module foo"])
              index "/rtl" "fo" None
              (default (symbol_named "" (mkSymbol "" "" "" "" "" 0 0 "" ""))
                       (head (SymbolIndexer.listSymbols index))))
    as (Hwork & _ & _).
  - by left.
  - vm_compute. by left.
  - by vm_compute.
  - split; [exact Hwork|by vm_compute].
Defined.

(** ** [rankFilesByRelevance] *)

Section FileRanking.
Import SearchEngine HttpServer.
Variable query : string.
Implicit Types (results : list SearchResult) (r : SearchResult) (file : string)
  (m : JsMap.t FileData) (d : FileData).

Lemma total_snoc l z : total (l ++ [z]) = (total l + z)%Z.
Proof. unfold total. induction l as [|x l IH]; simpl; lia. Qed.

Lemma resultsOf_snoc_same results r :
  resultsOf (r_file r) (results ++ [r]) = resultsOf (r_file r) results ++ [r].
Proof.
  unfold resultsOf. rewrite filter_app. f_equal.
  by rewrite filter_cons, decide_True.
Qed.

Lemma resultsOf_snoc_other file results r :
  r_file r ≠ file → resultsOf file (results ++ [r]) = resultsOf file results.
Proof.
  intros Hne. unfold resultsOf.
  by rewrite filter_app, filter_cons, decide_False, app_nil_r.
Qed.

Lemma resultsOf_nil file results :
  file ∉ r_file <$> results → resultsOf file results = [].
Proof.
  intros Hnotin. unfold resultsOf. induction results as [|r results IH]; [done|].
  rewrite filter_cons. rewrite fmap_cons in Hnotin.
  apply not_elem_of_cons in Hnotin as [Hne Hnotin].
  rewrite decide_False by done. by apply IH.
Qed.

Lemma resultsOf_nonempty file results :
  file ∈ r_file <$> results → resultsOf file results ≠ [].
Proof.
  intros (r & -> & Hr)%list_elem_of_fmap Hnil.
  assert (r ∈ resultsOf (r_file r) results) as Hin.
  { apply list_elem_of_filter. by split. }
  rewrite Hnil in Hin. by apply elem_of_nil in Hin.
Qed.

Lemma tallied_noMatches file results :
  file ∉ r_file <$> results → tallied query results file noMatches.
Proof. intros Hnotin. unfold tallied. by rewrite resultsOf_nil. Qed.

Lemma rankStep_tally results m r :
  tally_of query results m → tally_of query (results ++ [r]) (rankStep query m r).
Proof.
  intros (Hnd & Hkeys & Htally). unfold rankStep.
  set (file := r_file r).
  set (m1 := if JsMap.has file m then m else JsMap.set file noMatches m).
  set (d0 := default noMatches (JsMap.get file m1)).
  assert (tally_of query results m1 ∨
          ((file ∉ r_file <$> results) ∧ NoDup (JsMap.keys m1) ∧
           JsMap.keys m1 = JsMap.keys m ++ [file] ∧
           ∀ k, k ≠ file → JsMap.get k m1 = JsMap.get k m)) as Hm1.
  { subst m1. destruct (JsMap.has file m) eqn:Hhas; [by left|]. right.
    apply JsMap_has_false_keys in Hhas.
    split_and!.
    - by rewrite <-Hkeys.
    - by apply JsMap_keys_NoDup_set.
    - rewrite JsMap_keys_set. by rewrite (proj2 (JsMap_has_false_keys m file)).
    - intros k Hk. by rewrite JsMap_get_set_ne. }
  assert (tallied query results file d0 ∧ is_Some (JsMap.get file m1)) as [Hd0 Hsome].
  { subst d0 m1. destruct (JsMap.has file m) eqn:Hhas.
    - apply JsMap_has_get in Hhas as [d Hd]. rewrite Hd. split; [|by eexists].
      by apply Htally.
    - rewrite JsMap_get_set_eq. split; [|by eexists].
      apply tallied_noMatches. rewrite <-Hkeys. by apply JsMap_has_false_keys. }
  assert (NoDup (JsMap.keys m1) ∧
          (∀ k, k ∈ JsMap.keys m1 ↔ k ∈ r_file <$> (results ++ [r])) ∧
          (∀ k d, k ≠ file → JsMap.get k m1 = Some d → tallied query results k d))
    as (Hnd1 & Hkeys1 & Hother).
  { destruct Hm1 as [(? & Hk & Ht)|(Hnew & ? & Hk & Hget)].
    - split_and!; [done| |by intros; apply Ht].
      intros k. rewrite fmap_app, elem_of_app, <-Hk. split; [by left|].
      intros [?| ->%list_elem_of_singleton]; [done|].
      by apply JsMap_get_keys.
    - split_and!; [done| |].
      + intros k. by rewrite Hk, fmap_app, !elem_of_app, Hkeys.
      + intros k d ? Hd. apply Htally. by rewrite <-Hget. }
  split_and!.
  - by apply JsMap_keys_NoDup_set.
  - intros k. rewrite JsMap_keys_set.
    rewrite (proj2 (JsMap_has_get m1 file) Hsome). apply Hkeys1.
  - intros k d. destruct (decide (k = file)) as [->|Hne].
    + rewrite JsMap_get_set_eq. intros [= <-].
      destruct Hd0 as (Hm & Hs & Hsym & Htxt).
      unfold tallied. subst file. rewrite resultsOf_snoc_same.
      rewrite fmap_app.
      change (contribution query <$> [r]) with [contribution query r].
      rewrite total_snoc, !filter_app, !length_app, !filter_cons.
      set (T := total (contribution query <$> resultsOf (r_file r) results)) in *.
      unfold contribution.
      destruct (decide (r_type r = RSymbol)) as [Hty|Hty];
        destruct (nameIncludes r query); cbn [fd_matches fd_score fd_symbolMatches
                                              fd_textMatches];
        rewrite ?Hm, ?Hs, ?Hsym, ?Htxt;
        rewrite ?(decide_True (P := r_type r = RSymbol)) by done;
        rewrite ?(decide_False (P := r_type r = RSymbol)) by done;
        rewrite ?(decide_True (P := r_type r ≠ RSymbol)) by done;
        rewrite ?(decide_False (P := r_type r ≠ RSymbol)) by (by intros []);
        simpl; split_and!; try done; lia.
    + rewrite JsMap_get_set_ne by done. intros Hd.
      pose proof (Hother k d Hne Hd) as Ht. unfold tallied.
      by rewrite resultsOf_snoc_other.
Qed.

Lemma foldl_rankStep_tally results0 results m :
  tally_of query results0 m →
  tally_of query (results0 ++ results) (foldl (rankStep query) m results).
Proof.
  revert results0 m. induction results as [|r results IH]; intros results0 m Hm.
  - by rewrite app_nil_r.
  - simpl. rewrite (cons_middle r results0 results), (assoc_L (++)). apply IH.
    by apply rankStep_tally.
Qed.

Lemma rankFiles_tally results :
  tally_of query results (foldl (rankStep query) JsMap.empty results).
Proof.
  apply (foldl_rankStep_tally [] results JsMap.empty).
  split_and!; [apply NoDup_nil_2|done|done].
Qed.
End FileRanking.

Section FileRankingProps.
Import SearchEngine HttpServer.
Implicit Types (results : list SearchResult) (query : string).

Lemma JsMap_elem_get_NoDup {V} (m : JsMap.t V) k v :
  NoDup (JsMap.keys m) → (k, v) ∈ m → JsMap.get k m = Some v.
Proof.
  unfold JsMap.keys. induction m as [|[k' v'] m IH]; intros Hnd Hin.
  - by apply elem_of_nil in Hin.
  - rewrite fmap_cons in Hnd. apply NoDup_cons in Hnd as [Hk' Hnd].
    cbn [JsMap.get]. apply elem_of_cons in Hin as [[= -> ->]|Hin].
    + by rewrite decide_True.
    + rewrite decide_False; [by apply IH|].
      intros ->. apply Hk'. by apply (list_elem_of_fmap_2 fst) in Hin.
Qed.

Lemma ranked_entry results query e :
  e ∈ rankFilesByRelevance results query →
  ∃ d, e = rankedFile (rf_file e, d) ∧
       rf_file e ∈ r_file <$> results ∧
       tallied query results (rf_file e) d.
Proof.
  unfold rankFilesByRelevance. rewrite sort_Permutation.
  intros ([k d] & -> & Hin)%list_elem_of_fmap.
  destruct (rankFiles_tally query results) as (Hnd & Hkeys & Htally).
  exists d. split_and!; [done| |].
  - apply Hkeys. by apply (list_elem_of_fmap_2 fst) in Hin.
  - apply Htally. by apply JsMap_elem_get_NoDup.
Qed.


(** X16 (rankFilesByRelevance).  The ranking lists the files of the search
    results, each of them once. *)
Theorem rankFilesByRelevance_lists_each_file_once results query :
  NoDup (rf_file <$> rankFilesByRelevance results query) ∧
  ∀ file, file ∈ rf_file <$> rankFilesByRelevance results query ↔
          file ∈ r_file <$> results.
Proof.
  destruct (rankFiles_tally query results) as (Hnd & Hkeys & _).
  assert (rf_file <$> rankFilesByRelevance results query ≡ₚ
          JsMap.keys (foldl (rankStep query) JsMap.empty results)) as Hperm.
  { unfold rankFilesByRelevance. rewrite sort_Permutation, <-list_fmap_compose.
    done. }
  split.
  - by rewrite Hperm.
  - intros file. by rewrite Hperm.
Qed.

(** X17 (rankFilesByRelevance).  The ranking is in descending order of
    score. *)
Theorem rankFilesByRelevance_descending results query :
  StronglySorted (λ a b, rf_score b ≤ rf_score a)%Z
                 (rankFilesByRelevance results query).
Proof.
  unfold rankFilesByRelevance.
  eapply (StronglySorted_on (λ _, True)); last first.
  - apply (sort_StronglySorted _ (λ _, True)).
    + intros x y _ _. unfold keeps. lia.
    + intros x y z _ _ _. unfold keeps. lia.
    + by apply Forall_forall.
  - by apply Forall_forall.
  - intros x y _ _. unfold keeps. lia.
Qed.

(** X18 (determineRelevance, rankFilesByRelevance).  No ranked file is
    labelled "minimal": that branch is never taken, because every ranked
    file has a match.  A file labelled "low" has text matches only, and a
    file labelled "high" has a symbol match and a score above 100. *)
Theorem rankFilesByRelevance_never_minimal results query :
  Forall (λ e, rf_relevance e ∈ ["high"; "medium"; "low"] ∧
               (rf_relevance e = "low" →
                Forall (λ r, r_type r = RText) (rf_matches e)) ∧
               (rf_relevance e = "high" →
                Exists (λ r, r_type r = RSymbol) (rf_matches e) ∧
                (100 < rf_score e)%Z))
         (rankFilesByRelevance results query).
Proof.
  apply Forall_forall.
  intros e (d & He & Hfile & Hm & Hs & Hsym & Htxt)%ranked_entry.
  apply resultsOf_nonempty in Hfile.
  rewrite He. cbn [rankedFile rf_matches rf_score rf_relevance rf_file fst snd].
  rewrite <-Hm in Hsym, Htxt, Hfile. clear He Hm Hs.
  assert (fd_symbolMatches d = 0 → Forall (λ r, r_type r = RText) (fd_matches d))
    as Hnosym.
  { rewrite Hsym. intros Hnil%nil_length_inv. apply Forall_forall. intros r Hr.
    destruct (r_type r) eqn:Hty; [|done].
    assert (r ∈ filter (λ r, r_type r = RSymbol) (fd_matches d)) as Hin
      by (by apply list_elem_of_filter).
    rewrite Hnil in Hin. by apply elem_of_nil in Hin. }
  assert (0 < fd_symbolMatches d → Exists (λ r, r_type r = RSymbol) (fd_matches d))
    as Hhassym.
  { rewrite Hsym. intros Hpos. apply Exists_exists.
    destruct (filter _ (fd_matches d)) as [|r l] eqn:Hf; [simpl in Hpos; lia|].
    assert (r ∈ filter (λ r, r_type r = RSymbol) (fd_matches d)) as Hin
      by (rewrite Hf; by left).
    apply list_elem_of_filter in Hin as [? ?]. by exists r. }
  assert (fd_symbolMatches d = 0 → 0 < fd_textMatches d) as Hhastxt.
  { intros H0. rewrite Htxt. specialize (Hnosym H0).
    destruct (fd_matches d) as [|r l]; [done|].
    apply Forall_cons in Hnosym as [Hr _].
    rewrite filter_cons, decide_True by (by rewrite Hr). simpl. lia. }
  unfold determineRelevance.
  destruct (bool_decide (0 < fd_symbolMatches d)) eqn:Hs;
    [apply bool_decide_eq_true in Hs|apply bool_decide_eq_false in Hs];
    destruct (bool_decide (100 < fd_score d)%Z) eqn:H100;
    [apply bool_decide_eq_true in H100|apply bool_decide_eq_false in H100| |];
    cbn [andb orb].
  - split_and!; [apply list_elem_of_In; simpl; tauto|done|auto].
  - split_and!; [apply list_elem_of_In; simpl; tauto|done|done].
  - destruct (bool_decide (50 < fd_score d)%Z).
    + split_and!; [apply list_elem_of_In; simpl; tauto|done|done].
    + rewrite bool_decide_eq_true_2 by (apply Hhastxt; lia).
      split_and!; [apply list_elem_of_In; simpl; tauto| |done]. intros _. apply Hnosym. lia.
  - destruct (bool_decide (50 < fd_score d)%Z).
    + split_and!; [apply list_elem_of_In; simpl; tauto|done|done].
    + rewrite bool_decide_eq_true_2 by (apply Hhastxt; lia).
      split_and!; [apply list_elem_of_In; simpl; tauto| |done]. intros _. apply Hnosym. lia.
Qed.
End FileRankingProps.

(** ** The symbol table and its two indexes *)

Section IndexInvariant.
Import SymbolIndexer.
Implicit Types (st : State) (s : Symbol).

Lemma filed_empty : filed SymbolIndexer.empty.
Proof. split; [apply NoDup_nil_2|done]. Qed.

Lemma filed_addSymbol s st : filed st → filed (addSymbol s st).
Proof.
  intros [Hnd Hst]. split; [by apply JsMap_keys_NoDup_set|].
  intros y s'. rewrite addSymbol_symbols, addSymbol_nameIndex, addSymbol_pathIndex.
  case_decide as Hy.
  - intros [= <-]. auto.
  - intros Hs'. destruct (Hst _ _ Hs') as (? & ? & ?). auto.
Qed.

Lemma filed_removeSymbol x st : filed st → filed (removeSymbol x st).
Proof.
  intros [Hnd Hst]. split.
  - unfold removeSymbol. destruct (JsMap.get x (symbols st)); [|done].
    by apply JsMap_keys_NoDup_delete.
  - intros y s. rewrite removeSymbol_symbols, removeSymbol_nameIndex,
      removeSymbol_pathIndex.
    case_decide as Hy; [done|]. intros Hs.
    destruct (Hst _ _ Hs) as (? & ? & ?).
    split_and!; try done; intros [-> _]; done.
Qed.

Lemma filed_addAll A st : filed st → filed (addAll A st).
Proof.
  revert st. induction A as [|a A IH]; intros st Hst; [done|].
  apply IH. by apply filed_addSymbol.
Qed.

Lemma filed_removeAll L st : filed st → filed (removeAll L st).
Proof.
  revert st. induction L as [|x L IH]; intros st Hst; [done|].
  apply IH. by apply filed_removeSymbol.
Qed.

Lemma filed_values st :
  filed st → sym_id <$> listSymbols st = JsMap.keys (symbols st).
Proof.
  intros [Hnd Hst]. unfold listSymbols, JsMap.values, JsMap.keys.
  apply list_eq. intros i. rewrite !list_lookup_fmap.
  destruct (symbols st !! i) as [[y s]|] eqn:Hi; [|done]. simpl. f_equal.
  apply Hst. apply JsMap_elem_get_NoDup; [done|].
  by eapply list_elem_of_lookup_2.
Qed.
End IndexInvariant.

Section IndexProps.
Import SymbolIndexer.
Variables resolve basename dirname : string → string.
Variable regexMatches : Pattern → string → list (string * nat).
Variable readFileSync : string → option string.

Abbreviation indexRun' :=
  (indexRun resolve basename dirname regexMatches readFileSync).

Lemma filed_indexSingleFile p c st :
  filed st →
  filed (SymbolIndexer.indexSingleFile resolve basename dirname regexMatches p c st).
Proof. apply filed_addAll. Qed.

Lemma filed_indexCall st c :
  filed st → filed (indexCall resolve basename dirname regexMatches readFileSync st c).
Proof.
  intros Hst. destruct c as [p content|files]; simpl.
  - rewrite updateFile_replaceBatch. by apply filed_addAll, filed_removeAll.
  - unfold fallbackIndexing. revert st Hst.
    induction files as [|f files IH]; intros st Hst; [done|].
    simpl. apply IH. destruct (readFileSync f); [|done].
    by apply filed_indexSingleFile.
Qed.

Lemma filed_indexRun calls st : filed st → filed (indexRun' calls st).
Proof.
  revert st. induction calls as [|c calls IH]; intros st Hst; [done|].
  apply IH. by apply filed_indexCall.
Qed.

(** X19 (addSymbol, removeSymbol, updateFile, fallbackIndexing).  After
    any sequence of [updateFile] and [fallbackIndexing] calls on a new
    indexer, every symbol that [listSymbols] returns is the one that
    [getSymbol] returns for its id, is found by [findByName] under its
    name and by [getSymbolsInFile] under its path; and no two listed
    symbols share an id. *)
Theorem index_finds_every_listed_symbol (calls : list IndexCall) :
  let st := indexRun' calls SymbolIndexer.empty in
  Forall (λ s, getSymbol (sym_id s) st = Some s ∧
               s ∈ findByName (sym_name s) st ∧
               s ∈ getSymbolsInFile (sym_path s) st)
         (listSymbols st) ∧
  NoDup (sym_id <$> listSymbols st).
Proof.
  intros st.
  assert (filed st) as Hfiled by apply filed_indexRun, filed_empty.
  split.
  - apply Forall_forall. intros s Hs.
    destruct Hfiled as [Hnd Hst].
    apply list_elem_of_fmap in Hs as ([y s'] & -> & Hin).
    apply JsMap_elem_get_NoDup in Hin; [|done]. simpl.
    destruct (Hst _ _ Hin) as (-> & Hname & Hpath).
    split_and!; [done| |].
    + apply findByName_elem. eauto.
    + apply getSymbolsInFile_elem. eauto.
  - rewrite filed_values by done. apply Hfiled.
Qed.

(** X20 (updateFile).  For a path that [path.resolve] leaves unchanged,
    [getSymbolsInFile p] returns right after [updateFile p content]
    exactly the symbols extracted from the content, one for each id: the
    last one extracted under that id. *)
Theorem updateFile_resolved_path_replaces p content st s :
  resolve p = p →
  s ∈ getSymbolsInFile p
        (SymbolIndexer.updateFile resolve basename dirname regexMatches readFileSync
                                  p content st).1 ↔
  ∃ y, lastById y (SymbolIndexer.inserted resolve basename dirname regexMatches
                                          readFileSync p content) = Some s.
Proof.
  intros Hp. rewrite updateFile_replaceBatch.
  set (A := SymbolIndexer.inserted _ _ _ _ _ _ _). split.
  - rewrite getSymbolsInFile_elem. intros (y & Hy & Hs). exists y.
    unfold replaceBatch in *. rewrite addAll_symbols in Hs.
    destruct (lastById y A) as [s'|] eqn:Hlast; [done|].
    rewrite removeAll_symbols in Hs.
    apply addAll_pathIndex in Hy as [Hy|(a & Ha & _ & Hid)].
    + apply removeAll_pathIndex in Hy as [Hy _]. by rewrite decide_True in Hs.
    + by destruct (lastById_None y A a Hlast Ha).
  - intros (y & Hlast). apply getSymbolsInFile_elem. exists y.
    unfold replaceBatch. rewrite addAll_symbols, Hlast. split; [|done].
    apply addAll_pathIndex. right.
    destruct (lastById_Some _ _ _ Hlast) as [Hs Hid]. exists s.
    split_and!; [done| |done].
    etrans; [by eapply inserted_path|done].
Qed.
End IndexProps.

Lemma updateFile_resolved_path_replaces_witness :
  let st := (Platform.updateFile "/work" "/rtl/a.v" (Some "module foo")
               SymbolIndexer.empty).1 in
  SymbolIndexer.getSymbolsInFile "/rtl/a.v"
    (Platform.updateFile "/work" "/rtl/a.v" (Some "module bar") st).1
  = SymbolIndexer.inserted (Platform.resolve "/work") Platform.basename
      Platform.dirname Platform.regexMatches Platform.readFileSync
      "/rtl/a.v" (Some "module bar") ∧
  ∃ s, sym_name s = "bar" ∧
       s ∈ SymbolIndexer.getSymbolsInFile "/rtl/a.v"
             (Platform.updateFile "/work" "/rtl/a.v" (Some "module bar") st).1.
Proof.
  intros st. split; [by vm_compute|].
  eexists. split; [|
    apply (updateFile_resolved_path_replaces (Platform.resolve "/work")
             Platform.basename Platform.dirname Platform.regexMatches
             Platform.readFileSync "/rtl/a.v" (Some "module bar") st);
    [reflexivity|exists "a.v:bar:0"; vm_compute; reflexivity]].
  reflexivity.
Defined.

(** ** [getCriticalPath] *)

Section LoopEach.
Context {A B : Type}.
Implicit Types (f : A → B → option A) (a : A) (b : B) (l : list B).

(** A loop whose passes keep [P], move the state along the preorder [R]
    and establish [Q b] for the element [b] they handle, where [Q b] is
    stable under [R]. *)
Lemma loop_returns_each (P : A → Prop) (R : A → A → Prop) (Q : B → A → Prop) f l a :
  (∀ a, R a a) →
  (∀ a1 a2 a3, R a1 a2 → R a2 a3 → R a1 a3) →
  (∀ b a1 a2, Q b a1 → R a1 a2 → Q b a2) →
  P a →
  (∀ a b, P a → b ∈ l → ∃ a', f a b = Some a' ∧ P a' ∧ R a a' ∧ Q b a') →
  ∃ a', loop f a l = Some a' ∧ P a' ∧ R a a' ∧ ∀ b, b ∈ l → Q b a'.
Proof.
  intros Hrefl Htrans Hstable. revert a.
  induction l as [|b l IH]; intros a Ha Hstep.
  - exists a. split_and!; [done..|]. by intros ? ?%elem_of_nil.
  - rewrite loop_cons.
    destruct (Hstep a b Ha) as (a1 & -> & Ha1 & HR1 & HQ1); [by left|].
    destruct (IH a1 Ha1) as (a2 & -> & Ha2 & HR2 & HQ2).
    { intros a2 b2 ? ?. apply Hstep; [done|by right]. }
    exists a2. split_and!; [done..|by eapply Htrans|].
    intros b' [->|?]%elem_of_cons; [by eapply Hstable|by apply HQ2].
Qed.
End LoopEach.

Section CriticalPath.
Import GraphBuilder.
Variable g : ModuleGraph.
Implicit Types (w : Walk) (m : string) (q : list string).

Lemma chain_snoc q a c :
  chain g (q ++ [a]) → c ∈ successors g a → chain g ((q ++ [a]) ++ [c]).
Proof.
  intros Hq Hc. induction q as [|x q IH]; [by split|].
  destruct q as [|y q].
  - destruct Hq as [? _]. by split_and!.
  - destruct Hq as [? Hq]. split; [done|]. by apply IH.
Qed.

Lemma rooted_snoc q a c :
  rooted g (q ++ [a]) → c ∈ successors g a → rooted g ((q ++ [a]) ++ [c]).
Proof.
  intros [Hchain (top & Hhead & Htop)] Hc. split; [by apply chain_snoc|].
  exists top. split; [|done]. by destruct q.
Qed.

Lemma recordLeaf_ok w m :
  noneOrEmpty (JsMap.get m (edges g)) = true →
  NoDup (currentPath w) → rooted g (currentPath w) → last (currentPath w) = Some m →
  critical_ok g (longestPath w) →
  critical_ok g (longestPath (recordLeaf w)).
Proof.
  intros Hleaf Hnd [Hchain (top & Hhead & Htop)] Hlast Hlp.
  unfold recordLeaf. case_decide; [|done]. simpl. right.
  split; [done|]. exists top, m. by split_and!.
Qed.

Lemma recordLeaf_length w :
  length (longestPath w) ≤ length (longestPath (recordLeaf w)) ∧
  length (currentPath w) ≤ length (longestPath (recordLeaf w)).
Proof. unfold recordLeaf. case_decide; simpl; lia. Qed.

Lemma successors_leaf m c :
  noneOrEmpty (JsMap.get m (edges g)) = true → c ∉ successors g m.
Proof.
  unfold successors, noneOrEmpty. destruct (JsMap.get m (edges g)) as [cs|]; simpl.
  - intros Hsize%bool_decide_eq_true. apply length_zero_iff_nil in Hsize as ->.
    apply not_elem_of_nil.
  - intros _. apply not_elem_of_nil.
Qed.

(** A path to a leaf is the leaf alone, or goes on through a child. *)
Lemma leafPath_inv m q :
  leafPath g m q →
  (q = [m] ∧ noneOrEmpty (JsMap.get m (edges g)) = true) ∨
  (∃ c q', q = m :: q' ∧ c ∈ successors g m ∧ (m ∉ q') ∧ leafPath g c q').
Proof.
  intros (Hnd & leaf & (Hhead & Hlast & Hchain) & Hleaf).
  destruct q as [|x q]; [done|]. injection Hhead as ->.
  destruct q as [|c q].
  - left. by injection Hlast as ->.
  - right. destruct Hchain as [Hc Hchain]. apply NoDup_cons in Hnd as [Hm Hnd].
    exists c, (c :: q). split_and!; [done..|]. split; [done|].
    exists leaf. split; [|done]. split_and!; [done| |done].
    by rewrite last_cons_cons in Hlast.
Qed.

(** With enough fuel the walk returns; it restores the visited set and the
    current path; the longest path it leaves is a recorded root-to-leaf
    path, and it is at least as long as the longest path before and as the
    current path extended by any path to a leaf through unvisited
    modules. *)
Lemma criticalDfs_good fuel m w :
  visited_ok g (visited w) → m ∈ vertices g →
  length (vertices g) < fuel + length (visited w) →
  walk_ok g w → rooted g (currentPath w ++ [m]) →
  ∃ w', criticalDfs fuel g m w = Some w' ∧
        visited w' = visited w ∧ currentPath w' = currentPath w ∧
        critical_ok g (longestPath w') ∧
        length (longestPath w) ≤ length (longestPath w') ∧
        ∀ q, leafPath g m q → (∀ x, x ∈ q → x ∉ visited w) →
             length (currentPath w) + length q ≤ length (longestPath w').
Proof.
  revert m w. induction fuel as [|fuel IH];
    intros m w Hok Hm Hfuel (Hnd & Hsub & Hlp) Hroot.
  { apply visited_ok_length in Hok. lia. }
  rewrite criticalDfs_unfold.
  destruct (JsSet.has m (visited w)) eqn:Hhas.
  { exists w. split_and!; [done..|].
    intros q (_ & leaf & (Hhead & _) & _) Havoid.
    destruct (Havoid m); [|by apply JsSet_has_true].
    destruct q; [done|]. injection Hhead as ->. by left. }
  set (w1 := mkWalk (JsSet.add m (visited w)) (currentPath w ++ [m]) (longestPath w)).
  assert (visited_ok g (visited w1)) as Hok1 by by apply visited_ok_add.
  assert (length (visited w1) = S (length (visited w))) as Hlen1.
  { simpl. rewrite (JsSet_add_fresh _ _ Hhas), length_app. simpl. lia. }
  assert (m ∉ visited w) as Hfresh.
  { intros ?%JsSet_has_true. congruence. }
  assert (NoDup (currentPath w1)) as Hnd1.
  { simpl. apply NoDup_app. split_and!; [done| |apply NoDup_singleton].
    intros x Hx ->%list_elem_of_singleton. by apply Hfresh, Hsub. }
  assert (∀ x, x ∈ currentPath w1 → x ∈ visited w1) as Hsub1.
  { simpl. intros x [?| ->%list_elem_of_singleton]%elem_of_app;
      apply JsSet_elem_add; auto. }
  assert (length (currentPath w1) = S (length (currentPath w))) as Hcp1.
  { simpl. rewrite length_app. simpl. lia. }
  cbv zeta.
  destruct (noneOrEmpty (JsMap.get m (edges g))) eqn:Hleaf.
  - simpl. eexists. split; [done|]. simpl.
    assert (critical_ok g (longestPath (recordLeaf w1))) as Hrec.
    { apply (recordLeaf_ok w1 m); try done. simpl. apply last_snoc. }
    pose proof (recordLeaf_length w1) as [Hle1 Hle2].
    assert (visited (recordLeaf w1) = visited w1 ∧
            currentPath (recordLeaf w1) = currentPath w1) as [-> ->].
    { unfold recordLeaf. by case_decide. }
    simpl. rewrite JsSet_delete_added, removelast_last by done.
    split_and!; [done..|].
    intros q [[-> _]|(c & q' & _ & Hc & _)]%leafPath_inv _.
    + simpl. lia.
    + by destruct (successors_leaf m c).
  - destruct (JsMap.get m (edges g)) as [cs|] eqn:Hcs; [|done]. simpl.
    destruct (loop_returns_each
                (λ w', visited w' = visited w1 ∧ currentPath w' = currentPath w1 ∧
                       critical_ok g (longestPath w'))
                (λ w' w'', length (longestPath w') ≤ length (longestPath w''))
                (λ child w',
                   ∀ q, leafPath g child q → (∀ x, x ∈ q → x ∉ visited w1) →
                        length (currentPath w1) + length q ≤ length (longestPath w'))
                (λ w child, criticalDfs fuel g child w) cs w1)
      as (w2 & -> & (Hv2 & Hp2 & Hlp2) & Hle2 & Hall); [done|intros; lia| |done| |].
    + intros child w' w'' HQ Hle q Hq Havoid. specialize (HQ q Hq Havoid). lia.
    + intros w' child (Hv & Hp & Hlp') Hchild.
      destruct (IH child w') as (w'' & -> & Hv'' & Hp'' & Hlp'' & Hle'' & Hq'').
      * by rewrite Hv.
      * by eapply children_vertices.
      * rewrite Hv. lia.
      * split_and!; [by rewrite Hp|by rewrite Hp, Hv|done].
      * rewrite Hp. simpl. apply rooted_snoc; [done|].
        unfold successors. by rewrite Hcs.
      * exists w''. split; [done|]. split_and!; [congruence..|done|].
        intros q Hq Havoid. rewrite <-Hp. apply Hq''; [done|]. by rewrite Hv.
    + simpl. eexists. split; [done|]. simpl. rewrite Hv2, Hp2. simpl.
      rewrite JsSet_delete_added, removelast_last by done.
      split_and!; [done..|].
      intros q [[-> Hleaf']|(c & q' & -> & Hc & Hmq' & Hq')]%leafPath_inv Havoid.
      { congruence. }
      assert (c ∈ cs) as Hccs.
      { unfold successors in Hc. by rewrite Hcs in Hc. }
      specialize (Hall c Hccs q' Hq'). rewrite Hcp1 in Hall. simpl.
      rewrite <-Nat.add_succ_comm. apply Hall.
      intros x Hx [->|?]%JsSet_elem_add; [done|].
      apply (Havoid x); [by right|done].
Qed.
End CriticalPath.

Section CriticalPathProps.
Import GraphBuilder.

(** X21 (getCriticalPath).  On every graph the critical path that is
    returned is either empty or a path along instantiation edges, without
    repeated modules, that starts at a top-level module and ends at a
    module that instantiates nothing; and no such path is longer than the
    one returned. *)
Theorem getCriticalPath_is_longest_top_to_leaf_path g :
  ∃ p, (∀ extra, getCriticalPath (depthBound g + extra) g = Some p) ∧
       (p = [] ∨
        (NoDup p ∧
         ∃ top leaf, top ∈ getTopLevelModules g ∧ chain_from g top p leaf ∧
                     noneOrEmpty (JsMap.get leaf (edges g)) = true)) ∧
       (∀ top q, top ∈ getTopLevelModules g → leafPath g top q →
                 length q ≤ length p).
Proof.
  destruct (loop_returns_each
              (λ w, visited w = [] ∧ critical_ok g (longestPath w))
              (λ w w', length (longestPath w) ≤ length (longestPath w'))
              (λ top w, ∀ q, leafPath g top q → length q ≤ length (longestPath w))
              (λ w top, criticalDfs (depthBound g) g top
                          (mkWalk (visited w) [] (longestPath w)))
              (getTopLevelModules g) (mkWalk JsSet.empty [] []))
    as (w & Hloop & [_ Hlp] & _ & Hall).
  - done.
  - intros; lia.
  - intros top w w' HQ Hle q Hq. specialize (HQ q Hq). lia.
  - split; [done|by left].
  - intros w top [Hv Hlp] Htop.
    destruct (criticalDfs_good g (depthBound g) top
                (mkWalk (visited w) [] (longestPath w)))
      as (w' & -> & Hv' & _ & Hlp' & Hle' & Hq'); simpl.
    + rewrite Hv. split; [constructor|]. by intros ? ?%elem_of_nil.
    + by apply topLevel_vertices.
    + unfold depthBound. lia.
    + split_and!; [apply NoDup_nil_2|by intros ? ?%elem_of_nil|done].
    + split; [done|]. by exists top.
    + exists w'. simpl in *. split; [done|]. split_and!; [by rewrite Hv'|done..|].
      intros q Hq. apply (Hq' q Hq). rewrite Hv. intros x _. apply not_elem_of_nil.
  - exists (longestPath w). split_and!; [|done|].
    + intros extra. rewrite getCriticalPath_unfold.
      eapply loop_mono in Hloop; [by rewrite Hloop|].
      intros w0 top r. apply criticalDfs_mono_add.
    + intros top q Htop Hq. by apply (Hall top).
Qed.
End CriticalPathProps.

(** ** The edges and the top-level modules of a built graph *)

Section BuiltGraph.
Import GraphBuilder.
Implicit Types (g : ModuleGraph) (modules : list ModuleInfo)
  (instances : list InstanceInfo).











End BuiltGraph.

Section BuiltNodes.
Import GraphBuilder.
Implicit Types (g : ModuleGraph) (modules : list ModuleInfo)
  (instances : list InstanceInfo) (n : string).





End BuiltNodes.

Section SearchFallback.
Import SearchEngine.
Variable localeCompare : string → string → Z.
Variable textBackend : string → string → list TextMatch.

Lemma omap_scoreSymbol_nil query (l : list Symbol) :
  Forall (λ symbol, calculateSymbolScore symbol query ≤ 0)%Z l →
  omap (scoreSymbol query) l = [].
Proof.
  induction 1 as [|symbol l Hs _ IH]; [done|].
  change (omap (scoreSymbol query) (symbol :: l)) with
    (match scoreSymbol query symbol with
     | Some r => r :: omap (scoreSymbol query) l
     | None => omap (scoreSymbol query) l
     end).
  unfold scoreSymbol at 1. by rewrite decide_False by lia.
Qed.

(** X25 (search).  When no indexed symbol scores above zero and a
    repository path is set, every mode runs the text tool, the mode
    "symbol" included: the results are the matches of the tool, each
    exactly once and all of type text, and the text search is the last
    work done, after the scoring pass if there was one. *)
Theorem search_without_symbol_hits_runs_text index repoPath query type :
  Forall (λ symbol, calculateSymbolScore symbol query ≤ 0)%Z
         (SymbolIndexer.listSymbols index) →
  repoPath ≠ "" →
  let out := SearchEngine.search localeCompare textBackend index repoPath query type in
  out.1 ≡ₚ textResult <$> textBackend repoPath query ∧
  Forall (λ r, r_type r = RText) out.1 ∧
  out.2 =
    (if falsy type || bool_decide (type = Some "symbol")
     then [ScoringPass query (length (SymbolIndexer.listSymbols index))] else [])
    ++ [TextSearch repoPath query].
Proof.
  intros Hnone Hrepo out.
  assert (out = (sortResults localeCompare (textResult <$> textBackend repoPath query),
                 (if falsy type || bool_decide (type = Some "symbol")
                  then [ScoringPass query (length (SymbolIndexer.listSymbols index))]
                  else [])
                 ++ [TextSearch repoPath query])) as ->.
  { subst out. unfold SearchEngine.search, SearchEngine.collectResults.
    unfold searchSymbols, searchText, bind, tell, ret.
    rewrite (omap_scoreSymbol_nil _ _ Hnone).
    destruct (falsy type || bool_decide (type = Some "symbol")); cbn [fst snd];
      rewrite bool_decide_eq_true_2 by done; cbn [orb];
      rewrite decide_False by done; cbn [fst snd]; by rewrite ?app_nil_r. }
  cbn [fst snd]. split_and!; [apply sort_Permutation| |done].
  apply sort_Forall, Forall_forall. by intros r (m & -> & _)%list_elem_of_fmap.
Qed.
End SearchFallback.

Lemma search_without_symbol_hits_runs_text_witness :
  let index :=
    (Platform.updateFile "/" "/rtl/a.v" (Some "module foo") SymbolIndexer.empty).1 in
  let backend := λ _ _ : string,
    [SearchEngine.mkTextMatch "/rtl/a.v" 3 None "assign zzzzzz = 1;"] in
  let out := SearchEngine.search Platform.localeCompare backend
               index "/rtl" "zzzzzz" (Some "symbol") in
  SearchEngine.r_type <$> out.1 = [SearchEngine.RText] ∧
  out.2 = [SearchEngine.ScoringPass "zzzzzz" 1; SearchEngine.TextSearch "/rtl" "zzzzzz"].
Proof.
  intros index backend out.
  destruct (search_without_symbol_hits_runs_text Platform.localeCompare backend
              index "/rtl" "zzzzzz" (Some "symbol"))
    as (_ & _ & Hwork).
  - let l := eval vm_compute in (SymbolIndexer.listSymbols index) in
    change (SymbolIndexer.listSymbols index) with l.
    constructor; [by vm_compute|constructor].
  - done.
  - split; [by vm_compute|exact Hwork].
Defined.

Section KVCacheRoundTrip.
Import KVCache.
Context {T : Type}.
Variable calculateSize : T → nat.
Implicit Types (c : State T) (key : string).

(** X26 (KVCache.set, KVCache.get).  Data stored with [set(key, data,
    hash)] is returned by a [get(key)] that follows within the time to
    live, when the caller passes no expected hash, an empty one, or the
    hash that was stored; the call counts as a hit and as no miss. *)
Theorem kv_cache_get_after_set nowEntry nowStamp later key d h expectedHash c :
  (∀ age, LruCache.maxAge (cache c) = Some age → later - nowStamp ≤ age)%Z →
  expectedHash = None ∨ expectedHash = Some "" ∨ expectedHash = Some h →
  let r := get later key expectedHash (set calculateSize nowEntry nowStamp key d h c) in
  r.1 = Some d ∧ hitCount r.2 = S (hitCount c) ∧ missCount r.2 = missCount c.
Proof.
  intros Hage Hhash r. subst r. unfold get, set. cbn [cache hitCount missCount].
  rewrite get_set_value by done. cbn [fst snd].
  assert (mismatch expectedHash
            {| data := d; timestamp := nowEntry; hash := h; size := calculateSize d |}
          = false) as ->; [|done].
  unfold mismatch. destruct Hhash as [->|[->| ->]]; [done|done|].
  cbn [hash]. rewrite (bool_decide_eq_true_2 (h = h)) by done.
  apply andb_false_r.
Qed.
End KVCacheRoundTrip.

Lemma kv_cache_get_after_set_witness :
  let c := KVCache.set (λ _ : nat, 8) 10 10 "top.v" 7 "h1"
             (KVCache.create (Some 1000%Z) (Some 4%Z)) in
  (KVCache.get 500 "top.v" (Some "h1") c).1 = Some 7 ∧
  KVCache.hitCount (KVCache.get 500 "top.v" (Some "h1") c).2 = 1.
Proof.
  intros c.
  destruct (kv_cache_get_after_set (λ _ : nat, 8) 10 10 500 "top.v" 7 "h1" (Some "h1")
              (KVCache.create (Some 1000%Z) (Some 4%Z)))
    as (Hdata & Hhits & _).
  - intros age [= <-]. lia.
  - by do 2 right.
  - split; [exact Hdata|exact Hhits].
Defined.

(** ** [calculateHierarchyDepth] *)

Section HierarchyDepth.
Import GraphBuilder.
Variable g : ModuleGraph.
Implicit Types (m : string) (vis : JsSet.t) (q : list string).

Lemma visited_in_add U m vis :
  visited_in U vis → m ∈ U → visited_in U (JsSet.add m vis).
Proof.
  intros [? Hin] Hm. split; [by apply JsSet_NoDup_add|].
  intros x [->|?]%JsSet_elem_add; auto.
Qed.

(** With enough fuel the walk returns; the visited set grows, and a depth
    above zero is the length of a path from the module through modules
    that the walk newly visited. *)
Lemma depthDfs_descent U fuel m vis :
  (∀ a c, c ∈ successors g a → c ∈ U) →
  m ∈ U → visited_in U vis →
  length U < fuel + length vis →
  ∃ d vis', depthDfs fuel g m vis = Some (d, vis') ∧
            visited_in U vis' ∧ (∀ x, x ∈ vis → x ∈ vis') ∧
            ((d = 0 ∧ m ∈ vis) ∨ ∃ q, descent g m vis vis' q ∧ length q = d).
Proof.
  intros HU. revert m vis.
  induction fuel as [|fuel IH]; intros m vis Hm Hvis Hfuel.
  { apply visited_in_length in Hvis. lia. }
  rewrite depthDfs_unfold.
  destruct (JsSet.has m vis) eqn:Hhas.
  { exists 0, vis. split_and!; [done..|]. left. split; [done|].
    by apply JsSet_has_true. }
  assert (m ∉ vis) as Hfresh.
  { intros ?%JsSet_has_true. congruence. }
  set (vis1 := JsSet.add m vis).
  assert (visited_in U vis1) as Hvis1 by by apply visited_in_add.
  assert (length vis1 = S (length vis)) as Hlen1.
  { subst vis1. rewrite (JsSet_add_fresh _ _ Hhas), length_app. simpl. lia. }
  assert (∀ vis', (∀ x, x ∈ vis1 → x ∈ vis') → descent g m vis vis' [m]) as Hself.
  { intros vis' Hsub. split_and!; [done..|apply NoDup_singleton|].
    intros x ->%list_elem_of_singleton. split; [|done].
    apply Hsub, JsSet_elem_add. by left. }
  cbv zeta.
  destruct (noneOrEmpty (JsMap.get m (edges g))) eqn:Hleaf.
  { exists 1, vis1. split_and!; [done..| |].
    - intros x ?. apply JsSet_elem_add. by right.
    - right. exists [m]. split; [by apply Hself|done]. }
  destruct (JsMap.get m (edges g)) as [cs|] eqn:Hcs; [|done]. simpl.
  destruct (loop_returns
              (λ r : nat * JsSet.t,
                 visited_in U r.2 ∧ (∀ x, x ∈ vis1 → x ∈ r.2) ∧
                 (r.1 = 0 ∨
                  ∃ c q, c ∈ cs ∧ descent g c vis1 r.2 q ∧ length q = r.1))
              (λ r child, d ← depthDfs fuel g child r.2; Some (Nat.max r.1 d.1, d.2))
              cs (0, vis1))
    as ([maxd visr] & -> & Hvisr & Hsub & Hmax).
  - split_and!; [done..|by left].
  - intros [maxd visr] child (Hvisr & Hsub & Hmax) Hchild. simpl in *.
    destruct (IH child visr) as (d & visd & -> & Hvisd & Hsubd & Hd).
    + apply (HU m). unfold successors. by rewrite Hcs.
    + done.
    + assert (length vis1 ≤ length visr); [|lia].
      apply submseteq_length, NoDup_submseteq; [apply Hvis1|done].
    + eexists. split; [done|]. simpl. split_and!; [done|by auto|].
      destruct (Nat.max_spec maxd d) as [[Hlt ->]|[Hle ->]].
      * destruct Hd as [[-> _]|(q & (Hhead & Hchain & Hnd & Hq) & Hlen)]; [lia|].
        right. exists child, q. split_and!; [done| |done].
        split_and!; [done..|]. intros x Hx. destruct (Hq x Hx) as [? Hnot].
        split; [done|]. intros ?. apply Hnot. by apply Hsub.
      * destruct Hmax as [->|(c & q & Hc & (Hhead & Hchain & Hnd & Hq) & Hlen)];
          [by left|].
        right. exists c, q. split_and!; [done| |done].
        split_and!; [done..|]. intros x Hx. destruct (Hq x Hx) as [? ?]. auto.
  - simpl in *. exists (maxd + 1), visr. split_and!; [done..| |].
    + intros x ?. apply Hsub, JsSet_elem_add. by right.
    + right.
      destruct Hmax as [->|(c & q & Hc & (Hhead & Hchain & Hnd & Hq) & Hlen)].
      * exists [m]. split; [by apply Hself|done].
      * exists (m :: q). split; [|simpl; lia]. split_and!.
        -- done.
        -- eapply chain_cons; [done| |done]. unfold successors. by rewrite Hcs.
        -- apply NoDup_cons. split; [|done]. intros Hmq.
           destruct (Hq m Hmq) as [_ Hnot]. apply Hnot, JsSet_elem_add. by left.
        -- intros x [->|Hx]%elem_of_cons.
           ++ split; [|done]. apply Hsub, JsSet_elem_add. by left.
           ++ destruct (Hq x Hx) as [? Hnot]. split; [done|].
              intros ?. apply Hnot, JsSet_elem_add. by right.
Qed.
End HierarchyDepth.

Section HierarchyDepthProps.
Import GraphBuilder.

(** X27 (calculateHierarchyDepth).  For every module name the hierarchy
    depth is computed on every graph, cyclic ones included, and it is the
    number of modules on some path along instantiation edges that starts
    at the module and repeats no module; in particular it is at least
    1. *)
Theorem calculateHierarchyDepth_counts_a_path g m :
  ∃ d, (∀ extra, calculateHierarchyDepth (S (depthBound g) + extra) g m = Some d) ∧
       1 ≤ d ∧
       ∃ q, head q = Some m ∧ chain g q ∧ NoDup q ∧ length q = d.
Proof.
  destruct (depthDfs_descent g (m :: vertices g) (S (depthBound g)) m JsSet.empty)
    as (d & vis' & Hrun & _ & _ & Hd).
  - intros a c ?%successors_vertices. by right.
  - by left.
  - split; [apply NoDup_nil_2|]. intros ? ?%elem_of_nil. done.
  - unfold depthBound. simpl. lia.
  - exists d. split.
    { intros extra. unfold calculateHierarchyDepth.
      by rewrite (depthDfs_mono_add g _ extra _ _ _ Hrun). }
    destruct Hd as [[_ ?%elem_of_nil]|(q & (Hhead & Hchain & Hnd & _) & Hlen)];
      [done|].
    split; [destruct q; [done|simpl in Hlen; lia]|].
    by exists q.
Qed.
End HierarchyDepthProps.

Section UpdateFileFailure.
Import SymbolIndexer.
Variables resolve basename dirname : string → string.
Variable regexMatches : Pattern → string → list (string * nat).
Variable readFileSync : string → option string.

(** X28 (updateFile).  An empty content string counts as no content: the
    file is read from disk.  When that read fails, [updateFile] throws
    only after its removal loop has run: every symbol that was filed under
    the path is gone from the table, and [getSymbolsInFile] returns
    nothing for the path. *)
Theorem updateFile_unreadable_file_drops_symbols p content st :
  content = None ∨ content = Some "" →
  readFileSync p = None →
  let r := SymbolIndexer.updateFile resolve basename dirname regexMatches
             readFileSync p content st in
  r.2 = Threw ∧
  getSymbolsInFile p r.1 = [] ∧
  ∀ y, inIndex p y (pathIndex st) → getSymbol y r.1 = None.
Proof.
  intros Hcontent Hread r.
  assert (SymbolIndexer.fileContent readFileSync p content = None) as Hnone.
  { destruct Hcontent as [->| ->]; exact Hread. }
  assert (r.1 = replaceBatch p [] st) as Hst.
  { subst r. rewrite updateFile_replaceBatch. unfold SymbolIndexer.inserted.
    by rewrite Hnone. }
  split_and!.
  - subst r. by rewrite updateFile_outcome, Hnone.
  - rewrite Hst. destruct (getSymbolsInFile p (replaceBatch p [] st)) as [|s l] eqn:Hl;
      [done|].
    assert (s ∈ getSymbolsInFile p (replaceBatch p [] st)) as Hs
      by (rewrite Hl; by left).
    apply replaceBatch_getSymbolsInFile in Hs. by apply elem_of_nil in Hs.
  - intros y Hy. rewrite Hst. unfold getSymbol, replaceBatch.
    change (addAll [] ?x) with x. rewrite removeAll_symbols.
    by rewrite decide_True.
Qed.
End UpdateFileFailure.

Lemma updateFile_unreadable_file_drops_symbols_witness :
  let st := (Platform.updateFile "/work" "/rtl/a.v" (Some "module foo")
               SymbolIndexer.empty).1 in
  length (SymbolIndexer.getSymbolsInFile "/rtl/a.v" st) = 1 ∧
  (Platform.updateFile "/work" "/rtl/a.v" (Some "") st).2 = SymbolIndexer.Threw ∧
  SymbolIndexer.getSymbolsInFile "/rtl/a.v"
    (Platform.updateFile "/work" "/rtl/a.v" (Some "") st).1 = [].
Proof.
  intros st.
  destruct (updateFile_unreadable_file_drops_symbols (Platform.resolve "/work")
              Platform.basename Platform.dirname Platform.regexMatches
              Platform.readFileSync "/rtl/a.v" (Some "") st)
    as (Hthrew & Hgone & _).
  - by right.
  - reflexivity.
  - split_and!; [by vm_compute|exact Hthrew|exact Hgone].
Defined.

(** ** Sorting sorted results again *)

Section SortAgain.
Context {A : Type}.
Variable cmp : A → A → Z.

Lemma sort_sorted (l : list A) :
  StronglySorted (keeps cmp) l → JsArray.sort cmp l = l.
Proof.
  induction 1 as [|x l Hl IH Hx]; [done|].
  simpl. rewrite IH. destruct l as [|y l]; [done|].
  simpl. apply Forall_cons in Hx as [Hxy _]. by rewrite decide_True.
Qed.
End SortAgain.

Section SearchSorted.
Import SearchEngine.
Variable localeCompare : string → string → Z.
Variable textBackend : string → string → list TextMatch.
Hypothesis localeCompare_antisym :
  ∀ x y, Z.sgn (localeCompare y x) = (- Z.sgn (localeCompare x y))%Z.
Hypothesis localeCompare_trans :
  ∀ x y z, (localeCompare x y ≤ 0 → localeCompare y z ≤ 0 → localeCompare x z ≤ 0)%Z.

(** X29 (sortResults, search).  With a collation that orders strings
    consistently, [sortResults] is idempotent on what [search] collects:
    sorting the results of a search once more returns them unchanged. *)
Theorem search_results_stay_sorted index repoPath query type :
  let out := (SearchEngine.search localeCompare textBackend index repoPath query type).1 in
  SearchEngine.sortResults localeCompare out = out.
Proof.
  intros out. apply sort_sorted. subst out. rewrite search_sorted_collect.
  apply (sort_StronglySorted _ well_formed).
  - intros x y ? ?. rewrite !compareResults_established by done.
    by apply established_total.
  - intros x y z ? ? ?. rewrite !compareResults_established by done.
    by apply established_trans.
  - apply collectResults_well_formed.
Qed.
End SearchSorted.

Lemma search_results_stay_sorted_witness :
  let index :=
    (Platform.updateFile "/" "/rtl/a.v" (Some "module foo")
       (Platform.updateFile "/" "/rtl/b.v" (Some "module foo") SymbolIndexer.empty).1).1 in
  let out :=
    (SearchEngine.search Platform.localeCompare (λ _ _, []) index "" "foo" None).1 in
  SearchEngine.sortResults Platform.localeCompare out = out.
Proof.
  intros index out.
  exact (search_results_stay_sorted Platform.localeCompare (λ _ _, [])
           Platform_localeCompare_antisym Platform_localeCompare_trans
           index "" "foo" None).
Defined.

(** ** The number of edges *)

Section EdgeCount.
Import GraphBuilder.
Implicit Types (map : JsMap.t JsSet.t) (g : ModuleGraph).

Lemma foldl_sizes acc (l : list JsSet.t) :
  foldl (λ total set, total + JsSet.size set) acc l =
  acc + foldl (λ total set, total + JsSet.size set) 0 l.
Proof.
  revert acc. induction l as [|s l IH]; intros acc; simpl; [lia|].
  rewrite (IH (acc + _)), (IH (JsSet.size s)). lia.
Qed.

Lemma sizes_set map k (v : JsSet.t) :
  foldl (λ total set, total + JsSet.size set) 0 (JsMap.values (JsMap.set k v map))
  + JsSet.size (default JsSet.empty (JsMap.get k map)) =
  foldl (λ total set, total + JsSet.size set) 0 (JsMap.values map) + JsSet.size v.
Proof.
  unfold JsMap.values. induction map as [|[k' v'] map IH]; [done|].
  cbn [JsMap.set JsMap.get]. destruct (decide (k' = k)) as [->|Hne].
  - rewrite !fmap_cons. cbn [foldl snd from_option id].
    rewrite (foldl_sizes (0 + JsSet.size v)), (foldl_sizes (0 + JsSet.size v')). lia.
  - rewrite !fmap_cons. cbn [foldl snd].
    rewrite (foldl_sizes (0 + JsSet.size v')),
      (foldl_sizes (0 + JsSet.size v') (map.*2)). lia.
Qed.

Lemma sizes_addTo map k x :
  foldl (λ total set, total + JsSet.size set) 0 (JsMap.values (addTo k x map)) ≤
  S (foldl (λ total set, total + JsSet.size set) 0 (JsMap.values map)).
Proof.
  unfold addTo.
  set (map1 := if JsMap.has k map then map else JsMap.set k JsSet.empty map).
  pose proof (sizes_set map1 k
                (JsSet.add x (default JsSet.empty (JsMap.get k map1)))) as Hset.
  assert (JsSet.size (JsSet.add x (default JsSet.empty (JsMap.get k map1))) ≤
          S (JsSet.size (default JsSet.empty (JsMap.get k map1)))) as Hadd.
  { unfold JsSet.add, JsSet.size. destruct (JsSet.has _ _); [lia|].
    rewrite length_app. simpl. lia. }
  assert (foldl (λ total set, total + JsSet.size set) 0 (JsMap.values map1) =
          foldl (λ total set, total + JsSet.size set) 0 (JsMap.values map)) as Hsame.
  { subst map1. unfold JsMap.has.
    destruct (JsMap.get k map) eqn:Hget; [done|].
    pose proof (sizes_set map k JsSet.empty) as H0. rewrite Hget in H0.
    simpl in H0. lia. }
  lia.
Qed.

(** X30 (getTotalEdges, buildGraph).  The number of edges of a built
    graph never exceeds the number of instances it was built from. *)
Theorem buildGraph_has_at_most_one_edge_per_instance modules instances :
  getTotalEdges (buildGraph modules instances) ≤ length instances.
Proof.
  unfold getTotalEdges, buildGraph, buildSignalFlows. cbn [edges].
  assert (∀ g, foldl (λ total set, total + JsSet.size set) 0
                 (JsMap.values (edges (foldl (addInstance modules) g instances))) ≤
               foldl (λ total set, total + JsSet.size set) 0 (JsMap.values (edges g))
               + length instances) as Hbound.
  { induction instances as [|i instances IH]; intros g; [simpl; lia|].
    simpl. etrans; [apply IH|].
    assert (foldl (λ total set, total + JsSet.size set) 0
              (JsMap.values (edges (addInstance modules g i))) ≤
            S (foldl (λ total set, total + JsSet.size set) 0 (JsMap.values (edges g))));
      [|lia].
    unfold addInstance. destruct (findModuleByFile _ _); [|lia].
    cbn [addEdge edges]. apply sizes_addTo. }
  etrans; [apply Hbound|].
  by destruct (foldl_addNode_edges modules emptyGraph) as (-> & _).
Qed.
End EdgeCount.
